(** * MLLP exchange and retry queue of the AI-DSS integration workflow

    A shallow embedding of [src/server_client_system.py]: the MLLP frame
    codec ([strip_mllp_framing]), the two read loops that wait for the
    frame footer, the inbound listener ([store_msg_produce_ack]), the
    outbound client ([start_client]), the retry worker ([msg_worker]) and
    the thread set-up of [main].

    Byte strings are [list byte]; Python integers used as indices are [Z]
    (so that the [-1] of [bytes.find] and negative slice bounds are
    modelled as Python has them); the shared [queue.Queue] is a record with
    its deque and its [unfinished_tasks] counter.  Calls into hl7apy and the
    inference toolchain are collaborators: pure ones are fields of the
    class [Collaborators], effectful ones have their outcome chosen by the
    environment in the label of a transition.  [create_msg] of
    [utils/create_output_msg.py] is modelled by the way it ends.

    The threads of the process (the listener on the main thread, the
    [msg_worker] threads) are interleaved by a schedule, a list of labels;
    a thread is scheduled between any two of its accesses to the shared
    queue, the listener also between its [put] and its [send].  [run]
    executes a schedule and keeps a log of what happened.  The definitions
    come first, the properties after them. *)

From Stdlib Require Import List ZArith Lia Bool Arith.
From Stdlib Require Strings.String Strings.Byte Strings.Ascii.
From Stdlib Require Numbers.DecimalString Numbers.DecimalNat.
From Stdlib Require Import Init.Byte.
Import ListNotations String.StringSyntax.
Delimit Scope string_scope with string.
Open Scope string_scope.

Abbreviation str := String.string.
Definition bytes := list byte.

(* ===================================================================== *)
(** * Definitions *)
(* ===================================================================== *)

(** ** Python [bytes] primitives used by the codec *)

(** [s.startswith(prefix)] *)
Fixpoint startswith (s prefix : bytes) {struct prefix} : bool :=
  match prefix, s with
  | [], _ => true
  | _ :: _, [] => false
  | p :: prefix', c :: s' => Byte.eqb c p && startswith s' prefix'
  end.

(** [s.endswith(suffix)] *)
Definition endswith (s suffix : bytes) : bool :=
  startswith (rev s) (rev suffix).

(** [s.find(sub)], searching from offset [i] of the enclosing buffer: the
    lowest index at which [sub] occurs, or [-1]. *)
Fixpoint find_from (s sub : bytes) (i : Z) : Z :=
  if startswith s sub then i
  else match s with
       | [] => (-1)%Z
       | _ :: s' => find_from s' sub (i + 1)
       end.

Definition find (s sub : bytes) : Z := find_from s sub 0.

(** [sub in s] *)
Definition contains (s sub : bytes) : bool := (0 <=? find s sub)%Z.

(** Bound adjustment of a Python slice: a negative bound counts from the
    end, and both bounds are clipped to [0 .. len]. *)
Definition adjust_index (len i : Z) : Z :=
  if (i <? 0)%Z then Z.max 0 (i + len) else Z.min i len.

(** [s[start:stop]] *)
Definition slice (s : bytes) (start stop : Z) : bytes :=
  let len := Z.of_nat (length s) in
  let lo := adjust_index len start in
  let hi := adjust_index len stop in
  firstn (Z.to_nat (hi - lo)) (skipn (Z.to_nat lo) s).

(** ** Frame codec *)

(** [b'\x0b'] and [b'\x1c\r'] *)
Definition header : bytes := [x0b].
Definition footer : bytes := [x1c; x0d].

(** [strip_mllp_framing], lines 63-76. *)
Definition strip_mllp_framing (byte_stream : bytes) : bytes :=
  let start_pos := (find byte_stream header + 1)%Z in
  let end_pos := find byte_stream footer in
  slice byte_stream start_pos end_pos.

(** Modelled from the spec: the framing half of the codec is hl7apy's
    [to_mllp], which is not part of the sources; the specification
    describes it as prepending the start marker and appending the end
    marker to the payload. *)
Definition encode (payload : bytes) : bytes := header ++ payload ++ footer.

(** ** Socket reads *)

(** What one [recv(4096)] call gives back: some bytes (the empty byte
    string once the peer has closed its end), or an exception. *)
Inductive recv_result :=
| RecvBytes (chunk : bytes)
| RecvRaises.

(** Where a read loop stands after the given [recv] results. *)
Inductive read_loop :=
| Complete (buf : bytes)      (* the loop condition became false *)
| RecvRaised                  (* an exception left the loop *)
| StillReading (buf : bytes). (* every result consumed, loop not left *)

(** The read loop of lines 232-235 (and 102-104):
    [while not buf.endswith(b'\x1c\x0d'): buf += sock.recv(4096)]. *)
Fixpoint recv_until_footer (buf : bytes) (rs : list recv_result) : read_loop :=
  if endswith buf footer then Complete buf
  else match rs with
       | [] => StillReading buf
       | RecvBytes chunk :: rs' => recv_until_footer (buf ++ chunk) rs'
       | RecvRaises :: _ => RecvRaised
       end.

(** How a call ends. *)
Inductive completion :=
| Returned
| Raised
| NeverReturns.

(** ** The shared work queue *)

(** A queued tuple [(msg, retry)]. *)
Definition item := (str * nat)%type.

(** [queue.Queue(maxsize=0)]: the underlying deque and the counter that
    [put] increments and [task_done] decrements. *)
Module Queue.

Record t := mk { queue : list item; unfinished_tasks : nat }.

Definition empty : t := mk [] 0.

Definition put (x : item) (q : t) : t :=
  mk (queue q ++ [x]) (S (unfinished_tasks q)).

(** [get()] blocks on the empty queue: [None]. *)
Definition get (q : t) : option (item * t) :=
  match queue q with
  | [] => None
  | x :: rest => Some (x, mk rest (unfinished_tasks q))
  end.

(** [input_msg_queue.queue.insert(0, x)]: straight on the deque, the
    counter is not touched. *)
Definition insert_front (x : item) (q : t) : t :=
  mk (x :: queue q) (unfinished_tasks q).

(** [task_done()] raises [ValueError] when called more often than
    [put]: [None]. *)
Definition task_done (q : t) : option t :=
  match unfinished_tasks q with
  | O => None
  | S n => Some (mk (queue q) n)
  end.

Definition qsize (q : t) : nat := length (queue q).

End Queue.

(** ** Observable actions *)

Inductive event :=
(* inbound listener *)
| Accepted
| Enqueued (msg : str) (retry : nat)
| AckSent (ack_out : bytes)
| ConnectionClosed
(* retry worker *)
| Dequeued (msg : str) (retry : nat)
| InferenceStarted (msg : str)
| InferenceEnded (msg : str)
| Slept (secs : nat)
| Requeued (msg : str) (retry : nat)
| Dropped (msg : str)
| HandedOff (msg : str) (oul_r21_out : bytes)
| TaskDone
(* outbound client *)
| Connected
| Sent (data : bytes)
| AckReceived (ack_message : bytes)
| ClientClosed.

(** ** Collaborators *)

(** The pure calls the listener makes on the payload. [None] stands for a
    raised exception. *)
Class Collaborators := {
  (** [hl7_msg.decode('utf-8')] *)
  decode_utf8 : bytes -> option str;
  (** [create_ack_msg.create_message(hl7_msg_decoded)] *)
  create_message : str -> option str;
  (** [ack_msg.to_mllp().encode('utf-8')] *)
  to_mllp : str -> bytes
}.

(** An inbound connection as the listener sees it: the results of its
    successive [recv] calls up to the moment the peer closes (every later
    [recv] returns [b'']), and whether [send] goes through. *)
Record connection := { recvs : list recv_result; send_ok : bool }.

(** The downstream peer as [start_client] sees it. *)
Record peer := {
  connect_ok : bool;
  sendall_ok : bool;
  ack_recvs : list recv_result
}.

(** ** Outbound client *)

(** [start_client], lines 92-119. The [finally] clause closes the socket on
    every way out; on the normal path the socket has been closed once
    already. *)
Definition start_client (lis : peer) (msg : bytes) : list event * completion :=
  if negb (connect_ok lis) then ([ClientClosed], Raised)
  else if negb (sendall_ok lis) then ([Connected; ClientClosed], Raised)
  else match recv_until_footer [] (ack_recvs lis) with
       | StillReading _ => ([Connected; Sent msg], NeverReturns)
       | RecvRaised => ([Connected; Sent msg; ClientClosed], Raised)
       | Complete ack =>
           let ack_message := strip_mllp_framing ack in
           ([Connected; Sent msg; AckReceived ack_message;
             ClientClosed; ClientClosed], Returned)
       end.

(** ** Inbound listener *)

(** Program points of the listener thread. *)
Inductive lstate :=
| Accepting                                  (* line 226 *)
| Replying (ack_out : bytes) (ok : bool)     (* after the [put] of line 256, before the [send] of line 268 *)
| ListenerStuck                              (* a read loop that does not end *)
| ListenerExited.                            (* an exception left [store_msg_produce_ack] *)

Definition lstate_after (r : completion) : lstate :=
  match r with
  | Returned => Accepting
  | Raised => ListenerExited
  | NeverReturns => ListenerStuck
  end.

Section Listener.

Context `{Collaborators}.

(** One turn of the accept loop, lines 226-276. *)
Definition serve_connection (c : connection) (q : Queue.t)
  : Queue.t * list event * completion :=
  match recv_until_footer [] (recvs c) with
  | StillReading _ => (q, [Accepted], NeverReturns)
  | RecvRaised => (q, [Accepted], Raised)
  | Complete input_msg =>
      let hl7_msg := strip_mllp_framing input_msg in
      match decode_utf8 hl7_msg with
      | None => (q, [Accepted], Raised)
      | Some hl7_msg_decoded =>
          match create_message hl7_msg_decoded with
          | None => (q, [Accepted], Raised)
          | Some ack_msg =>
              let q' := Queue.put (hl7_msg_decoded, 0) q in
              let ack_out := to_mllp ack_msg in
              if send_ok c
              then (q', [Accepted; Enqueued hl7_msg_decoded 0;
                         AckSent ack_out; ConnectionClosed], Returned)
              else (q', [Accepted; Enqueued hl7_msg_decoded 0], Raised)
          end
      end
  end.

(** The same turn in two parts, for the schedules on which a worker runs
    between them: lines 226-263, up to and including the [put], and lines
    266-276, where [ok] says whether [send] goes through. *)
Definition receive_order (c : connection) (q : Queue.t)
  : Queue.t * list event * lstate :=
  match recv_until_footer [] (recvs c) with
  | StillReading _ => (q, [Accepted], ListenerStuck)
  | RecvRaised => (q, [Accepted], ListenerExited)
  | Complete input_msg =>
      let hl7_msg := strip_mllp_framing input_msg in
      match decode_utf8 hl7_msg with
      | None => (q, [Accepted], ListenerExited)
      | Some hl7_msg_decoded =>
          match create_message hl7_msg_decoded with
          | None => (q, [Accepted], ListenerExited)
          | Some ack_msg =>
              (Queue.put (hl7_msg_decoded, 0) q,
               [Accepted; Enqueued hl7_msg_decoded 0],
               Replying (to_mllp ack_msg) (send_ok c))
          end
      end
  end.

Definition send_ack (ack_out : bytes) (ok : bool) : list event * lstate :=
  if ok
  then ([AckSent ack_out; ConnectionClosed], Accepting)
  else ([], ListenerExited).

(** [store_msg_produce_ack], the [while True] of line 223 over the
    connections that arrive: each is served to its end before the next
    [accept]; with no connection left the loop waits in [accept]. *)
Fixpoint store_msg_produce_ack (conns : list connection) (q : Queue.t)
  : Queue.t * list event * completion :=
  match conns with
  | [] => (q, [], NeverReturns)
  | c :: later =>
      match serve_connection c q with
      | (q', evs, Returned) =>
          let '(q'', evs', r) := store_msg_produce_ack later q' in
          (q'', evs ++ evs', r)
      | stopped => stopped
      end
  end.

End Listener.

(** ** Retry worker *)

(** The arguments [num_retries] and [delay_secs] of [msg_worker]. *)
Record config := { num_retries : nat; delay_secs : nat }.

(** The output message, as far as [create_msg] gets with it: the
    [Message("OUL_R21")] of line 239 with nothing added. *)
Inductive oul_r21 := BareMessage.

(** [create_output_msg.create_msg], lines 224-320, by the way it ends;
    [None] stands for a raised exception.  With an empty [slide_list] the
    loop of line 248 is not entered and the message of line 239 is
    returned.  Otherwise the first turn of the loop calls [create_msh]
    (line 293), whose line 140 calls [msgControlId], a name that the
    module neither defines nor imports: [NameError] is raised there, if
    nothing has raised on the way ([top_five_tiles], [os.listdir], the
    dictionary lookups of lines 134-137).  No [try] encloses any of
    this, so the exception leaves [create_msg]. *)
Definition create_msg (slide_list : list str) : option oul_r21 :=
  match slide_list with
  | [] => Some BareMessage
  | _ :: _ => None
  end.

(** How [run_inference] ends for a dequeued message, lines 159-162.  When
    it returns, [slide :: others] is the [slide_list] of the message,
    whose first element line 155 has read; [oul_r21_out] is what
    [to_mllp().encode('utf-8')] makes of the output message (line 189) and
    [lis] the peer at [address_lis]. *)
Inductive processing :=
| InferenceFails
| InferenceReturns (slide : str) (others : list str)
                   (oul_r21_out : bytes) (lis : peer).

(** The two halves of a loop turn: up to the call of [run_inference], and
    from its return on.  [extract_ok] says whether lines 152-156 went
    through: [extract_msg_info] returned and [slide_list[0]] exists. *)
Inductive action :=
| Get (extract_ok : bool)
| Finish (p : processing).

(** Program points of the worker thread. *)
Inductive wstate :=
| AtGet                                  (* line 142 *)
| InInference (msg : str) (retry : nat)  (* lines 160-161 *)
| Exited                                 (* an exception left [msg_worker] *)
| StuckInClient.                         (* [start_client] never returns *)

(** [msg_worker], lines 139-195, one half of a loop turn at a time.  Each
    half touches the shared queue once ([get]; [insert] or [task_done]),
    so that the listener's [put], which goes to the other end of the
    deque, may fall anywhere around it, also inside the [sleep] before the
    reinsertion. *)
Definition msg_worker (cfg : config) (a : action) (w : wstate) (q : Queue.t)
  : wstate * Queue.t * list event :=
  match w, a with
  | AtGet, Get extract_ok =>
      match Queue.get q with
      | None => (AtGet, q, [])
      | Some ((msg, retry), q') =>
          if extract_ok
          then (InInference msg retry, q', [Dequeued msg retry; InferenceStarted msg])
          else (Exited, q', [Dequeued msg retry])
      end
  | InInference msg retry, Finish p =>
      match p with
      | InferenceFails =>
          if retry <? num_retries cfg
          then (AtGet, Queue.insert_front (msg, retry + 1) q,
                [InferenceEnded msg; Slept (delay_secs cfg); Requeued msg (retry + 1)])
          else match Queue.task_done q with
               | Some q' => (AtGet, q', [InferenceEnded msg; Dropped msg; TaskDone])
               | None => (Exited, q, [InferenceEnded msg; Dropped msg])
               end
      | InferenceReturns slide others oul_r21_out lis =>
          match create_msg (slide :: others) with
          | None => (Exited, q, [InferenceEnded msg])
          | Some _ =>
              let '(evs, r) := start_client lis oul_r21_out in
              let handed :=
                InferenceEnded msg :: HandedOff msg oul_r21_out :: evs in
              match r with
              | Returned =>
                  match Queue.task_done q with
                  | Some q' => (AtGet, q', handed ++ [TaskDone])
                  | None => (Exited, q, handed)
                  end
              | Raised => (Exited, q, handed)
              | NeverReturns => (StuckInClient, q, handed)
              end
          end
      end
  | _, _ => (w, q, [])
  end.

(** ** The threads of [main] *)

Record state := {
  shared : Queue.t;        (* [input_msg_queue] *)
  listener : lstate;       (* the main thread, in [store_msg_produce_ack] *)
  workers : list wstate;   (* the threads running [msg_worker] *)
  log : list event         (* what has happened so far, oldest first *)
}.

(** A scheduling decision: the listener serves the next connection in
    one go ([Listen]), or up to its [put] ([Receive]) and, later, from
    there on ([Reply]); or worker thread [tid] runs one half of a loop
    turn. *)
Inductive label :=
| Listen (c : connection)
| Receive (c : connection)
| Reply
| Work (tid : nat) (a : action).

Fixpoint set_nth {A} (n : nat) (x : A) (l : list A) : list A :=
  match l, n with
  | [], _ => []
  | _ :: t, O => x :: t
  | h :: t, S n' => h :: set_nth n' x t
  end.

Section System.

Context `{Collaborators}.

(** One scheduling decision.  A label that does not fit the program point
    of its thread changes nothing.  The worker threads are daemon
    threads and end with the main thread; the steps that the model lets
    them take after the listener has left its loop add runs and take none
    away. *)
Definition step (cfg : config) (l : label) (s : state) : state :=
  match l with
  | Listen c =>
      match listener s with
      | Accepting =>
          let '(q, evs, r) := serve_connection c (shared s) in
          {| shared := q; listener := lstate_after r;
             workers := workers s; log := log s ++ evs |}
      | _ => s
      end
  | Receive c =>
      match listener s with
      | Accepting =>
          let '(q, evs, l') := receive_order c (shared s) in
          {| shared := q; listener := l';
             workers := workers s; log := log s ++ evs |}
      | _ => s
      end
  | Reply =>
      match listener s with
      | Replying ack_out ok =>
          let '(evs, l') := send_ack ack_out ok in
          {| shared := shared s; listener := l';
             workers := workers s; log := log s ++ evs |}
      | _ => s
      end
  | Work tid a =>
      match nth_error (workers s) tid with
      | None => s
      | Some w =>
          let '(w', q, evs) := msg_worker cfg a w (shared s) in
          {| shared := q; listener := listener s;
             workers := set_nth tid w' (workers s); log := log s ++ evs |}
      end
  end.

Definition run (cfg : config) (sched : list label) (s : state) : state :=
  fold_left (fun s l => step cfg l s) sched s.

End System.

(** A process with [n] worker threads, all at the top of their loop. *)
Definition boot (n : nat) : state :=
  {| shared := Queue.empty; listener := Accepting;
     workers := repeat AtGet n; log := [] |}.

(** [main], lines 298-324: [nmax = 3], [delay = 3], one [msg_worker]
    thread, and the listener on the main thread. *)
Definition main_config : config := {| num_retries := 3; delay_secs := 3 |}.
Definition main : state := boot 1.

(** ** Auxiliary definitions for the statements *)

(** The offset of the first occurrence of [sub] in [s], as a natural
    number: what [find] computes, without the [-1] encoding. *)
Fixpoint index_of (s sub : bytes) : option nat :=
  if startswith s sub then Some 0
  else match s with
       | [] => None
       | _ :: s' => option_map S (index_of s' sub)
       end.

(** Events written by the listener thread; every other event comes from
    a worker thread (the client runs on the worker's thread). *)
Definition is_listener_event (e : event) : bool :=
  match e with
  | Accepted | Enqueued _ _ | AckSent _ | ConnectionClosed => true
  | _ => false
  end.

Definition listener_events (evs : list event) : list event :=
  filter is_listener_event evs.

Definition worker_events (evs : list event) : list event :=
  filter (fun e => negb (is_listener_event e)) evs.

Definition is_enqueued (e : event) : bool :=
  match e with Enqueued _ _ => true | _ => false end.

Definition is_ack_sent (e : event) : bool :=
  match e with AckSent _ => true | _ => false end.

Definition is_handed_off (e : event) : bool :=
  match e with HandedOff _ _ => true | _ => false end.

Definition is_dropped (e : event) : bool :=
  match e with Dropped _ => true | _ => false end.

Definition is_requeued (e : event) : bool :=
  match e with Requeued _ _ => true | _ => false end.

(** Position of the first event that satisfies [f]. *)
Fixpoint position (f : event -> bool) (evs : list event) : option nat :=
  match evs with
  | [] => None
  | e :: evs' => if f e then Some 0 else option_map S (position f evs')
  end.

(** In [evs] an [f]-event occurs, and a [g]-event occurs later than the
    first [f]-event. *)
Definition precedes (f g : event -> bool) (evs : list event) : bool :=
  match position f evs, position g evs with
  | Some i, Some j => i <? j
  | _, _ => false
  end.

(** The worker's part of a schedule. *)
Definition is_work (l : label) : bool :=
  match l with Work _ _ => true | Listen _ | Receive _ | Reply => false end.

Definition worker_view (sched : list label) : list label := filter is_work sched.

(** A loop turn of worker 0 in which [extract_msg_info] returns and the
    processing ends as [p] says, and [k] turns in a row whose inference
    fails. *)
Definition turn (p : processing) : list label :=
  [Work 0 (Get true); Work 0 (Finish p)].

Fixpoint failures (k : nat) : list label :=
  match k with
  | O => []
  | S k' => turn InferenceFails ++ failures k'
  end.

(** What the worker logs for a failed turn that is retried, and for [k] of
    them on the same message, the first with counter [i]. *)
Definition retried_turn (cfg : config) (m : str) (i : nat) : list event :=
  [Dequeued m i; InferenceStarted m; InferenceEnded m;
   Slept (delay_secs cfg); Requeued m (i + 1)].

Fixpoint retried_turns (cfg : config) (m : str) (i k : nat) : list event :=
  match k with
  | O => []
  | S k' => retried_turn cfg m i ++ retried_turns cfg m (i + 1) k'
  end.

(** A queued tuple that has not been tried yet. *)
Definition fresh (x : item) : Prop := snd x = 0.

(** The messages put on the queue, and the messages taken off it for their
    first attempt, in the order of the log. *)
Fixpoint enqueued (evs : list event) : list str :=
  match evs with
  | [] => []
  | Enqueued m _ :: evs' => m :: enqueued evs'
  | _ :: evs' => enqueued evs'
  end.

Fixpoint first_dequeues (evs : list event) : list str :=
  match evs with
  | [] => []
  | Dequeued m O :: evs' => m :: first_dequeues evs'
  | _ :: evs' => first_dequeues evs'
  end.

(** Number of [run_inference] calls in progress after the events [evs],
    starting from [cur] calls in progress, and the highest number reached
    on the way. *)
Fixpoint in_flight (cur : nat) (evs : list event) : nat :=
  match evs with
  | [] => cur
  | InferenceStarted _ :: evs' => in_flight (S cur) evs'
  | InferenceEnded _ :: evs' => in_flight (pred cur) evs'
  | _ :: evs' => in_flight cur evs'
  end.

Fixpoint peak (cur : nat) (evs : list event) : nat :=
  match evs with
  | [] => cur
  | InferenceStarted _ :: evs' => Nat.max cur (peak (S cur) evs')
  | InferenceEnded _ :: evs' => Nat.max cur (peak (pred cur) evs')
  | _ :: evs' => peak cur evs'
  end.

(** Events that open or close a [run_inference] call. *)
Definition is_inference_mark (e : event) : bool :=
  match e with InferenceStarted _ | InferenceEnded _ => true | _ => false end.

(** Worker threads inside [run_inference]. *)
Definition inferring (w : wstate) : bool :=
  match w with InInference _ _ => true | _ => false end.

Definition busy (ws : list wstate) : nat := length (filter inferring ws).

(** Worker threads whose loop is still turning. *)
Definition alive (w : wstate) : bool :=
  match w with AtGet | InInference _ _ => true | Exited | StuckInClient => false end.

(** [grown s s']: between [s] and [s'] no worker has moved; the listener
    may have put new messages at the back of the queue. *)
Definition grown (s s' : state) : Prop :=
  workers s' = workers s /\
  worker_events (log s') = worker_events (log s) /\
  exists arr,
    Queue.queue (shared s') = Queue.queue (shared s) ++ arr /\
    Forall fresh arr /\
    Queue.unfinished_tasks (shared s')
    = Queue.unfinished_tasks (shared s) + length arr.

(** With [n] worker threads: the calls in progress are those of the
    threads inside [run_inference], and there have never been more than
    [n] of them. *)
Definition lanes (n : nat) (s : state) : Prop :=
  length (workers s) = n /\
  in_flight 0 (log s) = busy (workers s) /\
  peak 0 (log s) <= n.

(** [task_done] has not been called too often: every queued tuple and
    every tuple under inference is still counted. *)
Definition counted (s : state) : Prop :=
  busy (workers s) + length (Queue.queue (shared s))
  <= Queue.unfinished_tasks (shared s).


(** Stand-ins for the collaborators in the examples: the payload is read
    byte for byte, the acknowledgment is the text "ACK" followed by the
    message, framed as [encode] does. *)
Definition demo : Collaborators := {|
  decode_utf8 := fun b => Some (String.string_of_list_byte b);
  create_message := fun m => Some (String.append "ACK" m);
  to_mllp := fun a => encode (String.list_byte_of_string a)
|}.

(** The bytes of "ORDER1" and "ORDER2", and connections that deliver them
    framed. *)
Definition order1 : bytes := [x4f; x52; x44; x45; x52; x31].
Definition order2 : bytes := [x4f; x52; x44; x45; x52; x32].

Definition delivers (frame : bytes) : connection :=
  {| recvs := [RecvBytes frame]; send_ok := true |}.

(** A peer that sends the start byte and two bytes of payload, and then
    closes. *)
Definition closes_early : connection :=
  {| recvs := [RecvBytes [x0b; x4f; x52]; RecvBytes []]; send_ok := true |}.

(** A downstream peer that refuses the connection, one that resets it
    while the acknowledgment is awaited, and one that acknowledges. *)
Definition refuses : peer :=
  {| connect_ok := false; sendall_ok := true; ack_recvs := [] |}.
Definition resets : peer :=
  {| connect_ok := true; sendall_ok := true; ack_recvs := [RecvRaises] |}.
Definition acknowledges : peer :=
  {| connect_ok := true; sendall_ok := true;
     ack_recvs := [RecvBytes (encode [x41; x43; x4b])] |}.

(** The process of [main] once "ORDER1" has come in, and schedules on
    which its inference fails twice and then succeeds, or fails four times,
    while "ORDER2" comes in. *)
Definition one_order : state :=
  @run demo main_config [Listen (delivers (encode order1))] main.

Definition result1 : bytes := encode [x52; x45; x53; x31].

Definition two_failures_then_success : list label :=
  [Work 0 (Get true); Listen (delivers (encode order2));
   Work 0 (Finish InferenceFails);
   Work 0 (Get true); Work 0 (Finish InferenceFails);
   Work 0 (Get true);
   Work 0 (Finish (InferenceReturns "s1.mrxs" [] result1 acknowledges))].

Definition four_failures : list label :=
  [Work 0 (Get true); Work 0 (Finish InferenceFails);
   Work 0 (Get true); Listen (delivers (encode order2));
   Work 0 (Finish InferenceFails);
   Work 0 (Get true); Work 0 (Finish InferenceFails);
   Work 0 (Get true); Work 0 (Finish InferenceFails);
   Listen closes_early].

(** Two orders come in; the inference of the first returns, with a
    downstream peer that would refuse the connection. *)
Definition refused_delivery : list label :=
  [Listen (delivers (encode order1)); Listen (delivers (encode order2));
   Work 0 (Get true);
   Work 0 (Finish (InferenceReturns "s1.mrxs" [] result1 refuses));
   Work 0 (Get true)].


(** Two worker threads, had [main] started them, would run inference
    side by side. *)
Definition two_workers_overlap : list label :=
  [Listen (delivers (encode order1)); Listen (delivers (encode order2));
   Work 0 (Get true); Work 1 (Get true)].

(** A downstream peer that takes the result and closes without an
    acknowledgment. *)
Definition hangs_up : peer :=
  {| connect_ok := true; sendall_ok := true; ack_recvs := [RecvBytes []] |}.

(** A peer closes early, and a second one then tries to deliver "ORDER1". *)
Definition after_early_close : list label :=
  [Listen closes_early; Listen (delivers (encode order1))].

(** ** The clean-up of the temporary slides folder *)

(** An entry of the swept directory: whether [is_dir()] holds of it, the
    naive local date and time of its last modification
    ([datetime.fromtimestamp(stat().st_mtime)], in microseconds), and
    whether [shutil.rmtree] gets through on it. *)
Record entry := {
  entry_name : str;
  is_dir : bool;
  mod_time : Z;
  rmtree_ok : bool
}.

(** [timedelta(hours=hrs)], in microseconds. *)
Definition hours (hrs : Z) : Z := (hrs * 3600 * 1000000)%Z.

(** The loop of [remove_slides], lines 38-46, over the entries that
    [iterdir()] lists: what is left of the directory, and how the loop
    ends. *)
Fixpoint sweep (cutoff_time : Z) (entries : list entry) : list entry * completion :=
  match entries with
  | [] => ([], Returned)
  | subfolder :: later =>
      if is_dir subfolder && (mod_time subfolder <? cutoff_time)%Z
      then if rmtree_ok subfolder
           then sweep cutoff_time later
           else (subfolder :: later, Raised)
      else let '(kept, r) := sweep cutoff_time later in (subfolder :: kept, r)
  end.

(** [remove_slides], lines 28-46; [now] is [datetime.now()]. *)
Definition remove_slides (directory : list entry) (now : Z) (hrs : Z)
  : list entry * completion :=
  let cutoff_time := (now - hours hrs)%Z in
  sweep cutoff_time directory.

(** One turn of the loop of [cleanup_worker], lines 58-60: the call
    leaves [hrs] at its default of 3, and [sleep_time] only spaces the
    turns. *)
Definition cleanup_worker (directory : list entry) (sleep_time : Z) (now : Z)
  : list entry * completion :=
  remove_slides directory now 3.

(** ** Message control identifiers *)

(** [str(n)] for an [int] that is not negative. *)
Definition str_of_nat (n : nat) : str :=
  DecimalString.NilZero.string_of_uint (Nat.to_uint n).

(** [generate_msg_ctrl_id], [create_ack_msg.py] lines 17-30 (and
    [create_output_msg.py] lines 22-35); [randint i] is what the [i]-th
    call of [randint(0, 9)] returns. *)
Definition generate_msg_ctrl_id (randint : nat -> nat) (ndigits : nat) : str :=
  let list_digits := map (fun i => str_of_nat (randint i)) (seq 0 ndigits) in
  String.concat "" list_digits.

(** [c.isdigit()] for an ASCII character. *)
Definition is_digit (c : Ascii.ascii) : bool :=
  (48 <=? Ascii.nat_of_ascii c) && (Ascii.nat_of_ascii c <=? 57).

(** ** Reading the order message *)

(** A Python [dict] with [str] keys: the bindings in insertion order,
    each key once. *)
Definition dict (V : Type) : Type := list (str * V).

(** [d[k]]; [None] stands for [KeyError]. *)
Fixpoint dict_get {V} (k : str) (d : dict V) : option V :=
  match d with
  | [] => None
  | (k', v) :: d' => if String.eqb k' k then Some v else dict_get k d'
  end.

(** [d[k] = v]: a key that is bound keeps its place and gets the new
    value, a new key goes to the end. *)
Fixpoint dict_set {V} (k : str) (v : V) (d : dict V) : dict V :=
  match d with
  | [] => [(k, v)]
  | (k', v') :: d' =>
      if String.eqb k' k then (k', v) :: d' else (k', v') :: dict_set k v d'
  end.

(** [list(d.keys())] *)
Definition dict_keys {V} (d : dict V) : list str := map fst d.

(** [sub in s] on [str]: [sub] occurs somewhere in [s]. *)
Fixpoint str_in (sub s : str) : bool :=
  String.prefix sub s ||
  match s with
  | String.EmptyString => false
  | String.String _ s' => str_in sub s'
  end.

(** [l.count(x)] and [x in l] on a list of [str]. *)
Definition count_of (x : str) (l : list str) : nat :=
  length (filter (String.eqb x) l).

Definition str_in_list (x : str) (l : list str) : bool :=
  existsb (String.eqb x) l.

(** Run the list comprehension, stopping at the first element that
    raises. *)
Fixpoint all_some {A} (l : list (option A)) : option (list A) :=
  match l with
  | [] => Some []
  | None :: _ => None
  | Some x :: l' => option_map (cons x) (all_some l')
  end.

(** A segment of the parsed message as [extract_msg_info] reads it: its
    name ([str(segment).split(" ")[1].split(">")[0]]), its value, and for
    each of its children the field name ([str(attribute).split(" ")[1]])
    with the field value. *)
Record segment := {
  seg_name : str;
  seg_value : str;
  seg_children : list (str * str)
}.

(** Lines 60-63: the names that occur more than once.  The code takes
    them through a [set], which fixes no order; [extract_msg_info] and
    [extract_slide_id] ask only membership of the list. *)
Definition dup_segments (str_segments : list str) : list str :=
  nodup String.string_dec
        (filter (fun seg => 1 <? count_of seg str_segments) str_segments).

(** Lines 74-79: the fields of a segment. *)
Definition subset_of (children : list (str * str)) : dict str :=
  fold_left (fun msg_subset attribute =>
               dict_set (fst attribute) (snd attribute) msg_subset)
            children [].

(** Lines 80-88: the key under which a segment is stored. *)
Definition key_of (segment_name : str) (list_dup_segments : list str)
           (msg_input_dict : dict (dict str)) : str :=
  if str_in_list segment_name list_dup_segments
  then let count :=
         length (filter (str_in segment_name) (dict_keys msg_input_dict)) in
       String.append segment_name
                     (String.append "_" (str_of_nat (count + 1)))
  else segment_name.

(** One turn of the loop of lines 70-88. *)
Definition store_segment (list_dup_segments : list str)
           (dicts : dict (dict str) * dict str) (seg : segment)
  : dict (dict str) * dict str :=
  let key := key_of (seg_name seg) list_dup_segments (fst dicts) in
  (dict_set key (subset_of (seg_children seg)) (fst dicts),
   dict_set key (seg_value seg) (snd dicts)).

(** [extract_slide_id], lines 17-37; [path_name st] is
    [Path(rf"{st}").name]. *)
Definition extract_slide_id (path_name : str -> str)
           (msg_input_dict : dict (dict str)) (list_dup_segments : list str)
  : option (list str) :=
  let list_str :=
    if str_in_list "ORC" list_dup_segments
    then let howmany :=
           length (filter (str_in "ORC") (dict_keys msg_input_dict)) in
         all_some
           (map (fun i =>
                   match dict_get (String.append "OBR_" (str_of_nat (i + 1)))
                                  msg_input_dict with
                   | Some obr => dict_get "OBR_13" obr
                   | None => None
                   end)
                (seq 0 howmany))
    else match dict_get "OBR" msg_input_dict with
         | Some obr => option_map (fun st => [st]) (dict_get "OBR_13" obr)
         | None => None
         end in
  option_map (map path_name) list_str.

(** Lines 60-88 of [extract_msg_info]: the two dictionaries built from
    the segments of the parsed message ([msg_input.children]). *)
Definition msg_dicts (children : list segment) : dict (dict str) * dict str :=
  let str_segments := map seg_name children in
  let list_dup_segments := dup_segments str_segments in
  fold_left (store_segment list_dup_segments) children ([], []).

(** [extract_msg_info], lines 40-93, from the segments of the parsed
    message on (parsing and the access to SPM-4.2 are hl7apy's): the
    duplicated names, the two dictionaries and the slide list; [None]
    when [extract_slide_id] raises. *)
Definition extract_msg_info (path_name : str -> str) (children : list segment)
  : option (list str * dict (dict str) * dict str * list str) :=
  let list_dup_segments := dup_segments (map seg_name children) in
  let dicts := msg_dicts children in
  match extract_slide_id path_name (fst dicts) list_dup_segments with
  | Some slide_list => Some (list_dup_segments, fst dicts, snd dicts, slide_list)
  | None => None
  end.

(** ** Auxiliary definitions for the further properties *)

(** The key expected for the occurrence number [c + 1] of the segment
    name [s]: [s] itself when the name occurs once in the message, and
    [s_(c+1)] otherwise. *)
Definition numbered_key (names : list str) (s : str) (c : nat) : str :=
  if 1 <? count_of s names
  then String.append s (String.append "_" (str_of_nat (c + 1)))
  else s.

(** The key expected for a segment named [s] that comes after the names
    [seen] in the message. *)
Definition expected_key (names seen : list str) (s : str) : str :=
  numbered_key names s (count_of s seen).

Fixpoint labelled (names seen : list str) (segs : list segment)
  : list (str * segment) :=
  match segs with
  | [] => []
  | seg :: rest =>
      (expected_key names seen (seg_name seg), seg)
      :: labelled names (seen ++ [seg_name seg]) rest
  end.

(** The two dictionaries with the bindings of labelled segments. *)
Definition fields_of (l : list (str * segment)) : dict (dict str) :=
  map (fun kv => (fst kv, subset_of (seg_children (snd kv)))) l.

Definition values_of (l : list (str * segment)) : dict str :=
  map (fun kv => (fst kv, seg_value (snd kv))) l.

(** No segment name of the message occurs inside another one, nor
    inside a numbered key made from another one: what the count of line
    83 relies on. *)
Definition names_apart (names : list str) : bool :=
  forallb
    (fun s =>
       forallb
         (fun t =>
            String.eqb s t ||
            (negb (str_in s t) &&
             forallb (fun j => negb (str_in s (String.append t
                                       (String.append "_" (str_of_nat j)))))
                     (seq 1 (length names))))
         names)
    names.

(** The OBR segments of a message. *)
Definition is_named (s : str) (seg : segment) : bool := String.eqb s (seg_name seg).

Definition obr_13 (seg : segment) : option str :=
  dict_get "OBR_13" (subset_of (seg_children seg)).

(** A directory last modified before the cut-off. *)
Definition stale (cutoff_time : Z) (e : entry) : bool :=
  is_dir e && (mod_time e <? cutoff_time)%Z.


(** Number of events of a kind in a log. *)
Definition count (f : event -> bool) (evs : list event) : nat :=
  length (filter f evs).

Definition is_dequeued (e : event) : bool :=
  match e with Dequeued _ _ => true | _ => false end.

Definition is_started (e : event) : bool :=
  match e with InferenceStarted _ => true | _ => false end.

Definition is_ended (e : event) : bool :=
  match e with InferenceEnded _ => true | _ => false end.

Definition is_connected (e : event) : bool :=
  match e with Connected => true | _ => false end.

Definition is_sent (e : event) : bool :=
  match e with Sent _ => true | _ => false end.

Definition is_ack_received (e : event) : bool :=
  match e with AckReceived _ => true | _ => false end.

(** The books of a process: what went onto the queue and what came off
    it, the calls of [run_inference] begun and ended, and what became of
    the messages whose inference ended. *)
Definition accounted (s : state) : Prop :=
  count is_enqueued (log s) + count is_requeued (log s)
  = count is_dequeued (log s) + length (Queue.queue (shared s)) /\
  count is_started (log s) = count is_ended (log s) + busy (workers s) /\
  count is_handed_off (log s) + count is_dropped (log s)
  + count is_requeued (log s) <= count is_ended (log s) /\
  count is_started (log s) <= count is_dequeued (log s) /\
  count is_ack_received (log s) <= count is_sent (log s) /\
  count is_sent (log s) <= count is_connected (log s) /\
  count is_connected (log s) <= count is_handed_off (log s).

(** The retry counters that occur in a process. *)
Definition counter_of_event (e : event) : nat :=
  match e with
  | Enqueued _ r | Dequeued _ r | Requeued _ r => r
  | _ => 0
  end.

Definition counter_of_worker (w : wstate) : nat :=
  match w with InInference _ r => r | _ => 0 end.

Definition within_ceiling (cfg : config) (s : state) : Prop :=
  Forall (fun x : item => snd x <= num_retries cfg) (Queue.queue (shared s)) /\
  Forall (fun w => counter_of_worker w <= num_retries cfg) (workers s) /\
  Forall (fun e => counter_of_event e <= num_retries cfg) (log s).

(** Orders enqueued and not yet acknowledged after the events [evs],
    starting from [cur] of them; [None] if an acknowledgment is sent while
    no enqueued order awaits one. *)
Fixpoint unacked (cur : nat) (evs : list event) : option nat :=
  match evs with
  | [] => Some cur
  | Enqueued _ _ :: evs' => unacked (S cur) evs'
  | AckSent _ :: evs' =>
      match cur with
      | O => None
      | S c => unacked c evs'
      end
  | _ :: evs' => unacked cur evs'
  end.

(** The tuple reinserted last and not dequeued since, after the events
    [evs]. *)
Fixpoint last_requeue (pending : option item) (evs : list event) : option item :=
  match evs with
  | [] => pending
  | Requeued m r :: evs' => last_requeue (Some (m, r)) evs'
  | Dequeued _ _ :: evs' => last_requeue None evs'
  | _ :: evs' => last_requeue pending evs'
  end.

(** Every [get] that follows a reinsertion takes the tuple reinserted
    last. *)
Fixpoint served_in_turn (pending : option item) (evs : list event) : Prop :=
  match evs with
  | [] => True
  | Requeued m r :: evs' => served_in_turn (Some (m, r)) evs'
  | Dequeued m r :: evs' =>
      match pending with
      | Some x => x = (m, r)
      | None => True
      end /\ served_in_turn None evs'
  | _ :: evs' => served_in_turn pending evs'
  end.

Definition turn_kept (s : state) : Prop :=
  served_in_turn None (log s) /\
  forall x, last_requeue None (log s) = Some x ->
            hd_error (Queue.queue (shared s)) = Some x.

(** With one worker thread: a tuple is reinserted only while none awaits
    its [get], and the [get] that follows takes it. *)
Fixpoint served_first (pending : option item) (evs : list event) : Prop :=
  match evs with
  | [] => True
  | Requeued m r :: evs' => pending = None /\ served_first (Some (m, r)) evs'
  | Dequeued m r :: evs' =>
      match pending with
      | Some x => x = (m, r)
      | None => True
      end /\ served_first None evs'
  | _ :: evs' => served_first pending evs'
  end.


(** The listener's record of orders and acknowledgments: no order awaits
    its acknowledgment while the listener is in [accept] or in a read
    loop, one does between the [put] and the [send]. *)
Definition acknowledged (s : state) : Prop :=
  exists k,
    unacked 0 (log s) = Some k /\
    k <= 1 /\
    (listener s = Accepting \/ listener s = ListenerStuck -> k = 0) /\
    (forall ack_out ok, listener s = Replying ack_out ok -> k = 1).

(** A connection whose second [recv] raises. *)
Definition breaks_on_recv : connection :=
  {| recvs := [RecvBytes [x0b; x4f]; RecvRaises]; send_ok := true |}.

(** A temporary slides folder: a slide analysed five hours ago, one
    analysed an hour ago, and a plain file as old as the first.  Times
    are in microseconds, [noon] is the time of the sweep. *)
Definition noon : Z := hours 12.

Definition tmp_slides : list entry :=
  [ {| entry_name := "slide_A"; is_dir := true; mod_time := hours 7;
       rmtree_ok := true |};
    {| entry_name := "slide_B"; is_dir := true; mod_time := hours 11;
       rmtree_ok := true |};
    {| entry_name := "notes.txt"; is_dir := false; mod_time := hours 7;
       rmtree_ok := true |} ].

(** An order for two slides: two ORC and two OBR segments, OBR-13 naming
    the slide file; and an order with two ORC segments and one OBR. *)
Definition seg (name value : str) (children : list (str * str)) : segment :=
  {| seg_name := name; seg_value := value; seg_children := children |}.

Definition two_slide_order : list segment :=
  [ seg "MSH" "MSH|..." [("MSH_9", "OML^O33"); ("MSH_10", "42")];
    seg "PID" "PID|..." [("PID_3", "P1")];
    seg "ORC" "ORC|1" [("ORC_1", "NW")];
    seg "OBR" "OBR|1" [("OBR_2", "B1"); ("OBR_13", "archive/s1.mrxs")];
    seg "ORC" "ORC|2" [("ORC_1", "NW")];
    seg "OBR" "OBR|2" [("OBR_2", "B2"); ("OBR_13", "archive/s2.mrxs")];
    seg "SPM" "SPM|..." [("SPM_4", "x^model")] ].

Definition lopsided_order : list segment :=
  [ seg "MSH" "MSH|..." [("MSH_9", "OML^O33")];
    seg "ORC" "ORC|1" [("ORC_1", "NW")];
    seg "OBR" "OBR|1" [("OBR_13", "archive/s1.mrxs")];
    seg "ORC" "ORC|2" [("ORC_1", "NW")] ].

(** The order for two slides with a third OBR segment at its end, and an
    order with one ORC segment for two OBR segments. *)
Definition surplus_obr_order : list segment :=
  two_slide_order
  ++ [ seg "OBR" "OBR|3" [("OBR_2", "B3"); ("OBR_13", "archive/s3.mrxs")] ].

Definition shared_orc_order : list segment :=
  [ seg "MSH" "MSH|..." [("MSH_9", "OML^O33")];
    seg "ORC" "ORC|1" [("ORC_1", "NW")];
    seg "OBR" "OBR|1" [("OBR_13", "archive/s1.mrxs")];
    seg "OBR" "OBR|2" [("OBR_13", "archive/s2.mrxs")] ].

(** [Path(st).name] for POSIX paths without a trailing slash: what
    follows the last slash. *)
Fixpoint posix_name (st : str) : str :=
  match st with
  | String.EmptyString => String.EmptyString
  | String.String c rest =>
      if str_in "/" rest then posix_name rest
      else if String.eqb (String.String c String.EmptyString) "/" then rest
           else st
  end.

Definition single_order : list segment :=
  [ seg "MSH" "MSH|..." [("MSH_9", "OML^O33")];
    seg "ORC" "ORC|1" [("ORC_1", "NW")];
    seg "OBR" "OBR|1" [("OBR_13", "archive/s1.mrxs")] ].

(* ===================================================================== *)
(** * Properties *)
(* ===================================================================== *)

(** ** Byte strings *)

Lemma byte_eqb_refl (b : byte) : Byte.eqb b b = true.
Proof. now apply Byte.byte_dec_lb. Qed.

Lemma byte_eqb_eq (a b : byte) : Byte.eqb a b = true <-> a = b.
Proof. split; [apply Byte.byte_dec_bl | apply Byte.byte_dec_lb]. Qed.

Lemma byte_eqb_neq (a b : byte) : Byte.eqb a b = false <-> a <> b.
Proof.
  split.
  - apply Byte.eqb_false.
  - intros Hne. destruct (Byte.eqb a b) eqn:E; [|reflexivity].
    apply byte_eqb_eq in E. contradiction.
Qed.

Lemma startswith_spec (s prefix : bytes) :
  startswith s prefix = true <-> exists t, s = prefix ++ t.
Proof.
  revert s. induction prefix as [|p prefix IH]; intros s.
  - split; [intros _; now exists s | reflexivity].
  - destruct s as [|c s]; simpl.
    + split; [discriminate | intros [t Ht]; discriminate].
    + rewrite andb_true_iff, byte_eqb_eq, IH. split.
      * intros [-> [t ->]]. now exists t.
      * intros [t Ht]. injection Ht as -> ->. split; [reflexivity | now exists t].
Qed.

Lemma startswith_app (prefix t : bytes) : startswith (prefix ++ t) prefix = true.
Proof. apply startswith_spec. now exists t. Qed.

Lemma endswith_spec (s suffix : bytes) :
  endswith s suffix = true <-> exists t, s = t ++ suffix.
Proof.
  unfold endswith. rewrite startswith_spec. split.
  - intros [t Ht]. exists (rev t).
    rewrite <- (rev_involutive s), Ht, rev_app_distr, rev_involutive. reflexivity.
  - intros [t ->]. exists (rev t). apply rev_app_distr.
Qed.

(** [find] in terms of [index_of]. *)
Lemma find_from_index_of (s sub : bytes) (i : Z) :
  find_from s sub i =
  match index_of s sub with
  | Some n => (i + Z.of_nat n)%Z
  | None => (-1)%Z
  end.
Proof.
  revert i. induction s as [|c s IH]; intros i; cbn [find_from index_of].
  - destruct (startswith [] sub); cbn; [lia | reflexivity].
  - destruct (startswith (c :: s) sub); [cbn; lia|].
    rewrite IH. destruct (index_of s sub); cbn [option_map]; [lia | reflexivity].
Qed.

Lemma find_index_of (s sub : bytes) :
  find s sub = match index_of s sub with
               | Some n => Z.of_nat n
               | None => (-1)%Z
               end.
Proof.
  unfold find. rewrite find_from_index_of. now destruct (index_of s sub).
Qed.

Lemma contains_false_index_of (s sub : bytes) :
  contains s sub = false <-> index_of s sub = None.
Proof.
  unfold contains. rewrite find_index_of.
  destruct (index_of s sub) as [n|].
  - split; [|discriminate]. intros Hlt. apply Z.leb_gt in Hlt. lia.
  - split; reflexivity.
Qed.

Lemma contains_true_index_of (s sub : bytes) :
  contains s sub = true <-> exists n, index_of s sub = Some n.
Proof.
  destruct (contains s sub) eqn:E.
  - split; [intros _ | reflexivity].
    destruct (index_of s sub) as [n|] eqn:En; [now exists n|].
    apply contains_false_index_of in En. congruence.
  - apply contains_false_index_of in E. rewrite E.
    split; [discriminate | intros [n Hn]; discriminate].
Qed.

(** [index_of] finds an occurrence, and the leftmost one. *)
Lemma index_of_Some (s sub : bytes) (n : nat) :
  index_of s sub = Some n ->
  exists a b, s = a ++ sub ++ b /\ length a = n /\
              forall a' b', s = a' ++ sub ++ b' -> n <= length a'.
Proof.
  revert n. induction s as [|c s IH]; intros n; cbn [index_of].
  - destruct (startswith [] sub) eqn:E; [|discriminate].
    intros [= <-]. apply startswith_spec in E as [t Ht].
    exists [], t. repeat split; [exact Ht | intros; lia].
  - destruct (startswith (c :: s) sub) eqn:E.
    + intros [= <-]. apply startswith_spec in E as [t Ht].
      exists [], t. repeat split; [exact Ht | intros; lia].
    + destruct (index_of s sub) as [m|]; [|discriminate].
      intros [= <-]. destruct (IH m eq_refl) as (a & b & -> & Hlen & Hmin).
      exists (c :: a), b. repeat split; [simpl; lia|].
      intros [|c' a'] b' Heq.
      * simpl in Heq. rewrite Heq, startswith_app in E. discriminate.
      * simpl in Heq. injection Heq as _ Heq. apply Hmin in Heq. simpl. lia.
Qed.

Lemma index_of_None (s sub : bytes) :
  index_of s sub = None -> forall a b, s <> a ++ sub ++ b.
Proof.
  induction s as [|c s IH]; cbn [index_of].
  - destruct (startswith [] sub) eqn:E; [discriminate|].
    intros _ a b Heq. destruct a as [|x a]; [|discriminate].
    simpl in Heq. rewrite Heq, startswith_app in E. discriminate.
  - destruct (startswith (c :: s) sub) eqn:E; [discriminate|].
    destruct (index_of s sub) as [m|]; [discriminate|].
    intros _ [|x a] b Heq.
    + simpl in Heq. rewrite Heq, startswith_app in E. discriminate.
    + simpl in Heq. injection Heq as _ Heq. now apply (IH eq_refl a b).
Qed.

(** [sub in s] means that [s] splits around an occurrence of [sub]. *)
Lemma contains_spec (s sub : bytes) :
  contains s sub = true <-> exists a b, s = a ++ sub ++ b.
Proof.
  split.
  - intros Hc. apply contains_true_index_of in Hc as [n Hn].
    apply index_of_Some in Hn as (a & b & Hs & _). now exists a, b.
  - intros (a & b & Hs). destruct (contains s sub) eqn:E; [reflexivity|].
    apply contains_false_index_of in E. now apply index_of_None with (a := a) (b := b) in E.
Qed.

(** ** Slices *)

Lemma slice_middle (a b c : bytes) :
  slice (a ++ b ++ c) (Z.of_nat (length a)) (Z.of_nat (length a + length b)) = b.
Proof.
  unfold slice, adjust_index. rewrite !length_app.
  destruct (Z.ltb_spec (Z.of_nat (length a)) 0) as [Hneg|_]; [lia|].
  destruct (Z.ltb_spec (Z.of_nat (length a + length b)) 0) as [Hneg|_]; [lia|].
  rewrite !Z.min_l by lia.
  replace (Z.to_nat (Z.of_nat (length a + length b) - Z.of_nat (length a)))
    with (length b) by lia.
  rewrite Nat2Z.id, skipn_app, skipn_all, Nat.sub_diag. simpl.
  rewrite firstn_app, firstn_all, Nat.sub_diag. simpl. apply app_nil_r.
Qed.

(** ** Where the markers are found *)

Lemma index_of_header_first (g rest : bytes) :
  index_of g header = None ->
  index_of (g ++ header ++ rest) header = Some (length g).
Proof.
  induction g as [|c g IH]; cbn [index_of app length].
  - reflexivity.
  - unfold header in *. cbn [startswith].
    destruct (Byte.eqb c x0b); cbn [andb]; [discriminate|].
    destruct (index_of g [x0b]); [discriminate|].
    intros _. now rewrite IH.
Qed.

Lemma index_of_footer_first (p rest : bytes) :
  index_of p footer = None ->
  index_of (p ++ footer ++ rest) footer = Some (length p).
Proof.
  induction p as [|c p IH]; cbn [index_of app length].
  - reflexivity.
  - unfold footer in *. cbn [startswith].
    destruct (index_of p [x1c; x0d]) as [n|]; [now destruct (_ && _)|].
    intros Hhead. rewrite IH by reflexivity. cbn [option_map].
    destruct (Byte.eqb c x1c); cbn [andb] in *; [|reflexivity].
    destruct p as [|d p]; [reflexivity|].
    cbn [app] in *. now destruct (Byte.eqb d x0d).
Qed.

Lemma index_of_footer_app_None (a b : bytes) (c : byte) :
  index_of a footer = None ->
  index_of (c :: b) footer = None ->
  c <> x0d ->
  index_of (a ++ c :: b) footer = None.
Proof.
  intros Ha Hb Hc. induction a as [|x a IH]; [exact Hb|].
  cbn [index_of app] in *. unfold footer in *. cbn [startswith] in *.
  destruct (index_of a [x1c; x0d]) as [n|]; [now destruct (_ && _)|].
  rewrite IH by reflexivity. cbn [option_map].
  destruct (Byte.eqb x x1c); cbn [andb] in *; [|reflexivity].
  destruct a as [|d a]; cbn [app] in *.
  - apply byte_eqb_neq in Hc. now rewrite Hc.
  - now destruct (Byte.eqb d x0d).
Qed.

Lemma index_of_footer_header_cons (p : bytes) :
  index_of p footer = None -> index_of (x0b :: p) footer = None.
Proof.
  intros Hp. cbn [index_of]. unfold footer in *. cbn [startswith].
  replace (Byte.eqb x0b x1c) with false by reflexivity.
  cbn [andb]. now rewrite Hp.
Qed.

(** ** Stripping a frame *)

(** A frame that follows a prefix free of both markers is found behind
    it, when the payload does not hold the end marker either. *)
Lemma strip_frame_after_prefix (g p : bytes) :
  contains g header = false ->
  contains g footer = false ->
  contains p footer = false ->
  strip_mllp_framing (g ++ encode p) = p.
Proof.
  rewrite !contains_false_index_of. intros Hgh Hgf Hpf.
  unfold strip_mllp_framing, encode. rewrite !find_index_of.
  rewrite (index_of_header_first g (p ++ footer) Hgh).
  assert (index_of (g ++ header ++ p ++ footer) footer
          = Some (length g + 1 + length p)) as ->.
  { replace (g ++ header ++ p ++ footer)
      with ((g ++ x0b :: p) ++ footer ++ [])
      by (rewrite app_nil_r, <- app_assoc; reflexivity).
    rewrite index_of_footer_first.
    - rewrite length_app. cbn [length]. f_equal. lia.
    - apply index_of_footer_app_None;
        [exact Hgf | now apply index_of_footer_header_cons | discriminate]. }
  replace (g ++ header ++ p ++ footer) with ((g ++ header) ++ p ++ footer)
    by (now rewrite <- app_assoc).
  replace (Z.of_nat (length g) + 1)%Z with (Z.of_nat (length (g ++ header)))
    by (rewrite length_app; cbn [header length]; lia).
  replace (length g + 1 + length p) with (length (g ++ header) + length p)
    by (rewrite length_app; cbn [header length]; lia).
  apply slice_middle.
Qed.

(** The leftmost occurrence leaves no occurrence before it. *)
Lemma index_of_prefix_free (a b sub : bytes) :
  index_of (a ++ sub ++ b) sub = Some (length a) ->
  sub <> [] ->
  index_of a sub = None.
Proof.
  intros Hidx Hsub. destruct (index_of a sub) as [m|] eqn:Ha; [|reflexivity].
  exfalso. apply index_of_Some in Ha as (a1 & a2 & -> & _ & _).
  apply index_of_Some in Hidx as (_ & _ & _ & _ & Hmin).
  specialize (Hmin a1 (a2 ++ sub ++ b)).
  rewrite <- !app_assoc in Hmin. specialize (Hmin eq_refl).
  rewrite !length_app in Hmin.
  destruct sub; [contradiction | cbn [length] in Hmin; lia].
Qed.

(** A payload that holds the end marker does not survive the round trip:
    the condition of [strip_frame_after_prefix] on the payload cannot be
    dropped. *)
Lemma strip_encode_truncates (p : bytes) :
  contains p footer = true ->
  exists a b, p = a ++ footer ++ b /\ strip_mllp_framing (encode p) = a.
Proof.
  intros Hc. apply contains_true_index_of in Hc as [n Hn].
  pose proof (index_of_Some _ _ _ Hn) as (a & b & -> & <- & _).
  exists a, b. split; [reflexivity|].
  apply index_of_prefix_free in Hn; [|discriminate].
  unfold strip_mllp_framing, encode. rewrite !find_index_of.
  assert (index_of (header ++ (a ++ footer ++ b) ++ footer) footer
          = Some (1 + length a)) as ->.
  { replace (header ++ (a ++ footer ++ b) ++ footer)
      with ((x0b :: a) ++ footer ++ (b ++ footer))
      by (cbn [header app]; now rewrite <- !app_assoc).
    apply index_of_footer_first. now apply index_of_footer_header_cons. }
  replace (index_of (header ++ (a ++ footer ++ b) ++ footer) header)
    with (Some 0) by reflexivity.
  replace (header ++ (a ++ footer ++ b) ++ footer)
    with (header ++ a ++ (footer ++ b ++ footer))
    by (now rewrite <- !app_assoc).
  apply (slice_middle header a).
Qed.

(** C1 (amended).  For every payload [p] that does not contain the end
    sequence 0x1C 0x0D, stripping the MLLP framing from the byte stream
    obtained by prepending the start byte 0x0B and appending the end
    sequence returns exactly [p]. *)
Theorem strip_encode_roundtrip (p : bytes) :
  contains p footer = false ->
  strip_mllp_framing (x0b :: p ++ [x1c; x0d]) = p.
Proof.
  intros Hp. apply (strip_frame_after_prefix [] p); [reflexivity | reflexivity | exact Hp].
Qed.

Lemma strip_encode_roundtrip_witness :
  contains [x4f; x52; x44; x45; x52; x31] footer = false /\
  strip_mllp_framing (x0b :: [x4f; x52; x44; x45; x52; x31] ++ [x1c; x0d])
  = [x4f; x52; x44; x45; x52; x31].
Proof.
  split; [reflexivity|]. apply strip_encode_roundtrip. reflexivity.
Defined.

(** C1 as the specification words it fails: the payload 0x1C 0x0D, framed,
    is stripped to the empty byte string. *)
Lemma strip_encode_roundtrip_counterexample :
  strip_mllp_framing (encode [x1c; x0d]) <> [x1c; x0d].
Proof. vm_compute. discriminate. Qed.

(** C8 (amended).  For every byte stream made of garbage bytes that hold
    neither the start byte 0x0B nor the end sequence 0x1C 0x0D, followed
    by a frame (start byte, a payload [p] without the end sequence, end
    sequence), the decoder drops the garbage and returns [p]. *)
Theorem strip_discards_garbage (garbage p : bytes) :
  contains garbage header = false ->
  contains garbage footer = false ->
  contains p footer = false ->
  strip_mllp_framing (garbage ++ x0b :: p ++ [x1c; x0d]) = p.
Proof.
  intros Hgh Hgf Hp. now apply (strip_frame_after_prefix garbage p).
Qed.

Lemma strip_discards_garbage_witness :
  contains [x00; xff; x1c; x0a] header = false /\
  contains [x00; xff; x1c; x0a] footer = false /\
  contains [x4f; x4b] footer = false /\
  strip_mllp_framing ([x00; xff; x1c; x0a] ++ x0b :: [x4f; x4b] ++ [x1c; x0d])
  = [x4f; x4b].
Proof.
  repeat (split; [reflexivity|]).
  apply strip_discards_garbage; reflexivity.
Defined.

(** C8 as the specification words it fails: a garbage byte that happens to
    be the start byte is kept, together with the real start byte, in front
    of the payload. *)
Lemma strip_discards_garbage_counterexample :
  strip_mllp_framing ([x0b] ++ x0b :: [x41] ++ [x1c; x0d]) <> [x41].
Proof. vm_compute. discriminate. Qed.

(** C10.  [strip_mllp_framing] is a total function, and on a buffer that
    holds the end sequence 0x1C 0x0D but no start byte 0x0B it returns the
    bytes from position 0 up to, and without, the first end sequence. *)
Theorem strip_missing_header (bs : bytes) :
  contains bs header = false ->
  contains bs footer = true ->
  exists rest,
    bs = strip_mllp_framing bs ++ footer ++ rest /\
    forall a b, bs = a ++ footer ++ b ->
                length (strip_mllp_framing bs) <= length a.
Proof.
  intros Hh Hf. apply contains_false_index_of in Hh.
  apply contains_true_index_of in Hf as [n Hn].
  unfold strip_mllp_framing. rewrite !find_index_of, Hh, Hn.
  apply index_of_Some in Hn as (a & b & -> & <- & Hmin).
  change (-1 + 1)%Z with (Z.of_nat 0).
  rewrite (slice_middle [] a (footer ++ b)
           : slice (a ++ footer ++ b) (Z.of_nat 0) (Z.of_nat (length a)) = a).
  exists b. split; [reflexivity | exact Hmin].
Qed.

Lemma strip_missing_header_witness :
  contains [x41; x42; x1c; x0d; x43; x1c; x0d] header = false /\
  contains [x41; x42; x1c; x0d; x43; x1c; x0d] footer = true /\
  exists rest,
    [x41; x42; x1c; x0d; x43; x1c; x0d]
    = strip_mllp_framing [x41; x42; x1c; x0d; x43; x1c; x0d] ++ footer ++ rest /\
    forall a b, [x41; x42; x1c; x0d; x43; x1c; x0d] = a ++ footer ++ b ->
                length (strip_mllp_framing [x41; x42; x1c; x0d; x43; x1c; x0d])
                <= length a.
Proof.
  split; [reflexivity|]. split; [reflexivity|].
  apply strip_missing_header; reflexivity.
Defined.

Example strip_up_to_first_footer :
  strip_mllp_framing [x41; x42; x1c; x0d; x43; x1c; x0d] = [x41; x42].
Proof. reflexivity. Qed.

(** ** The read loop *)

Lemma still_reading_no_footer (rs : list recv_result) (buf buf' : bytes) :
  recv_until_footer buf rs = StillReading buf' -> endswith buf' footer = false.
Proof.
  revert buf. induction rs as [|r rs IH]; intros buf; cbn [recv_until_footer].
  - destruct (endswith buf footer) eqn:E; [discriminate|]. now intros [= <-].
  - destruct (endswith buf footer); [discriminate|].
    destruct r as [chunk|]; [apply IH | discriminate].
Qed.

Lemma recv_until_footer_app (rs rs' : list recv_result) (buf buf' : bytes) :
  recv_until_footer buf rs = StillReading buf' ->
  recv_until_footer buf (rs ++ rs') = recv_until_footer buf' rs'.
Proof.
  revert buf. induction rs as [|r rs IH]; intros buf; cbn [recv_until_footer app].
  - destruct (endswith buf footer) eqn:E; [discriminate|]. now intros [= <-].
  - destruct (endswith buf footer); [discriminate|].
    destruct r as [chunk|]; [apply IH | discriminate].
Qed.

(** Once the peer has closed, [recv] returns the empty byte string, the
    buffer stays as it is, and the loop goes round again. *)
Lemma recv_until_footer_closed (buf : bytes) (n : nat) :
  endswith buf footer = false ->
  recv_until_footer buf (repeat (RecvBytes []) n) = StillReading buf.
Proof.
  intros E. induction n as [|n IH]; cbn [repeat recv_until_footer]; rewrite E.
  - reflexivity.
  - now rewrite app_nil_r.
Qed.

Lemma recv_until_footer_after_close (rs : list recv_result) (buf : bytes) (n : nat) :
  recv_until_footer [] rs = StillReading buf ->
  recv_until_footer [] (rs ++ repeat (RecvBytes []) n) = StillReading buf.
Proof.
  intros Hrs. rewrite (recv_until_footer_app _ _ _ _ Hrs).
  apply recv_until_footer_closed. now apply still_reading_no_footer in Hrs.
Qed.

(** However the frame is cut into chunks, the loop hands over the whole
    of it, provided the end marker occurs at its end only. *)
Lemma recv_until_footer_chunks (chunks : list bytes) (buf frame : bytes) :
  buf ++ concat chunks = frame ->
  endswith frame footer = true ->
  (forall a b, frame = a ++ footer ++ b -> b = []) ->
  recv_until_footer buf (map RecvBytes chunks) = Complete frame.
Proof.
  intros Hcat Hend Honly. revert buf Hcat.
  induction chunks as [|c chunks IH]; intros buf Hcat;
    cbn [map recv_until_footer concat] in *.
  - rewrite app_nil_r in Hcat. subst buf. now rewrite Hend.
  - destruct (endswith buf footer) eqn:E.
    + apply endswith_spec in E as [t ->].
      rewrite <- app_assoc in Hcat.
      pose proof (Honly _ _ (eq_sym Hcat)) as Hnil.
      rewrite Hnil, app_nil_r in Hcat. now subst frame.
    + apply IH. now rewrite <- app_assoc.
Qed.

(** [decode_stream (as_stream (encode p))]: the read loop followed by
    [strip_mllp_framing], on any segmentation of the framed payload. *)
Lemma decode_stream_roundtrip (chunks : list bytes) (p : bytes) :
  concat chunks = encode p ->
  contains p footer = false ->
  exists frame,
    recv_until_footer [] (map RecvBytes chunks) = Complete frame /\
    strip_mllp_framing frame = p.
Proof.
  intros Hcat Hp. exists (encode p). split.
  - apply recv_until_footer_chunks.
    + exact Hcat.
    + apply endswith_spec. exists (header ++ p). unfold encode.
      now rewrite <- app_assoc.
    + intros a b Heq.
      assert (index_of (encode p) footer = Some (length (x0b :: p))) as Hidx.
      { replace (encode p) with ((x0b :: p) ++ footer ++ [])
          by (now rewrite app_nil_r).
        apply index_of_footer_first, index_of_footer_header_cons.
        now apply contains_false_index_of. }
      apply index_of_Some in Hidx as (_ & _ & _ & _ & Hmin).
      pose proof (Hmin a b Heq) as Hle.
      apply (f_equal (@length byte)) in Heq.
      unfold encode in Heq. rewrite !length_app in Heq.
      cbn [header footer length] in *. destruct b; [reflexivity|].
      cbn [length] in Heq. lia.
  - apply (strip_frame_after_prefix [] p); [reflexivity | reflexivity | exact Hp].
Qed.

(** ** Who writes which events *)

Lemma listener_events_app (l1 l2 : list event) :
  listener_events (l1 ++ l2) = listener_events l1 ++ listener_events l2.
Proof. apply filter_app. Qed.

Lemma worker_events_app (l1 l2 : list event) :
  worker_events (l1 ++ l2) = worker_events l1 ++ worker_events l2.
Proof. apply filter_app. Qed.

Lemma start_client_events (lis : peer) (msg : bytes) :
  listener_events (fst (start_client lis msg)) = [].
Proof.
  unfold start_client.
  destruct (connect_ok lis); [|reflexivity].
  destruct (sendall_ok lis); [|reflexivity].
  cbn [negb]. now destruct (recv_until_footer [] (ack_recvs lis)).
Qed.

Lemma msg_worker_events (cfg : config) (a : action) (w : wstate) (q : Queue.t) :
  listener_events (snd (msg_worker cfg a w q)) = [].
Proof.
  unfold msg_worker.
  destruct w as [|msg retry| |], a as [ok|p]; try reflexivity.
  - destruct (Queue.get q) as [[[m r] q']|]; [|reflexivity]. now destruct ok.
  - destruct p as [|slide others out lis].
    + destruct (retry <? num_retries cfg); [reflexivity|].
      now destruct (Queue.task_done q).
    + reflexivity.
Qed.

(** ** The inbound listener *)

Section ListenerFacts.

Context `{Collaborators}.

(** Case analysis along the body of [serve_connection]: the exchange goes
    through, [send] raises, [create_message] raises, [decode] raises,
    [recv] raises, or the read loop does not end. *)
Ltac session_cases c :=
  unfold serve_connection;
  destruct (recv_until_footer [] (recvs c)) as [?input_msg| |?buf];
  [ destruct (decode_utf8 _) as [?m|];
    [ destruct (create_message _) as [?ack|]; [destruct (send_ok c)|] |]
  | | ].

Lemma serve_connection_events (c : connection) (q : Queue.t) :
  worker_events (snd (fst (serve_connection c q))) = [].
Proof. session_cases c; reflexivity. Qed.

(** What a turn of the accept loop does to the queue: at most one [put],
    logged as such. *)
Lemma serve_connection_appends (c : connection) (q q' : Queue.t)
      (evs : list event) (res : completion) :
  serve_connection c q = (q', evs, res) ->
  exists arr,
    Queue.queue q' = Queue.queue q ++ arr /\
    Forall fresh arr /\
    Queue.unfinished_tasks q' = Queue.unfinished_tasks q + length arr /\
    first_dequeues evs = [] /\
    enqueued evs = map fst arr.
Proof.
  session_cases c; intros [= <- <- <-];
    [exists [(m, 0)] | exists [(m, 0)] | exists [] ..];
    rewrite ?app_nil_r; cbn; repeat split; try lia; now repeat constructor.
Qed.

(** A connection whose read loop does not come to an end leaves the
    queue alone and is never answered. *)
Lemma serve_connection_still_reading (c : connection) (q : Queue.t) (buf : bytes) :
  recv_until_footer [] (recvs c) = StillReading buf ->
  serve_connection c q = (q, [Accepted], NeverReturns).
Proof. intros Hr. unfold serve_connection. now rewrite Hr. Qed.

(** An exception in [recv] leaves [store_msg_produce_ack]. *)
Lemma serve_connection_recv_raised (c : connection) (q : Queue.t) :
  recv_until_footer [] (recvs c) = RecvRaised ->
  serve_connection c q = (q, [Accepted], Raised).
Proof. intros Hr. unfold serve_connection. now rewrite Hr. Qed.

(** The two parts of the turn, taken one at a time. *)
Ltac receive_cases c :=
  unfold receive_order;
  destruct (recv_until_footer [] (recvs c)) as [?input_msg| |?buf];
  [ destruct (decode_utf8 _) as [?m|];
    [ destruct (create_message _) as [?ack|] |]
  | | ].

Lemma receive_order_events (c : connection) (q : Queue.t) :
  worker_events (snd (fst (receive_order c q))) = [].
Proof. receive_cases c; reflexivity. Qed.

Lemma receive_order_appends (c : connection) (q q' : Queue.t)
      (evs : list event) (l : lstate) :
  receive_order c q = (q', evs, l) ->
  exists arr,
    Queue.queue q' = Queue.queue q ++ arr /\
    Forall fresh arr /\
    Queue.unfinished_tasks q' = Queue.unfinished_tasks q + length arr /\
    first_dequeues evs = [] /\
    enqueued evs = map fst arr.
Proof.
  receive_cases c; intros [= <- <- <-];
    [exists [(m, 0)] | exists [] ..];
    rewrite ?app_nil_r; cbn; repeat split; try lia; now repeat constructor.
Qed.

Lemma serve_connection_counters (c : connection) (q : Queue.t) :
  Forall (fun e => counter_of_event e = 0) (snd (fst (serve_connection c q))).
Proof. session_cases c; now repeat constructor. Qed.

Lemma receive_order_counters (c : connection) (q : Queue.t) :
  Forall (fun e => counter_of_event e = 0) (snd (fst (receive_order c q))).
Proof. receive_cases c; now repeat constructor. Qed.

Lemma send_ack_events (ack_out : bytes) (ok : bool) :
  worker_events (fst (send_ack ack_out ok)) = [] /\
  filter is_inference_mark (fst (send_ack ack_out ok)) = [] /\
  first_dequeues (fst (send_ack ack_out ok)) = [] /\
  enqueued (fst (send_ack ack_out ok)) = [].
Proof. destruct ok; now repeat split. Qed.

(** C7 (amended).  On every successful inbound exchange the decoded
    payload is put on the work queue (with retry counter 0) first, the
    framed acknowledgment is written back on the connection after that,
    and the connection is closed last. *)
Theorem enqueue_before_ack (c : connection) (q q' : Queue.t) (evs : list event) :
  serve_connection c q = (q', evs, Returned) ->
  exists input_msg hl7_msg_decoded ack_msg,
    recv_until_footer [] (recvs c) = Complete input_msg /\
    decode_utf8 (strip_mllp_framing input_msg) = Some hl7_msg_decoded /\
    create_message hl7_msg_decoded = Some ack_msg /\
    q' = Queue.put (hl7_msg_decoded, 0) q /\
    evs = [Accepted; Enqueued hl7_msg_decoded 0;
           AckSent (to_mllp ack_msg); ConnectionClosed] /\
    precedes is_enqueued is_ack_sent evs = true /\
    precedes is_ack_sent is_enqueued evs = false.
Proof.
  unfold serve_connection.
  destruct (recv_until_footer [] (recvs c)) as [input_msg| |buf];
    [|discriminate..].
  destruct (decode_utf8 _) as [m|] eqn:Hm; [|discriminate].
  destruct (create_message m) as [ack|] eqn:Hack; [|discriminate].
  destruct (send_ok c); [|discriminate].
  intros [= <- <-]. exists input_msg, m, ack. now repeat split.
Qed.

End ListenerFacts.

Lemma enqueue_before_ack_witness :
  @serve_connection demo (delivers (encode order1)) Queue.empty
  = (Queue.put ("ORDER1", 0) Queue.empty,
     [Accepted; Enqueued "ORDER1" 0;
      AckSent (encode [x41; x43; x4b; x4f; x52; x44; x45; x52; x31]);
      ConnectionClosed],
     Returned) /\
  exists input_msg hl7_msg_decoded ack_msg,
    recv_until_footer [] (recvs (delivers (encode order1))) = Complete input_msg /\
    @decode_utf8 demo (strip_mllp_framing input_msg) = Some hl7_msg_decoded /\
    @create_message demo hl7_msg_decoded = Some ack_msg /\
    Queue.put ("ORDER1", 0) Queue.empty
    = Queue.put (hl7_msg_decoded, 0) Queue.empty /\
    [Accepted; Enqueued "ORDER1" 0;
     AckSent (encode [x41; x43; x4b; x4f; x52; x44; x45; x52; x31]);
     ConnectionClosed]
    = [Accepted; Enqueued hl7_msg_decoded 0;
       AckSent (@to_mllp demo ack_msg); ConnectionClosed] /\
    precedes is_enqueued is_ack_sent
      [Accepted; Enqueued "ORDER1" 0;
       AckSent (encode [x41; x43; x4b; x4f; x52; x44; x45; x52; x31]);
       ConnectionClosed] = true /\
    precedes is_ack_sent is_enqueued
      [Accepted; Enqueued "ORDER1" 0;
       AckSent (encode [x41; x43; x4b; x4f; x52; x44; x45; x52; x31]);
       ConnectionClosed] = false.
Proof.
  split; [reflexivity|].
  apply (@enqueue_before_ack demo (delivers (encode order1)) Queue.empty).
  reflexivity.
Defined.

(** C7 as the specification words it fails: in the exchange that delivers
    "ORDER1" the acknowledgment is not written before the payload is
    enqueued. *)
Lemma enqueue_before_ack_counterexample :
  precedes is_ack_sent is_enqueued
    (snd (fst (@serve_connection demo (delivers (encode order1)) Queue.empty)))
  <> true.
Proof. vm_compute. discriminate. Qed.

(** ** Schedules *)

Lemma filter_cons_split {A} (f : A -> bool) (l : list A) (x : A) (xs : list A) :
  filter f l = x :: xs ->
  exists pre post, l = pre ++ x :: post /\ filter f pre = [] /\ filter f post = xs.
Proof.
  induction l as [|a l IH]; cbn [filter]; [discriminate|].
  destruct (f a) eqn:Ha.
  - intros [= -> <-]. exists [], l. now repeat split.
  - intros Hl. destruct (IH Hl) as (pre & post & -> & Hpre & Hpost).
    exists (a :: pre), post. cbn [filter app]. rewrite Ha. now repeat split.
Qed.

Lemma filter_app_split {A} (f : A -> bool) (l xs ys : list A) :
  filter f l = xs ++ ys ->
  exists l1 l2, l = l1 ++ l2 /\ filter f l1 = xs /\ filter f l2 = ys.
Proof.
  revert xs. induction l as [|a l IH]; intros xs; cbn [filter].
  - intros Hnil. symmetry in Hnil. apply app_eq_nil in Hnil as [-> ->].
    exists [], []. now repeat split.
  - destruct (f a) eqn:Ha.
    + destruct xs as [|x xs]; cbn [app].
      * intros Hys. exists [], (a :: l). cbn [filter app]. rewrite Ha. now repeat split.
      * intros [= -> Hl]. destruct (IH xs Hl) as (l1 & l2 & -> & H1 & H2).
        exists (x :: l1), l2. cbn [filter app]. rewrite Ha, H1. now repeat split.
    + intros Hl. destruct (IH xs Hl) as (l1 & l2 & -> & H1 & H2).
      exists (a :: l1), l2. cbn [filter app]. rewrite Ha. now repeat split.
Qed.

Lemma failures_snoc (k : nat) :
  failures (k + 1) = failures k ++ turn InferenceFails.
Proof.
  induction k as [|k IH]; [reflexivity|].
  cbn [failures Nat.add]. now rewrite IH, app_assoc.
Qed.

Lemma set_nth_same {A} (l : list A) (n : nat) (x : A) :
  nth_error l n = Some x -> set_nth n x l = l.
Proof.
  revert n. induction l as [|a l IH]; intros [|n]; cbn; try discriminate.
  - now intros [= ->].
  - intros Hn. now rewrite IH.
Qed.

(** ** Steps of the process *)

Lemma grown_refl (s : state) : grown s s.
Proof.
  repeat split. exists []. rewrite app_nil_r. cbn. repeat split; [constructor | lia].
Qed.

Lemma grown_trans (s1 s2 s3 : state) : grown s1 s2 -> grown s2 s3 -> grown s1 s3.
Proof.
  intros (Hw1 & Hl1 & arr1 & Hq1 & Hf1 & Hu1) (Hw2 & Hl2 & arr2 & Hq2 & Hf2 & Hu2).
  repeat split; [congruence | congruence |].
  exists (arr1 ++ arr2). rewrite Hq2, Hq1, Hu2, Hu1, <- app_assoc, length_app.
  repeat split; [now apply Forall_app | lia].
Qed.

Section SystemFacts.

Context `{Collaborators}.
Variable cfg : config.

Lemma run_app (sched1 sched2 : list label) (s : state) :
  run cfg (sched1 ++ sched2) s = run cfg sched2 (run cfg sched1 s).
Proof. apply fold_left_app. Qed.

Lemma run_cons (l : label) (sched : list label) (s : state) :
  run cfg (l :: sched) s = run cfg sched (step cfg l s).
Proof. reflexivity. Qed.

(** A turn of the accept loop moves no worker and touches the queue at
    its back only. *)
Lemma step_listen_grown (c : connection) (s : state) :
  grown s (step cfg (Listen c) s).
Proof.
  cbn [step]. destruct (listener s); try apply grown_refl.
  pose proof (serve_connection_events c (shared s)) as Hev.
  destruct (serve_connection c (shared s)) as [[q evs] res] eqn:Hs.
  apply serve_connection_appends in Hs as (arr & Hq & Hf & Hu & _).
  cbn [fst snd] in Hev. repeat split; cbn [workers log shared].
  - now rewrite worker_events_app, Hev, app_nil_r.
  - now exists arr.
Qed.

(** A worker whose loop has ended does nothing when scheduled. *)
Lemma msg_worker_not_alive (a : action) (w : wstate) (q : Queue.t) :
  alive w = false -> msg_worker cfg a w q = (w, q, []).
Proof. now destruct w, a. Qed.

Lemma step_receive_grown (c : connection) (s : state) :
  grown s (step cfg (Receive c) s).
Proof.
  cbn [step]. destruct (listener s); try apply grown_refl.
  pose proof (receive_order_events c (shared s)) as Hev.
  destruct (receive_order c (shared s)) as [[q evs] l'] eqn:Hs.
  apply receive_order_appends in Hs as (arr & Hq & Hf & Hu & _).
  cbn [fst snd] in Hev. repeat split; cbn [workers log shared].
  - now rewrite worker_events_app, Hev, app_nil_r.
  - now exists arr.
Qed.

Lemma step_reply_grown (s : state) : grown s (step cfg Reply s).
Proof.
  cbn [step]. destruct (listener s) as [|ack_out ok| |]; try apply grown_refl.
  destruct (send_ack_events ack_out ok) as (Hev & _).
  destruct (send_ack ack_out ok) as [evs l']. cbn [fst] in Hev.
  repeat split; cbn [workers log shared].
  - now rewrite worker_events_app, Hev, app_nil_r.
  - exists []. rewrite app_nil_r. cbn. repeat split; [constructor | lia].
Qed.

(** A whole turn of the accept loop is its two parts one after the
    other. *)
Lemma listen_in_two_parts (c : connection) (s : state) :
  listener s = Accepting ->
  step cfg (Listen c) s = step cfg Reply (step cfg (Receive c) s).
Proof.
  intros Hl. cbn [step]. rewrite Hl.
  unfold serve_connection, receive_order, send_ack.
  destruct (recv_until_footer [] (recvs c)) as [input_msg| |buf];
    [ destruct (decode_utf8 _) as [m|];
      [ destruct (create_message _) as [ack|]; [destruct (send_ok c)|] |]
    | | ];
    cbn [listener shared workers log lstate_after];
    rewrite <- ?app_assoc, ?app_nil_r; reflexivity.
Qed.

Lemma step_grown (l : label) (s : state) :
  is_work l = false \/ Forall (fun w => alive w = false) (workers s) ->
  grown s (step cfg l s).
Proof.
  destruct l as [c|c| |tid a];
    [intros _; apply step_listen_grown | intros _; apply step_receive_grown
     | intros _; apply step_reply_grown |].
  intros [Hl|Hdead]; [discriminate|]. cbn [step].
  destruct (nth_error (workers s) tid) as [w|] eqn:Hw; [|apply grown_refl].
  rewrite msg_worker_not_alive.
  - rewrite (set_nth_same _ _ _ Hw), app_nil_r. destruct s. apply grown_refl.
  - rewrite Forall_forall in Hdead. apply Hdead. now apply nth_error_In in Hw.
Qed.

Lemma run_grown (sched : list label) (s : state) :
  worker_view sched = [] \/ Forall (fun w => alive w = false) (workers s) ->
  grown s (run cfg sched s).
Proof.
  revert s. induction sched as [|l sched IH]; intros s Hidle; [apply grown_refl|].
  rewrite run_cons.
  assert (is_work l = false \/ Forall (fun w => alive w = false) (workers s)) as Hl.
  { destruct Hidle as [Hv|Hd]; [left | now right].
    unfold worker_view in Hv. cbn [filter] in Hv. now destruct (is_work l). }
  pose proof (step_grown l s Hl) as Hstep.
  apply (grown_trans _ _ _ Hstep), IH.
  destruct Hidle as [Hv|Hd].
  - left. unfold worker_view in *. cbn [filter] in Hv. now destruct (is_work l).
  - right. destruct Hstep as (-> & _). exact Hd.
Qed.

(** Once the listener has left its accept loop, or hangs in a read loop,
    nothing more is written on its behalf. *)
Lemma step_listener_gone (l : label) (s : state) :
  listener s = ListenerStuck \/ listener s = ListenerExited ->
  listener (step cfg l s) = listener s /\
  listener_events (log (step cfg l s)) = listener_events (log s).
Proof.
  intros Hl. destruct l as [c|c| |tid a]; cbn [step].
  - destruct Hl as [Hl|Hl]; rewrite Hl; (split; [exact Hl | reflexivity]).
  - destruct Hl as [Hl|Hl]; rewrite Hl; (split; [exact Hl | reflexivity]).
  - destruct Hl as [Hl|Hl]; rewrite Hl; (split; [exact Hl | reflexivity]).
  - destruct (nth_error (workers s) tid) as [w|]; [|now split].
    pose proof (msg_worker_events cfg a w (shared s)) as Hev.
    destruct (msg_worker cfg a w (shared s)) as [[w' q] evs].
    cbn [snd listener log] in *. split; [reflexivity|].
    now rewrite listener_events_app, Hev, app_nil_r.
Qed.

Lemma run_listener_gone (sched : list label) (s : state) :
  listener s = ListenerStuck \/ listener s = ListenerExited ->
  listener (run cfg sched s) = listener s /\
  listener_events (log (run cfg sched s)) = listener_events (log s).
Proof.
  revert s. induction sched as [|l sched IH]; intros s Hl; [now split|].
  rewrite run_cons. destruct (step_listener_gone l s Hl) as [Hl' Hev'].
  destruct (IH (step cfg l s)) as [Hl'' Hev'']; [now rewrite Hl'|].
  split; congruence.
Qed.

(** Every step of the listener, whichever part of a turn it is: the
    workers stay where they are, the listener's events are appended to
    the log, and the orders it has put are at the back of the queue. *)
Lemma step_listener_shape (l : label) (s : state) :
  is_work l = false ->
  exists q evs lst arr,
    step cfg l s
    = {| shared := q; listener := lst; workers := workers s;
         log := log s ++ evs |} /\
    Queue.queue q = Queue.queue (shared s) ++ arr /\
    Forall fresh arr /\
    Queue.unfinished_tasks q = Queue.unfinished_tasks (shared s) + length arr /\
    worker_events evs = [] /\
    enqueued evs = map fst arr /\
    Forall (fun e => counter_of_event e = 0) evs.
Proof.
  assert (exists q evs lst arr,
             s = {| shared := q; listener := lst; workers := workers s;
                    log := log s ++ evs |} /\
             Queue.queue q = Queue.queue (shared s) ++ arr /\
             Forall fresh arr /\
             Queue.unfinished_tasks q
             = Queue.unfinished_tasks (shared s) + length arr /\
             worker_events evs = [] /\
             enqueued evs = map fst arr /\
             Forall (fun e => counter_of_event e = 0) evs) as Hidle.
  { exists (shared s), [], (listener s), []. rewrite !app_nil_r. cbn [length].
    rewrite Nat.add_0_r. destruct s. now repeat split. }
  destruct l as [c|c| |tid a]; [| | |discriminate]; intros _; cbn [step].
  - destruct (listener s); try exact Hidle.
    pose proof (serve_connection_events c (shared s)) as Hev.
    pose proof (serve_connection_counters c (shared s)) as Hce.
    destruct (serve_connection c (shared s)) as [[q evs] res] eqn:Hs.
    apply serve_connection_appends in Hs as (arr & Hq & Hf & Hu & _ & He).
    exists q, evs, (lstate_after res), arr. now repeat split.
  - destruct (listener s); try exact Hidle.
    pose proof (receive_order_events c (shared s)) as Hev.
    pose proof (receive_order_counters c (shared s)) as Hce.
    destruct (receive_order c (shared s)) as [[q evs] l'] eqn:Hs.
    apply receive_order_appends in Hs as (arr & Hq & Hf & Hu & _ & He).
    exists q, evs, l', arr. now repeat split.
  - destruct (listener s) as [|ack_out ok| |]; try exact Hidle.
    destruct (send_ack_events ack_out ok) as (Hev & _ & _ & He).
    assert (Forall (fun e => counter_of_event e = 0)
                   (fst (send_ack ack_out ok))) as Hce
      by (destruct ok; now repeat constructor).
    destruct (send_ack ack_out ok) as [evs l']. cbn [fst] in Hev, He, Hce.
    exists (shared s), evs, l', []. rewrite app_nil_r. cbn [length map].
    rewrite Nat.add_0_r. now repeat split.
Qed.

End SystemFacts.

(** Events of the listener are no marks of a worker. *)
Lemma listener_only_quiet (evs : list event) (f : event -> bool) :
  worker_events evs = [] ->
  (forall e, is_listener_event e = true -> f e = false) ->
  filter f evs = [].
Proof.
  unfold worker_events. intros Hw Hf.
  induction evs as [|e evs IH]; [reflexivity|]. cbn [filter] in *.
  destruct (is_listener_event e) eqn:E; cbn [negb] in Hw; [|discriminate].
  rewrite (Hf e E). now apply IH.
Qed.


(** The scheduled label is a step of the listener. *)
Ltac listener_step cfg l s Hl :=
  let Hst := fresh "Hst" in
  destruct (step_listener_shape cfg l s Hl)
    as (?q & ?evs & ?lst & ?arr & Hst & ?Hqa & ?Hfa & ?Hua & ?Hwe & ?Hen & ?Hce);
  rewrite Hst; clear Hst.

(** Why [start_client] raises, and what it has done by then. *)
Lemma start_client_raised (lis : peer) (msg : bytes) (evs : list event) :
  start_client lis msg = (evs, Raised) ->
  (connect_ok lis = false /\ evs = [ClientClosed]) \/
  (connect_ok lis = true /\ sendall_ok lis = false /\
   evs = [Connected; ClientClosed]) \/
  (connect_ok lis = true /\ sendall_ok lis = true /\
   recv_until_footer [] (ack_recvs lis) = RecvRaised /\
   evs = [Connected; Sent msg; ClientClosed]).
Proof.
  unfold start_client.
  destruct (connect_ok lis); cbn [negb]; [|intros [= <-]; now left].
  destruct (sendall_ok lis); cbn [negb]; [|intros [= <-]; right; now left].
  destruct (recv_until_footer [] (ack_recvs lis)); [discriminate | | discriminate].
  intros [= <-]. right; right. now repeat split.
Qed.

(** ** One worker thread: the steps of a loop turn *)

Section WorkerSteps.

Context `{Collaborators}.
Variable cfg : config.

Lemma step_get (m : str) (i : nat) (tl : list item) (s : state) :
  workers s = [AtGet] ->
  Queue.queue (shared s) = (m, i) :: tl ->
  workers (step cfg (Work 0 (Get true)) s) = [InInference m i] /\
  Queue.queue (shared (step cfg (Work 0 (Get true)) s)) = tl /\
  Queue.unfinished_tasks (shared (step cfg (Work 0 (Get true)) s))
  = Queue.unfinished_tasks (shared s) /\
  log (step cfg (Work 0 (Get true)) s)
  = log s ++ [Dequeued m i; InferenceStarted m].
Proof.
  intros Hw Hq. cbn [step]. rewrite Hw. cbn [nth_error msg_worker].
  unfold Queue.get. rewrite Hq. now repeat split.
Qed.

Lemma step_retry (m : str) (i : nat) (s : state) :
  workers s = [InInference m i] ->
  i < num_retries cfg ->
  workers (step cfg (Work 0 (Finish InferenceFails)) s) = [AtGet] /\
  Queue.queue (shared (step cfg (Work 0 (Finish InferenceFails)) s))
  = (m, i + 1) :: Queue.queue (shared s) /\
  Queue.unfinished_tasks (shared (step cfg (Work 0 (Finish InferenceFails)) s))
  = Queue.unfinished_tasks (shared s) /\
  log (step cfg (Work 0 (Finish InferenceFails)) s)
  = log s ++ [InferenceEnded m; Slept (delay_secs cfg); Requeued m (i + 1)].
Proof.
  intros Hw Hi. cbn [step]. rewrite Hw. cbn [nth_error msg_worker].
  apply Nat.ltb_lt in Hi. rewrite Hi. now repeat split.
Qed.

Lemma step_drop (m : str) (i : nat) (s : state) :
  workers s = [InInference m i] ->
  num_retries cfg <= i ->
  1 <= Queue.unfinished_tasks (shared s) ->
  workers (step cfg (Work 0 (Finish InferenceFails)) s) = [AtGet] /\
  Queue.queue (shared (step cfg (Work 0 (Finish InferenceFails)) s))
  = Queue.queue (shared s) /\
  log (step cfg (Work 0 (Finish InferenceFails)) s)
  = log s ++ [InferenceEnded m; Dropped m; TaskDone].
Proof.
  intros Hw Hi Hu. cbn [step]. rewrite Hw. cbn [nth_error msg_worker].
  apply Nat.ltb_ge in Hi. rewrite Hi. unfold Queue.task_done.
  destruct (Queue.unfinished_tasks (shared s)); [lia|]. now repeat split.
Qed.

(** The half turn in which [run_inference] returns: [create_msg] raises
    and the exception leaves [msg_worker]. *)
Lemma step_returns (m : str) (i : nat) (slide : str) (others : list str)
      (out : bytes) (lis : peer) (s : state) :
  workers s = [InInference m i] ->
  step cfg (Work 0 (Finish (InferenceReturns slide others out lis))) s
  = {| shared := shared s; listener := listener s; workers := [Exited];
       log := log s ++ [InferenceEnded m] |}.
Proof. intros Hw. cbn [step]. now rewrite Hw. Qed.

(** [k] failed turns in a row on the message at the head of the queue,
    while the counter stays below [num_retries]: the message is back at
    the head each time, with its counter one higher. *)
Lemma run_failures (m : str) (k : nat) :
  forall (i : nat) (s : state) (sched : list label) (tl : list item),
    i + k <= num_retries cfg ->
    workers s = [AtGet] ->
    Queue.queue (shared s) = (m, i) :: tl ->
    worker_view sched = failures k ->
    workers (run cfg sched s) = [AtGet] /\
    worker_events (log (run cfg sched s))
    = worker_events (log s) ++ retried_turns cfg m i k /\
    Queue.unfinished_tasks (shared s)
    <= Queue.unfinished_tasks (shared (run cfg sched s)) /\
    exists arr,
      Queue.queue (shared (run cfg sched s)) = (m, i + k) :: tl ++ arr /\
      Forall fresh arr.
Proof.
  induction k as [|k IH]; intros i s sched tl Hik Hw Hq Hv.
  - destruct (run_grown cfg sched s (or_introl Hv))
      as (Hw' & Hl' & arr & Hq' & Hf & Hu).
    rewrite Hw', Hl', Hq', Hq, Hu, Nat.add_0_r, app_nil_r.
    repeat split; [exact Hw | lia | now exists arr].
  - cbn [failures turn app] in Hv.
    apply filter_cons_split in Hv as (pre & rest1 & -> & Hpre & Hv).
    apply filter_cons_split in Hv as (mid & post & -> & Hmid & Hv).
    rewrite run_app, run_cons, run_app, run_cons.
    destruct (run_grown cfg pre s (or_introl Hpre))
      as (Hw1 & Hl1 & arr1 & Hq1 & Hf1 & Hu1).
    rewrite Hw in Hw1. rewrite Hq in Hq1. cbn [app] in Hq1.
    destruct (step_get m i _ _ Hw1 Hq1) as (Hw2 & Hq2 & Hu2 & Hl2).
    destruct (run_grown cfg mid (step cfg (Work 0 (Get true)) (run cfg pre s))
                (or_introl Hmid)) as (Hw3 & Hl3 & arr2 & Hq3 & Hf3 & Hu3).
    rewrite Hw2 in Hw3. rewrite Hq2 in Hq3.
    destruct (step_retry m i _ Hw3 ltac:(lia)) as (Hw4 & Hq4 & Hu4 & Hl4).
    rewrite Hq3 in Hq4.
    destruct (IH (i + 1) _ post _ ltac:(lia) Hw4 Hq4 Hv)
      as (Hw5 & Hl5 & Hu5 & arr3 & Hq5 & Hf5).
    repeat split.
    + exact Hw5.
    + rewrite Hl5, Hl4, worker_events_app, Hl3, Hl2, worker_events_app, Hl1.
      cbn [retried_turns retried_turn]. rewrite <- !app_assoc. reflexivity.
    + lia.
    + exists ((arr1 ++ arr2) ++ arr3). rewrite Hq5. split.
      * replace (i + 1 + k) with (i + S k) by lia.
        now rewrite <- !app_assoc.
      * apply Forall_app; split; [apply Forall_app; split|]; assumption.
Qed.

End WorkerSteps.

Lemma retried_turns_filter (f : event -> bool) (cfg : config) (m : str) (k i : nat) :
  (forall r, f (Dequeued m r) = false) ->
  f (InferenceStarted m) = false ->
  f (InferenceEnded m) = false ->
  f (Slept (delay_secs cfg)) = false ->
  (forall r, f (Requeued m r) = false) ->
  filter f (retried_turns cfg m i k) = [].
Proof.
  intros Hd Hs He Hz Hr. revert i.
  induction k as [|k IH]; intros i; [reflexivity|].
  cbn [retried_turns retried_turn app filter].
  now rewrite Hd, Hs, He, Hz, Hr, IH.
Qed.

Lemma retried_turns_requeued (cfg : config) (m : str) (k i : nat) :
  length (filter is_requeued (retried_turns cfg m i k)) = k.
Proof.
  revert i. induction k as [|k IH]; intros i; [reflexivity|].
  cbn [retried_turns retried_turn app filter is_requeued length]. now rewrite IH.
Qed.

Section WorkerTurns.

Context `{Collaborators}.
Variable cfg : config.

(** The turn in which inference succeeds. *)
Lemma run_turn_returns (m : str) (i : nat) (slide : str) (others : list str)
      (out : bytes) (lis : peer) (tl : list item) (s : state)
      (sched : list label) :
  workers s = [AtGet] ->
  Queue.queue (shared s) = (m, i) :: tl ->
  worker_view sched = turn (InferenceReturns slide others out lis) ->
  workers (run cfg sched s) = [Exited] /\
  worker_events (log (run cfg sched s))
  = worker_events (log s)
    ++ [Dequeued m i; InferenceStarted m; InferenceEnded m] /\
  exists arr,
    Queue.queue (shared (run cfg sched s)) = tl ++ arr /\
    Forall fresh arr /\
    Queue.unfinished_tasks (shared (run cfg sched s))
    = Queue.unfinished_tasks (shared s) + length arr.
Proof.
  intros Hw Hq Hv. cbn [turn] in Hv.
  apply filter_cons_split in Hv as (pre & rest1 & -> & Hpre & Hv).
  apply filter_cons_split in Hv as (mid & post & -> & Hmid & Hpost).
  rewrite run_app, run_cons, run_app, run_cons.
  destruct (run_grown cfg pre s (or_introl Hpre))
    as (Hw1 & Hl1 & arr1 & Hq1 & Hf1 & Hu1).
  rewrite Hw in Hw1. rewrite Hq in Hq1. cbn [app] in Hq1.
  destruct (step_get cfg m i _ _ Hw1 Hq1) as (Hw2 & Hq2 & Hu2 & Hl2).
  destruct (run_grown cfg mid (step cfg (Work 0 (Get true)) (run cfg pre s))
              (or_introl Hmid)) as (Hw3 & Hl3 & arr2 & Hq3 & Hf3 & Hu3).
  rewrite Hw2 in Hw3. rewrite Hq2 in Hq3.
  rewrite (step_returns cfg m i slide others out lis _ Hw3).
  match goal with
  | |- context [run cfg post ?st] =>
      destruct (run_grown cfg post st (or_introl Hpost))
        as (Hw5 & Hl5 & arr3 & Hq5 & Hf5 & Hu5)
  end.
  cbn [workers log shared] in Hw5, Hl5, Hq5, Hu5.
  repeat split.
  - exact Hw5.
  - rewrite Hl5, worker_events_app, Hl3, Hl2, worker_events_app, Hl1.
    now rewrite <- !app_assoc.
  - exists ((arr1 ++ arr2) ++ arr3). repeat split.
    + now rewrite Hq5, Hq3, <- !app_assoc.
    + apply Forall_app; split; [apply Forall_app; split|]; assumption.
    + rewrite Hu5, Hu3, Hu2, Hu1, !length_app. lia.
Qed.

(** The turn in which inference fails with the counter at the ceiling. *)
Lemma run_turn_drop (m : str) (i : nat) (tl : list item) (s : state)
      (sched : list label) :
  workers s = [AtGet] ->
  Queue.queue (shared s) = (m, i) :: tl ->
  num_retries cfg <= i ->
  1 <= Queue.unfinished_tasks (shared s) ->
  worker_view sched = turn InferenceFails ->
  workers (run cfg sched s) = [AtGet] /\
  worker_events (log (run cfg sched s))
  = worker_events (log s)
    ++ [Dequeued m i; InferenceStarted m; InferenceEnded m; Dropped m; TaskDone] /\
  exists arr,
    Queue.queue (shared (run cfg sched s)) = tl ++ arr /\ Forall fresh arr.
Proof.
  intros Hw Hq Hi Hu Hv. cbn [turn] in Hv.
  apply filter_cons_split in Hv as (pre & rest1 & -> & Hpre & Hv).
  apply filter_cons_split in Hv as (mid & post & -> & Hmid & Hpost).
  rewrite run_app, run_cons, run_app, run_cons.
  destruct (run_grown cfg pre s (or_introl Hpre))
    as (Hw1 & Hl1 & arr1 & Hq1 & Hf1 & Hu1).
  rewrite Hw in Hw1. rewrite Hq in Hq1. cbn [app] in Hq1.
  destruct (step_get cfg m i _ _ Hw1 Hq1) as (Hw2 & Hq2 & Hu2 & Hl2).
  destruct (run_grown cfg mid (step cfg (Work 0 (Get true)) (run cfg pre s))
              (or_introl Hmid)) as (Hw3 & Hl3 & arr2 & Hq3 & Hf3 & Hu3).
  rewrite Hw2 in Hw3. rewrite Hq2 in Hq3.
  destruct (step_drop cfg m i _ Hw3 Hi ltac:(lia)) as (Hw4 & Hq4 & Hl4).
  rewrite Hq3 in Hq4.
  destruct (run_grown cfg post
              (step cfg (Work 0 (Finish InferenceFails))
                 (run cfg mid (step cfg (Work 0 (Get true)) (run cfg pre s))))
              (or_introl Hpost)) as (Hw5 & Hl5 & arr3 & Hq5 & Hf5 & _).
  repeat split.
  - congruence.
  - rewrite Hl5, Hl4, worker_events_app, Hl3, Hl2, worker_events_app, Hl1.
    now rewrite <- !app_assoc.
  - exists ((arr1 ++ arr2) ++ arr3). split.
    + now rewrite Hq5, Hq4, <- !app_assoc.
    + apply Forall_app; split; [apply Forall_app; split|]; assumption.
Qed.

End WorkerTurns.

(** ** The listener and one worker *)

Section Process.

Context `{Collaborators}.
Variable cfg : config.

(** C2 (amended).  If the inbound connection closes before a complete
    frame (ending in 0x1C 0x0D) has arrived, the listener enqueues no
    item and sends no acknowledgment for that session; it does not abort
    the session, though: every further [recv] returns the empty byte
    string and the read loop goes on, so that the accept loop serves no
    subsequent connection. *)
Theorem closed_before_footer (c : connection) (buf : bytes) (s : state)
        (sched : list label) :
  recv_until_footer [] (recvs c) = StillReading buf ->
  listener s = Accepting ->
  (forall n, recv_until_footer [] (recvs c ++ repeat (RecvBytes []) n)
             = StillReading buf) /\
  listener (run cfg sched (step cfg (Listen c) s)) = ListenerStuck /\
  shared (step cfg (Listen c) s) = shared s /\
  listener_events (log (run cfg sched (step cfg (Listen c) s)))
  = listener_events (log s) ++ [Accepted].
Proof.
  intros Hr Hl. split; [intros n; now apply recv_until_footer_after_close|].
  assert (step cfg (Listen c) s
          = {| shared := shared s; listener := ListenerStuck;
               workers := workers s; log := log s ++ [Accepted] |}) as Hstep.
  { cbn [step]. rewrite Hl.
    now rewrite (serve_connection_still_reading c (shared s) buf Hr). }
  rewrite Hstep.
  destruct (run_listener_gone cfg sched
              {| shared := shared s; listener := ListenerStuck;
                 workers := workers s; log := log s ++ [Accepted] |})
    as [Hl' Hev']; [now left|].
  rewrite Hl', Hev'. cbn [listener shared log].
  now rewrite listener_events_app.
Qed.


(** C4 (the code falls short of the claim).  For every [k] below
    [num_retries]: an item enqueued with retry counter 0 whose inference
    fails exactly [k] times and then succeeds is re-enqueued [k] times,
    and that is all: the turn in which [run_inference] returns ends in
    [create_msg], the result is not handed to the Outbound Sender, the
    item is not marked done, and the worker thread has ended.  The
    listener may put new messages on the queue at any point in
    between. *)
Theorem retries_then_success_lost (k : nat) (m : str) (slide : str)
        (others : list str) (out : bytes) (lis : peer)
        (rest : list item) (s : state) (sched : list label) :
  k < num_retries cfg ->
  workers s = [AtGet] ->
  Queue.queue (shared s) = (m, 0) :: rest ->
  worker_view sched
  = failures k ++ turn (InferenceReturns slide others out lis) ->
  exists evs arr,
    worker_events (log (run cfg sched s)) = worker_events (log s) ++ evs /\
    evs = retried_turns cfg m 0 k
          ++ [Dequeued m k; InferenceStarted m; InferenceEnded m] /\
    filter is_handed_off evs = [] /\
    filter is_dropped evs = [] /\
    length (filter is_requeued evs) = k /\
    workers (run cfg sched s) = [Exited] /\
    Queue.queue (shared (run cfg sched s)) = rest ++ arr /\
    Forall fresh arr /\
    Queue.unfinished_tasks (shared s)
    <= Queue.unfinished_tasks (shared (run cfg sched s)).
Proof.
  intros Hk Hw Hq Hv.
  apply filter_app_split in Hv as (sched1 & sched2 & -> & Hv1 & Hv2).
  rewrite run_app.
  destruct (run_failures cfg m k 0 s sched1 rest ltac:(lia) Hw Hq Hv1)
    as (Hw1 & Hl1 & Hu1 & arr1 & Hq1 & Hf1).
  destruct (run_turn_returns cfg m (0 + k) slide others out lis _ _ sched2
              Hw1 Hq1 Hv2) as (Hw2 & Hl2 & arr2 & Hq2 & Hf2 & Hu2).
  cbn [Nat.add] in *.
  eexists _, (arr1 ++ arr2). split; [|split; [reflexivity|]].
  - now rewrite Hl2, Hl1, <- !app_assoc.
  - repeat split.
    + rewrite filter_app, retried_turns_filter by reflexivity. reflexivity.
    + rewrite filter_app, retried_turns_filter by reflexivity. reflexivity.
    + rewrite filter_app, length_app, retried_turns_requeued. cbn. lia.
    + exact Hw2.
    + now rewrite Hq2, <- app_assoc.
    + now apply Forall_app.
    + rewrite Hu2. lia.
Qed.

(** C5.  An item whose processing fails [num_retries + 1] times in a row
    is abandoned: it is re-enqueued after each of the first
    [num_retries] failures, and after the last one (its counter is no
    longer below [num_retries]) it is dropped, not re-enqueued and never
    handed to the Outbound Sender; the worker goes on to the next
    item. *)
Theorem exhausted_retries_drop (m : str) (rest : list item) (s : state)
        (sched : list label) :
  workers s = [AtGet] ->
  Queue.queue (shared s) = (m, 0) :: rest ->
  1 <= Queue.unfinished_tasks (shared s) ->
  worker_view sched = failures (num_retries cfg + 1) ->
  exists evs arr,
    worker_events (log (run cfg sched s)) = worker_events (log s) ++ evs /\
    evs = retried_turns cfg m 0 (num_retries cfg)
          ++ [Dequeued m (num_retries cfg); InferenceStarted m;
              InferenceEnded m; Dropped m; TaskDone] /\
    filter is_handed_off evs = [] /\
    filter is_dropped evs = [Dropped m] /\
    length (filter is_requeued evs) = num_retries cfg /\
    workers (run cfg sched s) = [AtGet] /\
    Queue.queue (shared (run cfg sched s)) = rest ++ arr /\
    Forall fresh arr.
Proof.
  intros Hw Hq Hu Hv. rewrite failures_snoc in Hv.
  apply filter_app_split in Hv as (sched1 & sched2 & -> & Hv1 & Hv2).
  rewrite run_app.
  destruct (run_failures cfg m (num_retries cfg) 0 s sched1 rest
              ltac:(lia) Hw Hq Hv1) as (Hw1 & Hl1 & Hu1 & arr1 & Hq1 & Hf1).
  cbn [Nat.add] in Hq1.
  destruct (run_turn_drop cfg m (num_retries cfg) _ _ sched2 Hw1 Hq1
              ltac:(lia) ltac:(lia) Hv2) as (Hw2 & Hl2 & arr2 & Hq2 & Hf2).
  eexists _, (arr1 ++ arr2). split; [|split; [reflexivity|]].
  - now rewrite Hl2, Hl1, <- !app_assoc.
  - repeat split.
    + rewrite filter_app, retried_turns_filter by reflexivity. reflexivity.
    + rewrite filter_app, retried_turns_filter by reflexivity. reflexivity.
    + rewrite filter_app, length_app, retried_turns_requeued. cbn. lia.
    + exact Hw2.
    + now rewrite Hq2, <- app_assoc.
    + now apply Forall_app.
Qed.

End Process.

(** ** The claims on the process of [main] *)

Lemma closed_before_footer_witness :
  recv_until_footer [] (recvs closes_early) = StillReading [x0b; x4f; x52] /\
  listener main = Accepting /\
  (forall n, recv_until_footer [] (recvs closes_early ++ repeat (RecvBytes []) n)
             = StillReading [x0b; x4f; x52]) /\
  listener (@run demo main_config
              [Listen (delivers (encode order1)); Work 0 (Get true)]
              (@step demo main_config (Listen closes_early) main))
  = ListenerStuck /\
  shared (@step demo main_config (Listen closes_early) main) = shared main /\
  listener_events
    (log (@run demo main_config
            [Listen (delivers (encode order1)); Work 0 (Get true)]
            (@step demo main_config (Listen closes_early) main)))
  = listener_events (log main) ++ [Accepted].
Proof.
  split; [reflexivity|]. split; [reflexivity|].
  apply (@closed_before_footer demo main_config); reflexivity.
Defined.

(** C2 as the specification words it fails: after a peer has closed
    early, the accept loop does not serve the next connection; the order
    that connection delivers is never enqueued. *)
Lemma closed_before_footer_counterexample :
  ~ In (Enqueued "ORDER1" 0)
       (log (@run demo main_config after_early_close main)).
Proof. vm_compute. intros [Heq|[]]. discriminate Heq. Qed.

Example served_without_early_close :
  log (@run demo main_config [Listen (delivers (encode order1))] main)
  = [Accepted; Enqueued "ORDER1" 0;
     AckSent (encode [x41; x43; x4b; x4f; x52; x44; x45; x52; x31]);
     ConnectionClosed].
Proof. reflexivity. Qed.


(** Two orders come in and the inference of the first returns: the worker
    is gone before anything is sent, whether the peer would refuse the
    connection or not, and the second order stays on the queue. *)
Example refused_delivery_outcome :
  workers (@run demo main_config refused_delivery main) = [Exited] /\
  Queue.queue (shared (@run demo main_config refused_delivery main))
  = [("ORDER2", 0)] /\
  Queue.unfinished_tasks (shared (@run demo main_config refused_delivery main))
  = 2 /\
  worker_events (log (@run demo main_config refused_delivery main))
  = [Dequeued "ORDER1" 0; InferenceStarted "ORDER1"; InferenceEnded "ORDER1"].
Proof. repeat split. Qed.

Lemma retries_then_success_lost_witness :
  2 < num_retries main_config /\
  workers one_order = [AtGet] /\
  Queue.queue (shared one_order) = [("ORDER1", 0)] /\
  worker_view two_failures_then_success
  = failures 2 ++ turn (InferenceReturns "s1.mrxs" [] result1 acknowledges) /\
  exists evs arr,
    worker_events (log (@run demo main_config two_failures_then_success one_order))
    = worker_events (log one_order) ++ evs /\
    evs = retried_turns main_config "ORDER1" 0 2
          ++ [Dequeued "ORDER1" 2; InferenceStarted "ORDER1";
              InferenceEnded "ORDER1"] /\
    filter is_handed_off evs = [] /\
    filter is_dropped evs = [] /\
    length (filter is_requeued evs) = 2 /\
    workers (@run demo main_config two_failures_then_success one_order)
    = [Exited] /\
    Queue.queue (shared (@run demo main_config two_failures_then_success one_order))
    = [] ++ arr /\
    Forall fresh arr /\
    Queue.unfinished_tasks (shared one_order)
    <= Queue.unfinished_tasks
         (shared (@run demo main_config two_failures_then_success one_order)).
Proof.
  split; [cbn; lia|]. split; [reflexivity|]. split; [reflexivity|].
  split; [reflexivity|].
  apply (@retries_then_success_lost demo main_config 2 "ORDER1" "s1.mrxs" []
           result1 acknowledges []);
    [cbn; lia | reflexivity | reflexivity | reflexivity].
Defined.

Example two_failures_then_success_outcome :
  worker_events (log (@run demo main_config two_failures_then_success one_order))
  = retried_turns main_config "ORDER1" 0 2
    ++ [Dequeued "ORDER1" 2; InferenceStarted "ORDER1"; InferenceEnded "ORDER1"] /\
  workers (@run demo main_config two_failures_then_success one_order) = [Exited] /\
  Queue.queue (shared (@run demo main_config two_failures_then_success one_order))
  = [("ORDER2", 0)].
Proof. repeat split. Qed.

Lemma exhausted_retries_drop_witness :
  workers one_order = [AtGet] /\
  Queue.queue (shared one_order) = [("ORDER1", 0)] /\
  1 <= Queue.unfinished_tasks (shared one_order) /\
  worker_view four_failures = failures (num_retries main_config + 1) /\
  exists evs arr,
    worker_events (log (@run demo main_config four_failures one_order))
    = worker_events (log one_order) ++ evs /\
    evs = retried_turns main_config "ORDER1" 0 (num_retries main_config)
          ++ [Dequeued "ORDER1" (num_retries main_config);
              InferenceStarted "ORDER1"; InferenceEnded "ORDER1";
              Dropped "ORDER1"; TaskDone] /\
    filter is_handed_off evs = [] /\
    filter is_dropped evs = [Dropped "ORDER1"] /\
    length (filter is_requeued evs) = num_retries main_config /\
    workers (@run demo main_config four_failures one_order) = [AtGet] /\
    Queue.queue (shared (@run demo main_config four_failures one_order))
    = [] ++ arr /\
    Forall fresh arr.
Proof.
  split; [reflexivity|]. split; [reflexivity|]. split; [cbn; lia|].
  split; [reflexivity|].
  apply (@exhausted_retries_drop demo main_config "ORDER1" []);
    [reflexivity | reflexivity | cbn; lia | reflexivity].
Defined.

(** ** Invariants of every run *)



Lemma in_flight_app (l1 l2 : list event) (c : nat) :
  in_flight c (l1 ++ l2) = in_flight (in_flight c l1) l2.
Proof.
  revert c. induction l1 as [|e l1 IH]; intros c; [reflexivity|].
  destruct e; cbn [in_flight app]; apply IH.
Qed.

Lemma peak_ge (l : list event) (c : nat) : c <= peak c l.
Proof.
  revert c. induction l as [|e l IH]; intros c; [reflexivity|].
  destruct e; cbn [peak]; try apply IH; lia.
Qed.

Lemma peak_app (l1 l2 : list event) (c : nat) :
  peak c (l1 ++ l2) = Nat.max (peak c l1) (peak (in_flight c l1) l2).
Proof.
  revert c. induction l1 as [|e l1 IH]; intros c.
  - cbn [app peak in_flight]. pose proof (peak_ge l2 c). lia.
  - destruct e; cbn [peak in_flight app]; rewrite IH; lia.
Qed.

Lemma in_flight_le_peak (l : list event) (c : nat) : in_flight c l <= peak c l.
Proof.
  revert c. induction l as [|e l IH]; intros c; [reflexivity|].
  destruct e; cbn [peak in_flight]; try apply IH.
  - specialize (IH (S c)). lia.
  - specialize (IH (pred c)). lia.
Qed.

(** Events other than the marks leave the count of calls as it is. *)
Lemma quiet_in_flight (l : list event) (c : nat) :
  filter is_inference_mark l = [] -> in_flight c l = c /\ peak c l = c.
Proof.
  induction l as [|e l IH]; [now split|].
  destruct e; cbn [filter is_inference_mark in_flight peak];
    try discriminate; exact IH.
Qed.

Lemma busy_le_length (ws : list wstate) : busy ws <= length ws.
Proof. apply filter_length_le. Qed.

Lemma length_set_nth {A} (l : list A) (n : nat) (x : A) :
  length (set_nth n x l) = length l.
Proof.
  revert n. induction l as [|a l IH]; intros [|n]; cbn; try reflexivity.
  now rewrite IH.
Qed.

Lemma busy_set_nth (ws : list wstate) (tid : nat) (w w' : wstate) :
  nth_error ws tid = Some w ->
  busy (set_nth tid w' ws) + Nat.b2n (inferring w)
  = busy ws + Nat.b2n (inferring w').
Proof.
  unfold busy. revert tid. induction ws as [|a ws IH]; intros [|tid]; cbn [nth_error];
    try discriminate.
  - intros [= ->]. cbn [set_nth filter].
    destruct (inferring w), (inferring w'); cbn [length Nat.b2n]; lia.
  - intros Hn. specialize (IH tid Hn). cbn [set_nth filter].
    destruct (inferring a); cbn [length]; lia.
Qed.

Lemma run_invariant `{Collaborators} (cfg : config) (P : state -> Prop) :
  (forall l s, P s -> P (step cfg l s)) ->
  forall sched s, P s -> P (run cfg sched s).
Proof.
  intros Hstep sched. induction sched as [|l sched IH]; intros s Hs; [exact Hs|].
  apply IH, Hstep, Hs.
Qed.

(** Every point of a log lies below its peak. *)
Lemma in_flight_prefix_le_peak (pre post : list event) (c : nat) :
  in_flight c pre <= peak c (pre ++ post).
Proof.
  rewrite peak_app. pose proof (in_flight_le_peak pre c). lia.
Qed.

Lemma busy_repeat_AtGet (n : nat) : busy (repeat AtGet n) = 0.
Proof. unfold busy. induction n as [|n IH]; [reflexivity | exact IH]. Qed.

(** A loop half opens a call, closes the call of its own thread, or
    leaves the calls alone. *)
Lemma msg_worker_flight (cfg : config) (a : action) (w w' : wstate)
      (q q' : Queue.t) (evs : list event) (c : nat) :
  msg_worker cfg a w q = (w', q', evs) ->
  Nat.b2n (inferring w) <= c ->
  in_flight c evs + Nat.b2n (inferring w) = c + Nat.b2n (inferring w') /\
  peak c evs = Nat.max c (in_flight c evs).
Proof.
  unfold msg_worker. destruct w as [|msg retry| |], a as [ok|p];
    try (intros [= <- <- <-] Hc; cbn; lia).
  - destruct (Queue.get q) as [[[m r] q1]|]; [destruct ok|];
      intros [= <- <- <-] Hc; cbn; lia.
  - destruct p as [|slide others out lis].
    + destruct (retry <? num_retries cfg); [|destruct (Queue.task_done q)];
        intros [= <- <- <-] Hc; cbn in *; lia.
    + intros [= <- <- <-] Hc; cbn in *; lia.
Qed.

Section SingleLane.

Context `{Collaborators}.
Variable cfg : config.

Lemma step_lanes (n : nat) (l : label) (s : state) :
  lanes n s -> lanes n (step cfg l s).
Proof.
  intros (Hlen & Hfl & Hpk).
  destruct (is_work l) eqn:Hwork.
  2:{ listener_step cfg l s Hwork.
      assert (filter is_inference_mark evs = []) as Hq.
      { apply listener_only_quiet; [exact Hwe|]. now intros []. }
      destruct (quiet_in_flight evs (in_flight 0 (log s)) Hq) as [Hi Hp].
      pose proof (in_flight_le_peak (log s) 0) as Hle.
      repeat split; cbn [workers log].
      + exact Hlen.
      + now rewrite in_flight_app, Hi.
      + rewrite peak_app, Hp. lia. }
  destruct l as [c|c| |tid a]; try discriminate. cbn [step].
  - destruct (nth_error (workers s) tid) as [w|] eqn:Hw; [|now repeat split].
    destruct (msg_worker cfg a w (shared s)) as [[w' q] evs] eqn:Hmw.
    pose proof (busy_set_nth _ _ _ AtGet Hw) as Hb0.
    pose proof (busy_set_nth _ _ _ w' Hw) as Hb.
    cbn [inferring Nat.b2n] in Hb0.
    destruct (msg_worker_flight _ _ _ _ _ _ _ (busy (workers s)) Hmw ltac:(lia))
      as [Hi Hp].
    pose proof (busy_le_length (set_nth tid w' (workers s))) as Hle.
    pose proof (busy_le_length (workers s)) as Hle0.
    rewrite length_set_nth in Hle.
    repeat split; cbn [workers log].
    + now rewrite length_set_nth.
    + rewrite in_flight_app, Hfl. lia.
    + rewrite peak_app, Hfl, Hp. lia.
Qed.

Lemma run_boot_lanes (n : nat) (sched : list label) :
  lanes n (run cfg sched (boot n)).
Proof.
  apply run_invariant; [apply step_lanes|].
  repeat split; cbn [boot workers log in_flight peak].
  - apply repeat_length.
  - now rewrite busy_repeat_AtGet.
  - lia.
Qed.

(** C9.  Single-lane processing: in every execution of the process that
    [main] starts (one [msg_worker] thread next to the listener), and
    at every point of it, at most one [run_inference] call is in
    progress; no two calls overlap, and at most one item is being
    processed. *)
Theorem single_lane (sched : list label) :
  peak 0 (log (run cfg sched main)) <= 1 /\
  (forall pre post,
      log (run cfg sched main) = pre ++ post -> in_flight 0 pre <= 1) /\
  busy (workers (run cfg sched main)) <= 1.
Proof.
  destruct (run_boot_lanes 1 sched) as (Hlen & Hfl & Hpk).
  fold main in Hlen, Hpk. repeat split.
  - exact Hpk.
  - intros pre post Hlog. rewrite Hlog in Hpk.
    pose proof (in_flight_prefix_le_peak pre post 0). lia.
  - rewrite <- Hlen. apply busy_le_length.
Qed.

End SingleLane.

(** The bound is the number of worker threads: with two of them, two
    calls are in progress at once. *)
Example two_workers_two_lanes :
  peak 0 (log (@run demo main_config two_workers_overlap (boot 2))) = 2.
Proof. reflexivity. Qed.



Lemma last_requeue_app (l1 l2 : list event) (p : option item) :
  last_requeue p (l1 ++ l2) = last_requeue (last_requeue p l1) l2.
Proof.
  revert p. induction l1 as [|e l1 IH]; intros p; [reflexivity|].
  destruct e; cbn [last_requeue app]; apply IH.
Qed.






Section QueueOrder.

Context `{Collaborators}.
Variable cfg : config.






End QueueOrder.

(** A log in which a fresh order is taken while the reinserted one waits
    would not pass. *)
Example served_first_notices :
  ~ served_first None
      [Requeued "ORDER1" 1; Enqueued "ORDER2" 0; Dequeued "ORDER2" 0].
Proof. cbn. intros (_ & Heq & _). discriminate Heq. Qed.

Example retried_goes_first :
  Queue.queue
    (shared (@run demo main_config
               [Listen (delivers (encode order1)); Work 0 (Get true);
                Listen (delivers (encode order2));
                Work 0 (Finish InferenceFails)] main))
  = [("ORDER1", 1); ("ORDER2", 0)].
Proof. reflexivity. Qed.

(** ** The accept loop on its own, and the counter of the queue *)

Section AcceptLoop.

Context `{Collaborators}.
Variable cfg : config.

Lemma run_listen_gone (conns : list connection) (s : state) :
  listener s <> Accepting -> run cfg (map Listen conns) s = s.
Proof.
  intros Hl. induction conns as [|c conns IH]; [reflexivity|].
  cbn [map]. rewrite run_cons. cbn [step].
  destruct (listener s); [contradiction | exact IH ..].
Qed.

(** With no worker scheduled, the process does what the loop of
    [store_msg_produce_ack] does on the connections in turn. *)
Lemma run_listen_store (conns : list connection) (s : state) :
  listener s = Accepting ->
  shared (run cfg (map Listen conns) s)
  = fst (fst (store_msg_produce_ack conns (shared s))) /\
  log (run cfg (map Listen conns) s)
  = log s ++ snd (fst (store_msg_produce_ack conns (shared s))).
Proof.
  revert s. induction conns as [|c conns IH]; intros s Hl.
  - cbn. now rewrite app_nil_r.
  - cbn [map store_msg_produce_ack]. rewrite run_cons. cbn [step]. rewrite Hl.
    destruct (serve_connection c (shared s)) as [[q evs] r].
    destruct r.
    + destruct (IH {| shared := q; listener := lstate_after Returned;
                      workers := workers s; log := log s ++ evs |} eq_refl)
        as [Hq Hlog].
      cbn [shared log] in *. rewrite Hq, Hlog.
      destruct (store_msg_produce_ack conns q) as [[q' evs'] r'].
      cbn [fst snd]. now rewrite app_assoc.
    + now rewrite run_listen_gone by discriminate.
    + now rewrite run_listen_gone by discriminate.
Qed.

(** A peer that closes early holds up every connection behind it. *)
Lemma store_msg_produce_ack_held_up (c : connection) (later : list connection)
      (q : Queue.t) (buf : bytes) :
  recv_until_footer [] (recvs c) = StillReading buf ->
  store_msg_produce_ack (c :: later) q = (q, [Accepted], NeverReturns).
Proof.
  intros Hr. cbn [store_msg_produce_ack].
  now rewrite (serve_connection_still_reading c q buf Hr).
Qed.

Lemma msg_worker_counted (a : action) (w w' : wstate) (q q' : Queue.t)
      (evs : list event) (others : nat) :
  msg_worker cfg a w q = (w', q', evs) ->
  others + Nat.b2n (inferring w) + length (Queue.queue q)
  <= Queue.unfinished_tasks q ->
  others + Nat.b2n (inferring w') + length (Queue.queue q')
  <= Queue.unfinished_tasks q'.
Proof.
  unfold msg_worker. destruct w as [|msg retry| |], a as [ok|p];
    try (intros [= <- <- <-] Hc; exact Hc).
  - unfold Queue.get. destruct (Queue.queue q) as [|[m k] rest] eqn:Hq;
      [|destruct ok]; intros [= <- <- <-] Hc; cbn in *; rewrite ?Hq; cbn; lia.
  - unfold Queue.task_done. destruct p as [|slide more out lis].
    + destruct (retry <? num_retries cfg);
        [|destruct (Queue.unfinished_tasks q) eqn:Hu];
        intros [= <- <- <-] Hc; cbn in *; lia.
    + intros [= <- <- <-] Hc; cbn in *; lia.
Qed.

Lemma step_counted (l : label) (s : state) : counted s -> counted (step cfg l s).
Proof.
  unfold counted. intros Hc.
  destruct (is_work l) eqn:Hwork.
  2:{ listener_step cfg l s Hwork.
      cbn [workers shared]. rewrite Hqa, Hua, length_app. lia. }
  destruct l as [c|c| |tid a]; try discriminate. cbn [step].
  - destruct (nth_error (workers s) tid) as [w|] eqn:Hw; [|exact Hc].
    destruct (msg_worker cfg a w (shared s)) as [[w' q] evs] eqn:Hmw.
    cbn [workers shared].
    pose proof (busy_set_nth _ _ _ AtGet Hw) as Hb0.
    pose proof (busy_set_nth _ _ _ w' Hw) as Hb.
    cbn [inferring Nat.b2n] in Hb0.
    pose proof (msg_worker_counted a w w' (shared s) q evs
                  (busy (set_nth tid AtGet (workers s))) Hmw ltac:(lia)).
    lia.
Qed.

(** In every run of a freshly started process [task_done] has a tuple
    to count off: the counter is at least 1 while a tuple is queued or
    under inference. *)
Lemma run_boot_counted (n : nat) (sched : list label) :
  counted (run cfg sched (boot n)).
Proof.
  apply run_invariant; [apply step_counted|].
  unfold counted. cbn [boot workers shared]. rewrite busy_repeat_AtGet. cbn. lia.
Qed.

End AcceptLoop.

(** ** The scenarios of the specification, run *)

(** One order comes in, is acknowledged and queued; the worker takes it
    and its inference returns: the worker ends in [create_msg], nothing
    is sent downstream, and the order stays counted as unfinished. *)
Example end_to_end :
  Queue.qsize (shared one_order) = 1 /\
  Queue.qsize
    (shared (@run demo main_config
               (turn (InferenceReturns "s1.mrxs" [] result1 acknowledges))
               one_order))
  = 0 /\
  Queue.unfinished_tasks
    (shared (@run demo main_config
               (turn (InferenceReturns "s1.mrxs" [] result1 acknowledges))
               one_order))
  = 1 /\
  workers (@run demo main_config
             (turn (InferenceReturns "s1.mrxs" [] result1 acknowledges))
             one_order)
  = [Exited] /\
  log (@run demo main_config
         (turn (InferenceReturns "s1.mrxs" [] result1 acknowledges)) one_order)
  = [Accepted; Enqueued "ORDER1" 0;
     AckSent (encode [x41; x43; x4b; x4f; x52; x44; x45; x52; x31]);
     ConnectionClosed;
     Dequeued "ORDER1" 0; InferenceStarted "ORDER1"; InferenceEnded "ORDER1"].
Proof. repeat split. Qed.

(** [start_client] on its own: a peer that acknowledges, a reset while
    the acknowledgment is awaited, and a peer that closes without
    acknowledging, which keeps the client in its read loop. *)
Example acknowledged_delivery :
  start_client acknowledges result1
  = ([Connected; Sent result1; AckReceived [x41; x43; x4b];
      ClientClosed; ClientClosed], Returned).
Proof. reflexivity. Qed.

Example reset_delivery :
  start_client resets result1 = ([Connected; Sent result1; ClientClosed], Raised).
Proof. reflexivity. Qed.

Example unacknowledged_delivery :
  start_client hangs_up result1 = ([Connected; Sent result1], NeverReturns).
Proof. reflexivity. Qed.

(* ===================================================================== *)
(** * Further properties of the code *)
(* ===================================================================== *)

(** ** The codec on buffers that are not one clean frame *)

(** What follows the first end marker plays no part. *)
Lemma strip_frame_then_rest (g p rest : bytes) :
  contains g header = false ->
  contains g footer = false ->
  contains p footer = false ->
  strip_mllp_framing (g ++ encode p ++ rest) = p.
Proof.
  rewrite !contains_false_index_of. intros Hgh Hgf Hpf.
  unfold strip_mllp_framing, encode. rewrite !find_index_of.
  replace (g ++ (header ++ p ++ footer) ++ rest)
    with (g ++ header ++ p ++ footer ++ rest)
    by (now rewrite <- !app_assoc).
  rewrite (index_of_header_first g (p ++ footer ++ rest) Hgh).
  assert (index_of (g ++ header ++ p ++ footer ++ rest) footer
          = Some (length g + 1 + length p)) as ->.
  { replace (g ++ header ++ p ++ footer ++ rest)
      with ((g ++ x0b :: p) ++ footer ++ rest)
      by (rewrite <- app_assoc; reflexivity).
    rewrite index_of_footer_first.
    - rewrite length_app. cbn [length]. f_equal. lia.
    - apply index_of_footer_app_None;
        [exact Hgf | now apply index_of_footer_header_cons | discriminate]. }
  replace (g ++ header ++ p ++ footer ++ rest)
    with ((g ++ header) ++ p ++ footer ++ rest)
    by (now rewrite <- app_assoc).
  replace (Z.of_nat (length g) + 1)%Z with (Z.of_nat (length (g ++ header)))
    by (rewrite length_app; cbn [header length]; lia).
  replace (length g + 1 + length p) with (length (g ++ header) + length p)
    by (rewrite length_app; cbn [header length]; lia).
  apply slice_middle.
Qed.

(** A slice with bounds inside the buffer, as [skipn] and [firstn]. *)
Lemma slice_within (s : bytes) (lo hi : nat) :
  lo <= length s ->
  hi <= length s ->
  slice s (Z.of_nat lo) (Z.of_nat hi) = firstn (hi - lo) (skipn lo s).
Proof.
  intros Hlo Hhi. unfold slice, adjust_index.
  destruct (Z.ltb_spec (Z.of_nat lo) 0) as [Hneg|_]; [lia|].
  destruct (Z.ltb_spec (Z.of_nat hi) 0) as [Hneg|_]; [lia|].
  rewrite !Z.min_l by lia. rewrite Nat2Z.id. f_equal. lia.
Qed.

Lemma index_of_bound (s sub : bytes) (n : nat) :
  index_of s sub = Some n -> n + length sub <= length s.
Proof.
  intros Hn. apply index_of_Some in Hn as (a & b & -> & <- & _).
  rewrite !length_app. lia.
Qed.

(** A stretch of a buffer that stops where the marker first occurs is
    free of the marker. *)
Lemma index_of_None_stretch (a b sub : bytes) (lo : nat) :
  index_of (a ++ sub ++ b) sub = Some (length a) ->
  sub <> [] ->
  index_of (skipn lo a) sub = None.
Proof.
  intros Hidx Hsub. pose proof (index_of_prefix_free a b sub Hidx Hsub) as Ha.
  destruct (index_of (skipn lo a) sub) as [m|] eqn:Hm; [|reflexivity].
  exfalso. apply index_of_Some in Hm as (x & y & Hxy & _ & _).
  apply (index_of_None a sub Ha (firstn lo a ++ x) y).
  rewrite <- app_assoc, <- Hxy. symmetry. apply firstn_skipn.
Qed.

(** X1.  Whatever the input, once the buffer holds the end sequence the
    stripped message does not: what the listener decodes and enqueues,
    and what the client prints as acknowledgment, is free of the
    0x1C 0x0D marker. *)
Theorem stripped_has_no_footer (bs : bytes) :
  contains bs footer = true ->
  contains (strip_mllp_framing bs) footer = false.
Proof.
  intros Hf. apply contains_true_index_of in Hf as [e He].
  apply contains_false_index_of.
  unfold strip_mllp_framing. rewrite !find_index_of, He.
  pose proof (index_of_bound _ _ _ He) as Hbound.
  pose proof (index_of_Some _ _ _ He) as (a & b & Hbs & Hlen & _).
  assert (exists lo, (match index_of bs header with
                      | Some n => Z.of_nat n
                      | None => -1
                      end + 1)%Z = Z.of_nat lo /\ lo <= length bs) as (lo & -> & Hlo).
  { destruct (index_of bs header) as [n|] eqn:Hn.
    - exists (n + 1). apply index_of_bound in Hn. cbn [header length] in Hn.
      split; lia.
    - exists 0. split; lia. }
  rewrite slice_within by lia.
  subst bs e. rewrite skipn_app, firstn_app, length_skipn.
  replace (length a - lo - (length a - lo)) with 0 by lia.
  rewrite firstn_O, app_nil_r, firstn_all2 by (rewrite length_skipn; lia).
  apply (index_of_None_stretch a b footer lo He). discriminate.
Qed.

Lemma stripped_has_no_footer_witness :
  contains [x0b; x41; x1c; x0d; x0b; x42; x1c; x0d] footer = true /\
  contains (strip_mllp_framing [x0b; x41; x1c; x0d; x0b; x42; x1c; x0d]) footer
  = false.
Proof.
  split; [reflexivity|]. apply stripped_has_no_footer. reflexivity.
Defined.

(** X2.  On a buffer with a start byte but no end sequence nothing is
    reported: [find] answers -1, the slice bound -1 counts from the end,
    and the payload comes back with its last byte cut off. *)
Theorem strip_without_footer (g p : bytes) :
  contains g header = false ->
  contains (g ++ x0b :: p) footer = false ->
  strip_mllp_framing (g ++ x0b :: p) = removelast p.
Proof.
  rewrite !contains_false_index_of. intros Hgh Hf.
  unfold strip_mllp_framing. rewrite !find_index_of, Hf.
  rewrite (index_of_header_first g p Hgh : index_of (g ++ x0b :: p) header = _).
  unfold slice, adjust_index. rewrite length_app. cbn [length].
  destruct (Z.ltb_spec (Z.of_nat (length g) + 1) 0) as [Hneg|_]; [lia|].
  cbn [Z.ltb Z.compare]. rewrite Z.min_l, Z.max_r by lia.
  replace (Z.to_nat (Z.of_nat (length g) + 1)) with (length g + 1) by lia.
  replace (Z.to_nat (-1 + Z.of_nat (length g + S (length p))
                     - (Z.of_nat (length g) + 1)))
    with (pred (length p)) by lia.
  rewrite skipn_app, skipn_all2 by lia.
  replace (length g + 1 - length g) with 1 by lia. cbn [skipn app].
  symmetry. apply removelast_firstn_len.
Qed.

Lemma strip_without_footer_witness :
  contains [x00] header = false /\
  contains ([x00] ++ x0b :: [x41; x42; x43]) footer = false /\
  strip_mllp_framing ([x00] ++ x0b :: [x41; x42; x43]) = removelast [x41; x42; x43].
Proof.
  split; [reflexivity|]. split; [reflexivity|].
  apply strip_without_footer; reflexivity.
Defined.

(** ** The read loop on any segmentation *)

Lemma app_prefix_of_longer {A} (l1 r1 l2 r2 : list A) :
  l1 ++ r1 = l2 ++ r2 ->
  length l2 <= length l1 ->
  exists d, l1 = l2 ++ d.
Proof.
  revert l1. induction l2 as [|x l2 IH]; intros l1 Heq Hlen.
  - now exists l1.
  - destruct l1 as [|y l1]; [cbn in Hlen; lia|].
    cbn [app] in Heq. injection Heq as -> Heq.
    destruct (IH l1 Heq) as [d ->]; [cbn in Hlen; lia|]. now exists d.
Qed.

(** A stream that ends with the end marker brings the loop to an end, at
    the first chunk boundary at which the buffer ends with the marker. *)
Lemma recv_until_footer_completes (chunks : list bytes) (buf total : bytes) :
  buf ++ concat chunks = total ->
  endswith total footer = true ->
  exists frame rest,
    recv_until_footer buf (map RecvBytes chunks) = Complete frame /\
    total = frame ++ rest /\
    endswith frame footer = true /\
    length buf <= length frame.
Proof.
  intros Hcat Hend. revert buf Hcat.
  induction chunks as [|c chunks IH]; intros buf Hcat;
    cbn [map recv_until_footer concat] in *.
  - rewrite app_nil_r in Hcat. subst buf. rewrite Hend.
    exists total, []. now rewrite app_nil_r.
  - destruct (endswith buf footer) eqn:E.
    + exists buf, (c ++ concat chunks). now repeat split.
    + destruct (IH (buf ++ c)) as (frame & rest & Hloop & Htot & Hfe & Hlen);
        [now rewrite <- app_assoc|].
      exists frame, rest. rewrite length_app in Hlen. repeat split; try assumption.
      lia.
Qed.

Lemma endswith_encode (p : bytes) : endswith (encode p) footer = true.
Proof.
  apply endswith_spec. exists (header ++ p). unfold encode. now rewrite <- app_assoc.
Qed.

(** The loop hands over at least the first frame, and stripping what it
    hands over gives the payload of that frame. *)
Lemma recv_then_strip_first_frame (chunks : list bytes) (p rest : bytes) :
  concat chunks = encode p ++ rest ->
  endswith (encode p ++ rest) footer = true ->
  contains p footer = false ->
  exists frame,
    recv_until_footer [] (map RecvBytes chunks) = Complete frame /\
    strip_mllp_framing frame = p.
Proof.
  intros Hcat Hend Hp.
  destruct (recv_until_footer_completes chunks [] (encode p ++ rest) Hcat Hend)
    as (frame & rest' & Hloop & Htot & Hfe & _).
  exists frame. split; [exact Hloop|].
  apply endswith_spec in Hfe as [t ->].
  assert (index_of (encode p ++ rest) footer = Some (length (x0b :: p))) as Hidx.
  { replace (encode p ++ rest) with ((x0b :: p) ++ footer ++ rest)
      by (unfold encode; cbn [header app]; now rewrite <- !app_assoc).
    apply index_of_footer_first, index_of_footer_header_cons.
    now apply contains_false_index_of. }
  apply index_of_Some in Hidx as (_ & _ & _ & _ & Hmin).
  rewrite <- app_assoc in Htot. pose proof (Hmin t _ Htot) as Hle.
  rewrite app_assoc in Htot. symmetry in Htot.
  destruct (app_prefix_of_longer (t ++ footer) rest' (encode p) rest Htot)
    as [d Hd].
  { unfold encode. rewrite !length_app. cbn [header footer length] in *. lia. }
  rewrite Hd. apply (strip_frame_then_rest [] p d); [reflexivity | reflexivity | exact Hp].
Qed.

Section FirstFrame.

Context `{Collaborators}.

(** X3.  However the stream is cut into [recv] results, and whatever
    follows the first frame on the connection (a second framed order,
    say), the listener does what it does for the first frame alone: it
    enqueues and acknowledges that one payload, and the rest of the
    stream is dropped without notice. *)
Theorem session_takes_first_frame (chunks : list bytes) (p rest : bytes)
        (ok : bool) (q : Queue.t) :
  concat chunks = encode p ++ rest ->
  endswith (encode p ++ rest) footer = true ->
  contains p footer = false ->
  serve_connection {| recvs := map RecvBytes chunks; send_ok := ok |} q
  = serve_connection {| recvs := [RecvBytes (encode p)]; send_ok := ok |} q.
Proof.
  intros Hcat Hend Hp.
  destruct (recv_then_strip_first_frame chunks p rest Hcat Hend Hp)
    as (frame & Hloop & Hstrip).
  unfold serve_connection. cbn [recvs send_ok]. rewrite Hloop, Hstrip.
  cbn [recv_until_footer app]. change (endswith [] footer) with false.
  cbn iota. rewrite endswith_encode.
  pose proof (strip_frame_after_prefix [] p eq_refl eq_refl Hp) as Hs.
  cbn [app] in Hs. now rewrite Hs.
Qed.

End FirstFrame.

Lemma session_takes_first_frame_witness :
  concat [[x0b; x4f]; [x52; x1c]; [x0d; x0b; x58; x1c; x0d]]
  = encode [x4f; x52] ++ encode [x58] /\
  endswith (encode [x4f; x52] ++ encode [x58]) footer = true /\
  contains [x4f; x52] footer = false /\
  @serve_connection demo
    {| recvs := map RecvBytes [[x0b; x4f]; [x52; x1c]; [x0d; x0b; x58; x1c; x0d]];
       send_ok := true |} Queue.empty
  = @serve_connection demo
      {| recvs := [RecvBytes (encode [x4f; x52])]; send_ok := true |} Queue.empty.
Proof.
  split; [reflexivity|]. split; [reflexivity|]. split; [reflexivity|].
  apply (@session_takes_first_frame demo
           [[x0b; x4f]; [x52; x1c]; [x0d; x0b; x58; x1c; x0d]]
           [x4f; x52] (encode [x58])); reflexivity.
Defined.

Example second_order_is_lost :
  snd (fst (@serve_connection demo
              {| recvs := [RecvBytes (encode order1 ++ encode order2)];
                 send_ok := true |} Queue.empty))
  = [Accepted; Enqueued "ORDER1" 0;
     AckSent (encode [x41; x43; x4b; x4f; x52; x44; x45; x52; x31]);
     ConnectionClosed].
Proof. reflexivity. Qed.

(** ** The books of a run *)

Lemma count_app (f : event -> bool) (l1 l2 : list event) :
  count f (l1 ++ l2) = count f l1 + count f l2.
Proof. unfold count. now rewrite filter_app, length_app. Qed.

(** Case analysis along [msg_worker]. *)
Ltac worker_paths w a q :=
  unfold msg_worker, Queue.get, Queue.task_done;
  destruct w as [|?msg ?retry| |], a as [?ok|?p];
  [ destruct (Queue.queue q) as [|[?m ?k] ?rest] eqn:?Hq; [|destruct ok]
  | idtac
  | idtac
  | destruct p as [|?slide ?more ?out ?lis];
    [ destruct (_ <? _) eqn:?Hlt; [|destruct (Queue.unfinished_tasks q) eqn:?Hu]
    | cbn [create_msg] ]
  | idtac | idtac | idtac | idtac ].

Lemma count_enqueued (evs : list event) :
  count is_enqueued evs = length (enqueued evs).
Proof.
  unfold count. induction evs as [|e evs IH]; [reflexivity|].
  destruct e; cbn [filter is_enqueued enqueued length]; now rewrite ?IH.
Qed.

(** What the events of a listener step add to the books. *)
Lemma listener_only_books (evs : list event) (arr : list item) :
  worker_events evs = [] ->
  enqueued evs = map fst arr ->
  count is_enqueued evs = length arr /\
  count is_requeued evs = 0 /\ count is_dequeued evs = 0 /\
  count is_started evs = 0 /\ count is_ended evs = 0 /\
  count is_handed_off evs = 0 /\ count is_dropped evs = 0 /\
  count is_ack_received evs = 0 /\ count is_sent evs = 0 /\
  count is_connected evs = 0.
Proof.
  intros Hw He. rewrite count_enqueued, He, length_map. unfold count.
  repeat split;
    rewrite (listener_only_quiet evs _ Hw) by (now intros []); reflexivity.
Qed.

Lemma msg_worker_books (cfg : config) (a : action) (w w' : wstate)
      (q q' : Queue.t) (evs : list event) :
  msg_worker cfg a w q = (w', q', evs) ->
  count is_enqueued evs = 0 /\
  count is_requeued evs + length (Queue.queue q)
  = count is_dequeued evs + length (Queue.queue q') /\
  count is_started evs + Nat.b2n (inferring w)
  = count is_ended evs + Nat.b2n (inferring w') /\
  count is_handed_off evs + count is_dropped evs + count is_requeued evs
  <= count is_ended evs /\
  count is_started evs <= count is_dequeued evs /\
  count is_ack_received evs <= count is_sent evs /\
  count is_sent evs <= count is_connected evs /\
  count is_connected evs <= count is_handed_off evs.
Proof.
  worker_paths w a q; intros [= <- <- <-]; cbn; rewrite ?Hq; cbn; lia.
Qed.

Section Books.

Context `{Collaborators}.
Variable cfg : config.

Lemma step_accounted (l : label) (s : state) :
  accounted s -> accounted (step cfg l s).
Proof.
  unfold accounted. intros (H1 & H2 & H3 & H4 & H5 & H6 & H7).
  destruct (is_work l) eqn:Hwork.
  2:{ listener_step cfg l s Hwork.
      destruct (listener_only_books evs arr Hwe Hen)
        as (B1 & B2 & B3 & B4 & B5 & B6 & B7 & B8 & B9 & B10).
      cbn [shared workers log]. rewrite !count_app, Hqa, length_app.
      repeat split; lia. }
  destruct l as [c|c| |tid a]; try discriminate. cbn [step].
  - destruct (nth_error (workers s) tid) as [w|] eqn:Hw; [|now repeat split].
    destruct (msg_worker cfg a w (shared s)) as [[w' q] evs] eqn:Hmw.
    apply msg_worker_books in Hmw as (B1 & B2 & B3 & B4 & B5 & B6 & B7 & B8).
    pose proof (busy_set_nth _ _ _ AtGet Hw) as Hb0.
    pose proof (busy_set_nth _ _ _ w' Hw) as Hb.
    cbn [inferring Nat.b2n] in Hb0.
    cbn [shared workers log]. rewrite !count_app. repeat split; lia.
Qed.

Lemma run_boot_accounted (n : nat) (sched : list label) :
  accounted (run cfg sched (boot n)).
Proof.
  apply run_invariant; [apply step_accounted|].
  unfold accounted. cbn [boot workers shared log]. rewrite busy_repeat_AtGet.
  cbn. repeat split; lia.
Qed.

(** X4.  Nothing gets onto the work queue or off it unrecorded: in every
    execution, with any number of worker threads, the queue holds exactly
    the tuples that were put by the listener or reinserted by a worker
    and have not been taken off since. *)
Theorem queue_conservation (n : nat) (sched : list label) :
  Queue.qsize (shared (run cfg sched (boot n)))
  + count is_dequeued (log (run cfg sched (boot n)))
  = count is_enqueued (log (run cfg sched (boot n)))
    + count is_requeued (log (run cfg sched (boot n))).
Proof.
  destruct (run_boot_accounted n sched) as (H1 & _). unfold Queue.qsize. lia.
Qed.


End Books.

(** ** Retry counters and the counter of the queue *)

Lemma Forall_set_nth {A} (P : A -> Prop) (l : list A) (n : nat) (x : A) :
  Forall P l -> P x -> Forall P (set_nth n x l).
Proof.
  intros Hl Hx. revert n. induction Hl as [|a l Ha Hl IH]; intros [|n]; cbn;
    constructor; auto.
Qed.

Lemma msg_worker_ceiling (cfg : config) (a : action) (w w' : wstate)
      (q q' : Queue.t) (evs : list event) :
  msg_worker cfg a w q = (w', q', evs) ->
  Forall (fun x : item => snd x <= num_retries cfg) (Queue.queue q) ->
  counter_of_worker w <= num_retries cfg ->
  Forall (fun x : item => snd x <= num_retries cfg) (Queue.queue q') /\
  counter_of_worker w' <= num_retries cfg /\
  Forall (fun e => counter_of_event e <= num_retries cfg) evs.
Proof.
  worker_paths w a q; intros [= <- <- <-] Hq' Hw;
    rewrite ?Hq in *; cbn in *;
    try (apply Nat.ltb_lt in Hlt);
    repeat split; repeat constructor;
    try (now inversion Hq'); try assumption; cbn; lia.
Qed.

Section Counters.

Context `{Collaborators}.
Variable cfg : config.

Lemma step_within_ceiling (l : label) (s : state) :
  within_ceiling cfg s -> within_ceiling cfg (step cfg l s).
Proof.
  intros (Hq & Hw & Hl).
  destruct (is_work l) eqn:Hwork.
  2:{ listener_step cfg l s Hwork.
      repeat split; cbn [shared workers log].
      + rewrite Hqa. apply Forall_app. split; [exact Hq|].
        apply (Forall_impl _ (fun x (Hx : fresh x) =>
                                eq_ind_r (fun k => k <= num_retries cfg)
                                         (Nat.le_0_l _) Hx) Hfa).
      + exact Hw.
      + apply Forall_app. split; [exact Hl|].
        apply (Forall_impl _ (fun e (He : counter_of_event e = 0) =>
                                eq_ind_r (fun k => k <= num_retries cfg)
                                         (Nat.le_0_l _) He) Hce). }
  destruct l as [c|c| |tid a]; try discriminate. cbn [step].
  - destruct (nth_error (workers s) tid) as [w|] eqn:Hn; [|now repeat split].
    destruct (msg_worker cfg a w (shared s)) as [[w' q] evs] eqn:Hmw.
    assert (counter_of_worker w <= num_retries cfg) as Hcw.
    { rewrite Forall_forall in Hw. apply Hw. now apply nth_error_In in Hn. }
    destruct (msg_worker_ceiling _ _ _ _ _ _ _ Hmw Hq Hcw) as (Hq' & Hw' & He').
    repeat split; cbn [shared workers log].
    + exact Hq'.
    + now apply Forall_set_nth.
    + now apply Forall_app.
Qed.

Lemma run_boot_within_ceiling (n : nat) (sched : list label) :
  within_ceiling cfg (run cfg sched (boot n)).
Proof.
  apply run_invariant; [apply step_within_ceiling|].
  repeat split; cbn [boot shared workers log Queue.empty Queue.queue];
    try constructor.
  induction n as [|n IH]; cbn [repeat]; constructor; [cbn; lia | exact IH].
Qed.

(** A reinsertion raises the counter: the counters reinserted are at
    least 1. *)
Lemma run_boot_requeued_positive (n : nat) (sched : list label) :
  Forall (fun e => match e with Requeued _ r => 1 <= r | _ => True end)
         (log (run cfg sched (boot n))).
Proof.
  apply (run_invariant cfg
           (fun s => Forall (fun e => match e with
                                      | Requeued _ r => 1 <= r
                                      | _ => True
                                      end) (log s))); [|constructor].
  intros l s Hs.
  destruct (is_work l) eqn:Hwork.
  2:{ listener_step cfg l s Hwork.
      cbn [log]. apply Forall_app. split; [exact Hs|].
      clear - Hwe. unfold worker_events in Hwe.
      induction evs as [|e evs IH]; [constructor|].
      destruct e; cbn [filter is_listener_event negb] in Hwe;
        try discriminate; constructor; auto. }
  destruct l as [c|c| |tid a]; try discriminate. cbn [step].
  - destruct (nth_error (workers s) tid) as [w|]; [|exact Hs].
    destruct (msg_worker cfg a w (shared s)) as [[w' q] evs] eqn:Hmw.
    cbn [log]. apply Forall_app. split; [exact Hs|].
    revert Hmw. worker_paths w a (shared s); intros [= <- <- <-];
      repeat constructor; lia.
Qed.

(** X6.  The retry ceiling holds throughout: in every execution no tuple
    is on the queue, taken off it or reinserted with a counter above
    [num_retries]; a message is given to [run_inference] at most
    [num_retries + 1] times, with the counters 0 to [num_retries]. *)
Theorem retry_counter_bounded (n : nat) (sched : list label) :
  (forall m r, In (m, r) (Queue.queue (shared (run cfg sched (boot n)))) ->
               r <= num_retries cfg) /\
  (forall m r, In (Dequeued m r) (log (run cfg sched (boot n))) ->
               r <= num_retries cfg) /\
  (forall m r, In (Requeued m r) (log (run cfg sched (boot n))) ->
               1 <= r <= num_retries cfg).
Proof.
  destruct (run_boot_within_ceiling n sched) as (Hq & _ & Hl).
  pose proof (run_boot_requeued_positive n sched) as Hpos.
  rewrite Forall_forall in Hq, Hl, Hpos. split; [|split].
  - intros m r Hin. apply (Hq (m, r) Hin).
  - intros m r Hin. apply (Hl _ Hin).
  - intros m r Hin. split; [apply (Hpos _ Hin) | apply (Hl _ Hin)].
Qed.

(** X7.  [task_done] is never called once too often: in every execution,
    while a worker is inside [run_inference] the counter of unfinished
    tasks is at least 1, so that the [task_done] at the end of its turn
    does not raise [ValueError]. *)
Theorem task_done_never_raises (n : nat) (sched : list label) (tid : nat)
        (m : str) (r : nat) :
  nth_error (workers (run cfg sched (boot n))) tid = Some (InInference m r) ->
  exists q', Queue.task_done (shared (run cfg sched (boot n))) = Some q'.
Proof.
  intros Hw. pose proof (run_boot_counted cfg n sched) as Hc. unfold counted in Hc.
  pose proof (busy_set_nth _ _ _ AtGet Hw) as Hb. cbn [inferring Nat.b2n] in Hb.
  unfold Queue.task_done.
  destruct (Queue.unfinished_tasks (shared (run cfg sched (boot n))));
    [lia | eauto].
Qed.

End Counters.

Lemma task_done_never_raises_witness :
  nth_error (workers (@run demo main_config
                        [Listen (delivers (encode order1)); Work 0 (Get true)]
                        (boot 1))) 0
  = Some (InInference "ORDER1" 0) /\
  exists q',
    Queue.task_done (shared (@run demo main_config
                               [Listen (delivers (encode order1)); Work 0 (Get true)]
                               (boot 1)))
    = Some q'.
Proof.
  split; [reflexivity|].
  apply (@task_done_never_raises demo main_config 1
           [Listen (delivers (encode order1)); Work 0 (Get true)] 0 "ORDER1" 0).
  reflexivity.
Defined.

(** ** Orders and their acknowledgments *)

Lemma unacked_app (l1 l2 : list event) (c : nat) :
  unacked c (l1 ++ l2)
  = match unacked c l1 with
    | Some c' => unacked c' l2
    | None => None
    end.
Proof.
  revert c. induction l1 as [|e l1 IH]; intros c; [reflexivity|].
  destruct e; cbn [unacked app]; try apply IH.
  destruct c as [|c]; [reflexivity | apply IH].
Qed.

Lemma unacked_worker_events (evs : list event) (c : nat) :
  listener_events evs = [] -> unacked c evs = Some c.
Proof.
  unfold listener_events. induction evs as [|e evs IH]; [reflexivity|].
  destruct e; cbn [filter is_listener_event unacked]; try discriminate; exact IH.
Qed.

Section Acknowledgments.

Context `{Collaborators}.
Variable cfg : config.

Lemma step_acknowledged (l : label) (s : state) :
  acknowledged s -> acknowledged (step cfg l s).
Proof.
  intros (k & Hk & Hle & Hacc & Hrep).
  assert (acknowledged s) as Hs by (exists k; now repeat split).
  destruct l as [c|c| |tid a]; cbn [step].
  - destruct (listener s) eqn:Hl; try exact Hs.
    rewrite (Hacc (or_introl eq_refl)) in Hk. clear Hle Hacc Hrep Hs.
    unfold serve_connection.
    destruct (recv_until_footer [] (recvs c)) as [input_msg| |buf];
      [ destruct (decode_utf8 _) as [m|];
        [ destruct (create_message _) as [ack|]; [destruct (send_ok c)|] |]
      | | ];
      cbn [log listener lstate_after]; unfold acknowledged; cbn [log listener];
      rewrite unacked_app, Hk; cbn [unacked];
      [ exists 0 | exists 1 | exists 0 .. ];
      repeat split; try lia; try reflexivity; try discriminate;
      intros [Hc|Hc]; discriminate Hc.
  - destruct (listener s) eqn:Hl; try exact Hs.
    rewrite (Hacc (or_introl eq_refl)) in Hk. clear Hle Hacc Hrep Hs.
    unfold receive_order.
    destruct (recv_until_footer [] (recvs c)) as [input_msg| |buf];
      [ destruct (decode_utf8 _) as [m|];
        [ destruct (create_message _) as [ack|] |]
      | | ];
      unfold acknowledged; cbn [log listener];
      rewrite unacked_app, Hk; cbn [unacked];
      [ exists 1 | exists 0 .. ];
      repeat split; try lia; try reflexivity; try discriminate;
      intros [Hc|Hc]; discriminate Hc.
  - destruct (listener s) as [|ack_out ok| |] eqn:Hl; try exact Hs.
    rewrite (Hrep ack_out ok eq_refl) in Hk. clear Hle Hacc Hrep Hs.
    unfold send_ack. destruct ok;
      unfold acknowledged; cbn [log listener];
      rewrite unacked_app, Hk; cbn [unacked];
      [ exists 0 | exists 1 ];
      repeat split; try lia; try reflexivity; try discriminate;
      intros [Hc|Hc]; discriminate Hc.
  - destruct (nth_error (workers s) tid) as [w|]; [|exact Hs].
    pose proof (msg_worker_events cfg a w (shared s)) as Hev.
    destruct (msg_worker cfg a w (shared s)) as [[w' q] evs]. cbn [snd] in Hev.
    exists k. cbn [log listener]. rewrite unacked_app, Hk.
    rewrite (unacked_worker_events evs k Hev). now repeat split.
Qed.

Lemma run_boot_acknowledged (n : nat) (sched : list label) :
  acknowledged (run cfg sched (boot n)).
Proof.
  apply run_invariant; [apply step_acknowledged|].
  exists 0. cbn. repeat split; try lia; discriminate.
Qed.

(** X8.  The listener never acknowledges an order that it has not put on
    the queue before: in every execution, with a worker scheduled at any
    point of the listener's turn, also between its [put] and its [send],
    each acknowledgment sent answers an order enqueued earlier and not yet
    acknowledged.  At most one order is enqueued and unacknowledged at any
    time: none while the listener waits in [accept], exactly one between
    the [put] and the [send], and that one for good when [send] raises and
    the listener has gone. *)
Theorem acknowledged_after_enqueued (n : nat) (sched : list label) :
  exists k,
    unacked 0 (log (run cfg sched (boot n))) = Some k /\
    k <= 1 /\
    (listener (run cfg sched (boot n)) = Accepting -> k = 0) /\
    (forall ack_out ok,
        listener (run cfg sched (boot n)) = Replying ack_out ok -> k = 1).
Proof.
  destruct (run_boot_acknowledged n sched) as (k & Hk & Hle & Hacc & Hrep).
  exists k. repeat split; try assumption. intros Hl. apply Hacc. now left.
Qed.

End Acknowledgments.

(** An acknowledgment that runs ahead of its order would be noticed. *)
Example unacked_notices :
  unacked 0 [Accepted; AckSent []; Enqueued "ORDER1" 0] = None.
Proof. reflexivity. Qed.

(** The worker may run between the [put] and the [send] of the listener:
    the order is taken off the queue before its acknowledgment is sent,
    and in between it is the one order that awaits its acknowledgment. *)
Example worker_between_put_and_send :
  log (@run demo main_config
         [Receive (delivers (encode order1)); Work 0 (Get true); Reply] main)
  = [Accepted; Enqueued "ORDER1" 0;
     Dequeued "ORDER1" 0; InferenceStarted "ORDER1";
     AckSent (encode [x41; x43; x4b; x4f; x52; x44; x45; x52; x31]);
     ConnectionClosed] /\
  listener (@run demo main_config
              [Receive (delivers (encode order1)); Work 0 (Get true)] main)
  = Replying (encode [x41; x43; x4b; x4f; x52; x44; x45; x52; x31]) true /\
  unacked 0 (log (@run demo main_config
                    [Receive (delivers (encode order1)); Work 0 (Get true)]
                    main))
  = Some 1.
Proof. repeat split. Qed.

(** ** A reinserted message is the next to be taken *)

Lemma served_in_turn_app (l1 l2 : list event) (p : option item) :
  served_in_turn p (l1 ++ l2)
  <-> served_in_turn p l1 /\ served_in_turn (last_requeue p l1) l2.
Proof.
  revert p. induction l1 as [|e l1 IH]; intros p; [cbn; tauto|].
  destruct e; cbn [served_in_turn last_requeue app]; try apply IH.
  rewrite IH. tauto.
Qed.

(** Events other than [get] and reinsertion have no say in it. *)
Lemma quiet_served_in_turn (evs : list event) (p : option item) :
  filter (fun e => is_requeued e || is_dequeued e) evs = [] ->
  served_in_turn p evs /\ last_requeue p evs = p.
Proof.
  induction evs as [|e evs IH]; [now split|].
  destruct e; cbn [filter is_requeued is_dequeued orb served_in_turn last_requeue];
    try discriminate; exact IH.
Qed.

Lemma msg_worker_turn (cfg : config) (a : action) (w w' : wstate)
      (q q' : Queue.t) (evs : list event) (pending : option item) :
  msg_worker cfg a w q = (w', q', evs) ->
  (forall x, pending = Some x -> hd_error (Queue.queue q) = Some x) ->
  served_in_turn pending evs /\
  (forall x, last_requeue pending evs = Some x ->
             hd_error (Queue.queue q') = Some x).
Proof.
  worker_paths w a q; intros [= <- <- <-] Hp;
    rewrite ?Hq in *;
    cbn [served_in_turn last_requeue app Queue.queue Queue.insert_front hd_error];
    try (split; [exact I | exact Hp]).
  - split; [|discriminate]. split; [|exact I].
    destruct pending as [x|]; [|exact I]. specialize (Hp x eq_refl).
    now injection Hp.
  - split; [|discriminate]. split; [|exact I].
    destruct pending as [x|]; [|exact I]. specialize (Hp x eq_refl).
    now injection Hp.
  - split; [exact I|]. now intros x [= <-].
Qed.

Section Turns.

Context `{Collaborators}.
Variable cfg : config.

Lemma step_turn_kept (l : label) (s : state) :
  turn_kept s -> turn_kept (step cfg l s).
Proof.
  intros [Hserved Hhead].
  destruct (is_work l) eqn:Hwork.
  2:{ listener_step cfg l s Hwork.
      assert (filter (fun e => is_requeued e || is_dequeued e) evs = [])
        as Hquiet.
      { apply listener_only_quiet; [exact Hwe|]. now intros []. }
      destruct (quiet_served_in_turn evs (last_requeue None (log s)) Hquiet)
        as [Hs' Hl'].
      split; cbn [log shared].
      + apply served_in_turn_app. now split.
      + intros x. rewrite last_requeue_app, Hl'. intros Hx.
        apply Hhead in Hx. rewrite Hqa.
        destruct (Queue.queue (shared s)); [discriminate | exact Hx]. }
  destruct l as [c|c| |tid a]; try discriminate. cbn [step].
  - destruct (nth_error (workers s) tid) as [w|]; [|now split].
    destruct (msg_worker cfg a w (shared s)) as [[w' q] evs] eqn:Hmw.
    destruct (msg_worker_turn _ _ _ _ _ _ _ (last_requeue None (log s)) Hmw Hhead)
      as [Hs' Hh'].
    split; cbn [log shared].
    + apply served_in_turn_app. now split.
    + intros x. rewrite last_requeue_app. apply Hh'.
Qed.

Lemma run_boot_turn_kept (n : nat) (sched : list label) :
  turn_kept (run cfg sched (boot n)).
Proof.
  apply run_invariant; [apply step_turn_kept|]. split; [exact I | discriminate].
Qed.

(** X9.  Reinsertion and [get] compose as a stack on top of the queue: in
    every execution, the tuple that a worker takes off next after a
    reinsertion is the tuple reinserted last, however many orders have
    arrived in between; and as long as it has not been taken off, it is
    the head of the queue. *)
Theorem reinserted_is_served_next (n : nat) (sched : list label) :
  served_in_turn None (log (run cfg sched (boot n))) /\
  forall x, last_requeue None (log (run cfg sched (boot n))) = Some x ->
            hd_error (Queue.queue (shared (run cfg sched (boot n)))) = Some x.
Proof. apply run_boot_turn_kept. Qed.

End Turns.

(** A log in which a fresh order overtakes the reinserted one would not
    pass. *)
Example served_in_turn_notices :
  ~ served_in_turn None [Requeued "ORDER1" 1; Enqueued "ORDER2" 0; Dequeued "ORDER2" 0].
Proof. cbn. intros [Heq _]. discriminate Heq. Qed.

(** ** Exceptions that nothing catches *)

Section Uncaught.

Context `{Collaborators}.
Variable cfg : config.

(** X10.  An exception while an order is received ends the accept loop
    for good: when [recv] raises, when the payload is not valid UTF-8, or
    when [create_message] raises on it, nothing is enqueued and nothing
    acknowledged, the exception leaves [store_msg_produce_ack], and no
    later connection is ever served. *)
Theorem listener_exits_on_exception (c : connection) (s : state)
        (sched : list label) :
  listener s = Accepting ->
  recv_until_footer [] (recvs c) = RecvRaised \/
  (exists input_msg,
      recv_until_footer [] (recvs c) = Complete input_msg /\
      (decode_utf8 (strip_mllp_framing input_msg) = None \/
       exists hl7_msg_decoded,
         decode_utf8 (strip_mllp_framing input_msg) = Some hl7_msg_decoded /\
         create_message hl7_msg_decoded = None)) ->
  shared (step cfg (Listen c) s) = shared s /\
  listener (run cfg sched (step cfg (Listen c) s)) = ListenerExited /\
  listener_events (log (run cfg sched (step cfg (Listen c) s)))
  = listener_events (log s) ++ [Accepted].
Proof.
  intros Hl Hcause.
  assert (serve_connection c (shared s) = (shared s, [Accepted], Raised)) as Hs.
  { unfold serve_connection.
    destruct Hcause as [-> | (input_msg & -> & [-> | (m & -> & ->)])];
      reflexivity. }
  assert (step cfg (Listen c) s
          = {| shared := shared s; listener := ListenerExited;
               workers := workers s; log := log s ++ [Accepted] |}) as Hstep.
  { cbn [step]. now rewrite Hl, Hs. }
  rewrite Hstep.
  destruct (run_listener_gone cfg sched
              {| shared := shared s; listener := ListenerExited;
                 workers := workers s; log := log s ++ [Accepted] |})
    as [Hl' Hev']; [now right|].
  rewrite Hl', Hev'. cbn [listener shared log].
  now rewrite listener_events_app.
Qed.

(** X11.  An exception of [extract_msg_info] is outside the [try]: the
    message that was taken off the queue is lost with it.  It is neither
    retried, although its counter may be below [num_retries], nor
    dropped with [task_done]; the worker thread ends and takes no
    further message. *)
Theorem worker_exits_on_extract_error (m : str) (r : nat) (tl : list item)
        (s : state) (sched : list label) :
  workers s = [AtGet] ->
  Queue.queue (shared s) = (m, r) :: tl ->
  workers (run cfg sched (step cfg (Work 0 (Get false)) s)) = [Exited] /\
  worker_events (log (run cfg sched (step cfg (Work 0 (Get false)) s)))
  = worker_events (log s) ++ [Dequeued m r] /\
  Queue.unfinished_tasks (shared (step cfg (Work 0 (Get false)) s))
  = Queue.unfinished_tasks (shared s) /\
  exists arr,
    Queue.queue (shared (run cfg sched (step cfg (Work 0 (Get false)) s)))
    = tl ++ arr /\
    Forall fresh arr.
Proof.
  intros Hw Hq.
  assert (step cfg (Work 0 (Get false)) s
          = {| shared := Queue.mk tl (Queue.unfinished_tasks (shared s));
               listener := listener s; workers := [Exited];
               log := log s ++ [Dequeued m r] |}) as Hstep.
  { cbn [step]. rewrite Hw. cbn [nth_error msg_worker].
    unfold Queue.get. now rewrite Hq. }
  rewrite Hstep.
  destruct (run_grown cfg sched
              {| shared := Queue.mk tl (Queue.unfinished_tasks (shared s));
                 listener := listener s; workers := [Exited];
                 log := log s ++ [Dequeued m r] |})
    as (Hw' & Hl' & arr & Hq' & Hf & _).
  { right. now repeat constructor. }
  cbn [workers shared log Queue.queue Queue.unfinished_tasks] in *.
  rewrite Hw', Hl', Hq', worker_events_app.
  repeat split. now exists arr.
Qed.

(** X12.  Once every worker thread has ended or hangs in [start_client],
    the listener goes on as before: each further order is acknowledged
    and put on the queue, and stays there.  Nothing is taken off the
    queue any more, and its size grows by one with every order
    acknowledged. *)
Theorem orders_pile_up (s : state) (sched : list label) :
  Forall (fun w => alive w = false) (workers s) ->
  count is_dequeued (log (run cfg sched s)) = count is_dequeued (log s) /\
  count is_handed_off (log (run cfg sched s)) = count is_handed_off (log s) /\
  Queue.qsize (shared (run cfg sched s)) + count is_enqueued (log s)
  = Queue.qsize (shared s) + count is_enqueued (log (run cfg sched s)) /\
  exists arr,
    Queue.queue (shared (run cfg sched s)) = Queue.queue (shared s) ++ arr /\
    Forall fresh arr.
Proof.
  intros Hdead. revert s Hdead.
  induction sched as [|l sched IH]; intros s Hdead.
  - cbn [run fold_left]. repeat split. exists []. now rewrite app_nil_r.
  - rewrite run_cons.
    assert (workers (step cfg l s) = workers s /\
            count is_dequeued (log (step cfg l s)) = count is_dequeued (log s) /\
            count is_handed_off (log (step cfg l s))
            = count is_handed_off (log s) /\
            Queue.qsize (shared (step cfg l s)) + count is_enqueued (log s)
            = Queue.qsize (shared s) + count is_enqueued (log (step cfg l s)) /\
            exists arr,
              Queue.queue (shared (step cfg l s)) = Queue.queue (shared s) ++ arr /\
              Forall fresh arr) as (Hw & Hd & Hh & Hsz & arr & Hq & Hf).
    { destruct (is_work l) eqn:Hwork.
      2:{ listener_step cfg l s Hwork.
          destruct (listener_only_books evs arr Hwe Hen)
            as (B1 & _ & B3 & _ & _ & B6 & _).
          cbn [workers shared log]. unfold Queue.qsize.
          rewrite !count_app, Hqa, length_app.
          repeat split; try lia. now exists arr. }
      destruct l as [c|c| |tid a]; try discriminate. cbn [step].
      - destruct (nth_error (workers s) tid) as [w|] eqn:Hn;
          [|repeat split; exists []; now rewrite app_nil_r].
        rewrite msg_worker_not_alive.
        + rewrite (set_nth_same _ _ _ Hn), app_nil_r. cbn [workers shared log].
          repeat split. exists []. now rewrite app_nil_r.
        + rewrite Forall_forall in Hdead. apply Hdead.
          now apply nth_error_In in Hn. }
    rewrite <- Hw in Hdead.
    destruct (IH _ Hdead) as (Hd' & Hh' & Hsz' & arr' & Hq' & Hf').
    repeat split; try lia.
    exists (arr ++ arr'). rewrite Hq', Hq, <- app_assoc.
    split; [reflexivity | now apply Forall_app].
Qed.

End Uncaught.

Lemma listener_exits_on_exception_witness :
  listener main = Accepting /\
  (recv_until_footer [] (recvs breaks_on_recv) = RecvRaised \/
   (exists input_msg,
       recv_until_footer [] (recvs breaks_on_recv) = Complete input_msg /\
       (@decode_utf8 demo (strip_mllp_framing input_msg) = None \/
        exists hl7_msg_decoded,
          @decode_utf8 demo (strip_mllp_framing input_msg)
          = Some hl7_msg_decoded /\
          @create_message demo hl7_msg_decoded = None))) /\
  shared (@step demo main_config (Listen breaks_on_recv) main) = shared main /\
  listener (@run demo main_config [Listen (delivers (encode order1))]
              (@step demo main_config (Listen breaks_on_recv) main))
  = ListenerExited /\
  listener_events
    (log (@run demo main_config [Listen (delivers (encode order1))]
            (@step demo main_config (Listen breaks_on_recv) main)))
  = listener_events (log main) ++ [Accepted].
Proof.
  split; [reflexivity|]. split; [now left|].
  apply (@listener_exits_on_exception demo main_config breaks_on_recv main);
    [reflexivity | now left].
Defined.

Lemma worker_exits_on_extract_error_witness :
  workers one_order = [AtGet] /\
  Queue.queue (shared one_order) = [("ORDER1", 0)] /\
  workers (@run demo main_config
             [Listen (delivers (encode order2)); Work 0 (Get true)]
             (@step demo main_config (Work 0 (Get false)) one_order))
  = [Exited] /\
  worker_events
    (log (@run demo main_config
            [Listen (delivers (encode order2)); Work 0 (Get true)]
            (@step demo main_config (Work 0 (Get false)) one_order)))
  = worker_events (log one_order) ++ [Dequeued "ORDER1" 0] /\
  Queue.unfinished_tasks
    (shared (@step demo main_config (Work 0 (Get false)) one_order))
  = Queue.unfinished_tasks (shared one_order) /\
  exists arr,
    Queue.queue
      (shared (@run demo main_config
                 [Listen (delivers (encode order2)); Work 0 (Get true)]
                 (@step demo main_config (Work 0 (Get false)) one_order)))
    = [] ++ arr /\
    Forall fresh arr.
Proof.
  split; [reflexivity|]. split; [reflexivity|].
  apply (@worker_exits_on_extract_error demo main_config "ORDER1" 0 []);
    reflexivity.
Defined.

Lemma orders_pile_up_witness :
  Forall (fun w => alive w = false)
         (workers (@run demo main_config refused_delivery main)) /\
  count is_dequeued
    (log (@run demo main_config [Listen (delivers (encode order1)); Work 0 (Get true)]
            (@run demo main_config refused_delivery main)))
  = count is_dequeued (log (@run demo main_config refused_delivery main)) /\
  count is_handed_off
    (log (@run demo main_config [Listen (delivers (encode order1)); Work 0 (Get true)]
            (@run demo main_config refused_delivery main)))
  = count is_handed_off (log (@run demo main_config refused_delivery main)) /\
  Queue.qsize
    (shared (@run demo main_config
               [Listen (delivers (encode order1)); Work 0 (Get true)]
               (@run demo main_config refused_delivery main)))
  + count is_enqueued (log (@run demo main_config refused_delivery main))
  = Queue.qsize (shared (@run demo main_config refused_delivery main))
    + count is_enqueued
        (log (@run demo main_config
                [Listen (delivers (encode order1)); Work 0 (Get true)]
                (@run demo main_config refused_delivery main))) /\
  exists arr,
    Queue.queue
      (shared (@run demo main_config
                 [Listen (delivers (encode order1)); Work 0 (Get true)]
                 (@run demo main_config refused_delivery main)))
    = Queue.queue (shared (@run demo main_config refused_delivery main)) ++ arr /\
    Forall fresh arr.
Proof.
  split; [now repeat constructor|].
  apply (@orders_pile_up demo main_config). now repeat constructor.
Defined.

(** ** The clean-up sweep *)

Lemma sweep_spares (cutoff_time : Z) (directory : list entry) (e : entry) :
  In e directory ->
  stale cutoff_time e = false ->
  In e (fst (sweep cutoff_time directory)).
Proof.
  intros Hin Hfresh. induction directory as [|d directory IH]; [contradiction|].
  cbn [sweep]. fold (stale cutoff_time d).
  destruct Hin as [-> | Hin].
  - rewrite Hfresh. destruct (sweep cutoff_time directory). now left.
  - specialize (IH Hin). destruct (stale cutoff_time d).
    + destruct (rmtree_ok d); [exact IH | now right].
    + destruct (sweep cutoff_time directory). now right.
Qed.

Lemma sweep_returned (cutoff_time : Z) (directory : list entry) :
  snd (sweep cutoff_time directory) = Returned ->
  fst (sweep cutoff_time directory)
  = filter (fun e => negb (stale cutoff_time e)) directory.
Proof.
  induction directory as [|d directory IH]; [reflexivity|].
  cbn [sweep filter]. fold (stale cutoff_time d).
  destruct (stale cutoff_time d); cbn [negb].
  - destruct (rmtree_ok d); [exact IH | discriminate].
  - destruct (sweep cutoff_time directory) as [kept r]. cbn [fst snd] in *.
    intros Hr. now rewrite IH.
Qed.

Lemma sweep_nothing_stale (cutoff_time : Z) (directory : list entry) :
  Forall (fun e => stale cutoff_time e = false) directory ->
  sweep cutoff_time directory = (directory, Returned).
Proof.
  induction 1 as [|d directory Hd Hrest IH]; [reflexivity|].
  cbn [sweep]. fold (stale cutoff_time d). now rewrite Hd, IH.
Qed.

(** X13.  A sweep takes nothing that it should not: whatever the interval
    [sleep_time] of the clean-up thread, a turn of it leaves every plain
    file in place, and every folder that was modified within the last
    three hours; this also holds of a sweep that [rmtree] breaks off. *)
Theorem cleanup_spares_recent (directory : list entry) (sleep_time now : Z)
        (e : entry) :
  In e directory ->
  is_dir e = false \/ (now - 3 * 3600 * 1000000 <= mod_time e)%Z ->
  In e (fst (cleanup_worker directory sleep_time now)).
Proof.
  intros Hin Hkeep. unfold cleanup_worker, remove_slides.
  apply sweep_spares; [exact Hin|]. unfold stale, hours.
  destruct Hkeep as [-> | Hrecent]; [reflexivity|].
  apply andb_false_intro2. apply Z.ltb_ge. lia.
Qed.

Lemma cleanup_spares_recent_witness :
  In {| entry_name := "slide_B"; is_dir := true; mod_time := hours 11;
        rmtree_ok := true |} tmp_slides /\
  (is_dir {| entry_name := "slide_B"; is_dir := true; mod_time := hours 11;
             rmtree_ok := true |} = false \/
   (noon - 3 * 3600 * 1000000
    <= mod_time {| entry_name := "slide_B"; is_dir := true;
                   mod_time := hours 11; rmtree_ok := true |})%Z) /\
  In {| entry_name := "slide_B"; is_dir := true; mod_time := hours 11;
        rmtree_ok := true |}
     (fst (cleanup_worker tmp_slides 3600 noon)).
Proof.
  split; [cbn; tauto|]. split; [right; vm_compute; discriminate|].
  apply cleanup_spares_recent; [cbn; tauto | right; vm_compute; discriminate].
Defined.

(** X14.  A sweep that comes to its end has removed every folder older
    than the threshold and nothing else, the entries that remain keep
    their order, and a second sweep at the same time, or with the same
    cut-off, finds nothing more to remove. *)
Theorem remove_slides_complete (directory : list entry) (now hrs : Z) :
  snd (remove_slides directory now hrs) = Returned ->
  fst (remove_slides directory now hrs)
  = filter (fun e => negb (stale (now - hours hrs) e)) directory /\
  Forall (fun e => is_dir e = false \/ (now - hours hrs <= mod_time e)%Z)
         (fst (remove_slides directory now hrs)) /\
  remove_slides (fst (remove_slides directory now hrs)) now hrs
  = (fst (remove_slides directory now hrs), Returned).
Proof.
  unfold remove_slides. intros Hr. rewrite (sweep_returned _ _ Hr).
  assert (Forall (fun e => stale (now - hours hrs) e = false)
                 (filter (fun e => negb (stale (now - hours hrs) e)) directory))
    as Hclean.
  { apply Forall_forall. intros e He. apply filter_In in He as [_ He].
    now apply negb_true_iff in He. }
  repeat split.
  - apply Forall_forall. intros e He. rewrite Forall_forall in Hclean.
    specialize (Hclean e He). unfold stale in Hclean.
    apply andb_false_iff in Hclean as [Hd | Ht]; [now left | right].
    now apply Z.ltb_ge in Ht.
  - now apply sweep_nothing_stale.
Qed.

Lemma remove_slides_complete_witness :
  snd (remove_slides tmp_slides noon 3) = Returned /\
  fst (remove_slides tmp_slides noon 3)
  = filter (fun e => negb (stale (noon - hours 3) e)) tmp_slides /\
  Forall (fun e => is_dir e = false \/ (noon - hours 3 <= mod_time e)%Z)
         (fst (remove_slides tmp_slides noon 3)) /\
  remove_slides (fst (remove_slides tmp_slides noon 3)) noon 3
  = (fst (remove_slides tmp_slides noon 3), Returned).
Proof.
  split; [reflexivity|]. apply remove_slides_complete. reflexivity.
Defined.

Example sweep_at_noon :
  map entry_name (fst (remove_slides tmp_slides noon 3)) = ["slide_B"; "notes.txt"].
Proof. reflexivity. Qed.

(** X15.  A folder that [rmtree] cannot remove breaks the sweep off at
    that folder: the exception leaves [remove_slides] (and with it the
    clean-up thread), the folder and everything listed after it stay,
    older folders among them, and only the folders listed before it have
    been swept. *)
Theorem remove_slides_broken_off (directory : list entry) (now hrs : Z) :
  snd (remove_slides directory now hrs) = Raised ->
  exists before e after,
    directory = before ++ e :: after /\
    stale (now - hours hrs) e = true /\
    rmtree_ok e = false /\
    remove_slides before now hrs
    = (filter (fun x => negb (stale (now - hours hrs) x)) before, Returned) /\
    fst (remove_slides directory now hrs)
    = filter (fun x => negb (stale (now - hours hrs) x)) before ++ e :: after.
Proof.
  unfold remove_slides. induction directory as [|d directory IH]; [discriminate|].
  cbn [sweep]. fold (stale (now - hours hrs) d).
  destruct (stale (now - hours hrs) d) eqn:Hd.
  - destruct (rmtree_ok d) eqn:Hok.
    + intros Hr. destruct (IH Hr) as (before & e & after & -> & He & Hno & Hb & Hres).
      exists (d :: before), e, after. cbn [sweep filter app].
      fold (stale (now - hours hrs) d). rewrite Hd, Hok. cbn [negb].
      now repeat split.
    + intros _. exists [], d, directory. now repeat split.
  - destruct (sweep (now - hours hrs) directory) as [kept r] eqn:Hs.
    cbn [fst snd] in *. intros Hr.
    destruct (IH Hr) as (before & e & after & -> & He & Hno & Hb & Hres).
    exists (d :: before), e, after. cbn [sweep filter app].
    fold (stale (now - hours hrs) d). rewrite Hd, Hb. cbn [negb].
    repeat split; try assumption. now rewrite Hres.
Qed.

Lemma remove_slides_broken_off_witness :
  snd (remove_slides
         ({| entry_name := "locked"; is_dir := true; mod_time := hours 1;
             rmtree_ok := false |} :: tmp_slides) noon 3) = Raised /\
  exists before e after,
    {| entry_name := "locked"; is_dir := true; mod_time := hours 1;
       rmtree_ok := false |} :: tmp_slides = before ++ e :: after /\
    stale (noon - hours 3) e = true /\
    rmtree_ok e = false /\
    remove_slides before noon 3
    = (filter (fun x => negb (stale (noon - hours 3) x)) before, Returned) /\
    fst (remove_slides
           ({| entry_name := "locked"; is_dir := true; mod_time := hours 1;
               rmtree_ok := false |} :: tmp_slides) noon 3)
    = filter (fun x => negb (stale (noon - hours 3) x)) before ++ e :: after.
Proof.
  split; [reflexivity|]. apply remove_slides_broken_off. reflexivity.
Defined.

(** ** Message control identifiers *)

Lemma string_length_append (a b : str) :
  String.length (String.append a b) = String.length a + String.length b.
Proof. induction a as [|c a IH]; cbn; [reflexivity | now rewrite IH]. Qed.

Lemma list_ascii_of_string_append (a b : str) :
  String.list_ascii_of_string (String.append a b)
  = String.list_ascii_of_string a ++ String.list_ascii_of_string b.
Proof. induction a as [|c a IH]; cbn; [reflexivity | now rewrite IH]. Qed.

(** [str] of a one-digit number is that digit. *)
Lemma str_of_digit (d : nat) :
  d <= 9 ->
  exists c, str_of_nat d = String.String c String.EmptyString /\ is_digit c = true.
Proof.
  intros Hd.
  do 10 (destruct d as [|d]; [eexists; split; reflexivity|]). lia.
Qed.

(** [str] does not give two numbers the same digits. *)
Lemma str_of_nat_inj (a b : nat) : str_of_nat a = str_of_nat b -> a = b.
Proof.
  unfold str_of_nat. intros Heq.
  assert (forall n, Nat.to_uint n <> Decimal.Nil) as Hnn.
  { intros n Hn. pose proof (f_equal Nat.of_uint Hn) as Hz.
    rewrite DecimalNat.Unsigned.of_to in Hz. cbn in Hz. subst n.
    discriminate Hn. }
  apply (f_equal DecimalString.NilZero.uint_of_string) in Heq.
  rewrite !DecimalString.NilZero.usu in Heq by apply Hnn.
  injection Heq as Heq. now apply DecimalNat.Unsigned.to_uint_inj.
Qed.

Lemma concat_digits (randint : nat -> nat) (start ndigits : nat) :
  (forall i, start <= i < start + ndigits -> randint i <= 9) ->
  String.length
    (String.concat "" (map (fun i => str_of_nat (randint i)) (seq start ndigits)))
  = ndigits /\
  Forall (fun c => is_digit c = true)
         (String.list_ascii_of_string
            (String.concat ""
               (map (fun i => str_of_nat (randint i)) (seq start ndigits)))).
Proof.
  revert start. induction ndigits as [|n IH]; intros start Hr.
  - split; [reflexivity | constructor].
  - cbn [seq map]. destruct (str_of_digit (randint start)) as (c & Hc & Hd);
      [apply Hr; lia|].
    destruct (IH (S start)) as [Hlen Hall]; [intros i Hi; apply Hr; lia|].
    rewrite Hc. cbn [String.concat].
    destruct (map (fun i => str_of_nat (randint i)) (seq (S start) n)) eqn:Hm.
    + destruct n; [|discriminate]. split; [reflexivity | now repeat constructor].
    + cbn [String.append String.length String.list_ascii_of_string] in *.
      split; [now rewrite Hlen | now constructor].
Qed.

(** X16.  A message control identifier has exactly [ndigits] characters,
    each a decimal digit, whatever [randint(0, 9)] draws: 16 digits in
    the header of every acknowledgment and every result, well within the
    199 characters that the docstring allows. *)
Theorem msg_ctrl_id_digits (randint : nat -> nat) (ndigits : nat) :
  (forall i, i < ndigits -> randint i <= 9) ->
  String.length (generate_msg_ctrl_id randint ndigits) = ndigits /\
  Forall (fun c => is_digit c = true)
         (String.list_ascii_of_string (generate_msg_ctrl_id randint ndigits)).
Proof.
  intros Hr. unfold generate_msg_ctrl_id. apply concat_digits.
  intros i Hi. apply Hr. lia.
Qed.

Lemma msg_ctrl_id_digits_witness :
  (forall i, i < 16 -> (fun i => (7 * i + 3) mod 10) i <= 9) /\
  String.length (generate_msg_ctrl_id (fun i => (7 * i + 3) mod 10) 16) = 16 /\
  Forall (fun c => is_digit c = true)
         (String.list_ascii_of_string
            (generate_msg_ctrl_id (fun i => (7 * i + 3) mod 10) 16)).
Proof.
  assert (forall i, i < 16 -> (fun i => (7 * i + 3) mod 10) i <= 9) as Hr.
  { intros i _. cbn beta. pose proof (Nat.mod_upper_bound (7 * i + 3) 10). lia. }
  split; [exact Hr|]. apply msg_ctrl_id_digits. exact Hr.
Defined.

Example msg_ctrl_id_sample :
  generate_msg_ctrl_id (fun i => (7 * i + 3) mod 10) 16 = "3074185296307418".
Proof. reflexivity. Qed.

(** ** Reading the order message *)

Lemma str_in_unfold (sub s : str) :
  str_in sub s =
  String.prefix sub s ||
  match s with
  | String.EmptyString => false
  | String.String _ s' => str_in sub s'
  end.
Proof. destruct s; reflexivity. Qed.

Lemma prefix_append (s x : str) : String.prefix s (String.append s x) = true.
Proof.
  induction s as [|a s IH]; cbn.
  - destruct x; reflexivity.
  - destruct (Ascii.ascii_dec a a) as [_|Hne]; [exact IH | now elim Hne].
Qed.

Lemma prefix_refl (s : str) : String.prefix s s = true.
Proof.
  induction s as [|a s IH]; cbn; [reflexivity|].
  destruct (Ascii.ascii_dec a a) as [_|Hne]; [exact IH | now elim Hne].
Qed.

Lemma str_in_append (s x : str) : str_in s (String.append s x) = true.
Proof. rewrite str_in_unfold, prefix_append. reflexivity. Qed.

Lemma str_in_refl (s : str) : str_in s s = true.
Proof. rewrite str_in_unfold, prefix_refl. reflexivity. Qed.

Lemma append_inj_l (s a b : str) :
  String.append s a = String.append s b -> a = b.
Proof.
  induction s as [|c s IH]; cbn; intros H; [assumption|].
  injection H as H. auto.
Qed.

Lemma append_neq_self (s x : str) (a : Ascii.ascii) :
  String.append s (String.String a x) <> s.
Proof.
  induction s as [|c s IH]; cbn; intros H; [discriminate|].
  injection H as H. auto.
Qed.

Lemma count_of_cons (s x : str) (l : list str) :
  count_of s (x :: l) = (if String.eqb s x then 1 else 0) + count_of s l.
Proof. unfold count_of. cbn. destruct (String.eqb s x); reflexivity. Qed.

Lemma count_of_app (s : str) (l1 l2 : list str) :
  count_of s (l1 ++ l2) = count_of s l1 + count_of s l2.
Proof. unfold count_of. now rewrite filter_app, length_app. Qed.

Lemma count_of_le_length (s : str) (l : list str) : count_of s l <= length l.
Proof. apply filter_length_le. Qed.

Lemma count_of_pos_In (s : str) (l : list str) : 1 <= count_of s l -> In s l.
Proof.
  induction l as [|x l IH]; [cbn; lia|].
  rewrite count_of_cons. destruct (String.eqb s x) eqn:E.
  - apply String.eqb_eq in E. intros _. left. now symmetry.
  - intros H. right. apply IH. exact H.
Qed.

Lemma In_count_of_pos (s : str) (l : list str) : In s l -> 1 <= count_of s l.
Proof.
  induction l as [|x l IH]; [contradiction|].
  rewrite count_of_cons. intros [H|H].
  - subst x. rewrite String.eqb_refl. lia.
  - apply IH in H. lia.
Qed.

Lemma count_of_names (s : str) (l : list segment) :
  count_of s (map seg_name l) = length (filter (is_named s) l).
Proof.
  induction l as [|x l IH]; [reflexivity|].
  cbn [map]. rewrite count_of_cons. cbn [filter]. unfold is_named at 1.
  destruct (String.eqb s (seg_name x)); cbn [length]; rewrite IH; reflexivity.
Qed.

Lemma str_in_list_dup (s : str) (names : list str) :
  str_in_list s (dup_segments names) = (1 <? count_of s names).
Proof.
  unfold str_in_list, dup_segments.
  destruct (1 <? count_of s names) eqn:D.
  - apply existsb_exists. exists s. split; [|apply String.eqb_refl].
    apply nodup_In, filter_In. split; [|exact D].
    apply count_of_pos_In. apply Nat.ltb_lt in D. lia.
  - destruct (existsb _ _) eqn:E; [|reflexivity].
    apply existsb_exists in E. destruct E as (x & Hin & Hx).
    apply String.eqb_eq in Hx. subst x.
    apply nodup_In, filter_In in Hin. destruct Hin as [_ Hin]. congruence.
Qed.

Lemma names_apart_spec (names : list str) (s t : str) :
  names_apart names = true -> In s names -> In t names -> s <> t ->
  str_in s t = false /\
  forall j, 1 <= j <= length names ->
            str_in s (String.append t (String.append "_" (str_of_nat j))) = false.
Proof.
  unfold names_apart. intros H Hs Ht Hne.
  rewrite forallb_forall in H. specialize (H s Hs).
  rewrite forallb_forall in H. specialize (H t Ht).
  apply orb_true_iff in H. destruct H as [H|H].
  - apply String.eqb_eq in H. contradiction.
  - apply andb_true_iff in H. destruct H as [H1 H2]. split.
    + now apply negb_true_iff in H1.
    + intros j Hj. rewrite forallb_forall in H2. specialize (H2 j).
      rewrite negb_true_iff in H2. apply H2. apply in_seq. lia.
Qed.

Lemma str_in_other_key (names : list str) (s t : str) (c : nat) :
  names_apart names = true -> In s names -> In t names ->
  c < length names -> s <> t ->
  str_in s (numbered_key names t c) = false.
Proof.
  intros Ha Hs Ht Hc Hne.
  destruct (names_apart_spec names s t Ha Hs Ht Hne) as [H1 H2].
  unfold numbered_key. destruct (1 <? count_of t names); [|exact H1].
  apply H2. lia.
Qed.

Lemma str_in_own_key (names : list str) (s : str) (c : nat) :
  str_in s (numbered_key names s c) = true.
Proof.
  unfold numbered_key. destruct (1 <? count_of s names).
  - apply str_in_append.
  - apply str_in_refl.
Qed.

Lemma numbered_key_eq (names : list str) (s t : str) (c1 c2 : nat) :
  names_apart names = true -> In s names -> In t names ->
  c2 < length names ->
  numbered_key names s c1 = numbered_key names t c2 ->
  s = t /\ ((1 <? count_of s names) = true -> c1 = c2).
Proof.
  intros Ha Hs Ht Hc E.
  destruct (String.string_dec s t) as [Heq|Hne].
  - subst t. split; [reflexivity|]. intros D.
    unfold numbered_key in E. rewrite D in E.
    apply append_inj_l, append_inj_l, str_of_nat_inj in E. lia.
  - exfalso.
    pose proof (str_in_own_key names s c1) as H1.
    rewrite E, (str_in_other_key names s t c2 Ha Hs Ht Hc Hne) in H1.
    discriminate.
Qed.

Lemma labelled_app (names seen : list str) (a b : list segment) :
  labelled names seen (a ++ b) =
  labelled names seen a ++ labelled names (seen ++ map seg_name a) b.
Proof.
  revert seen. induction a as [|x a IH]; intros seen; cbn [app map labelled].
  - now rewrite app_nil_r.
  - rewrite IH, <- app_assoc. reflexivity.
Qed.

Lemma keys_of_labelled (names seen : list str) (segs : list segment) (k : str) :
  In k (map fst (labelled names seen segs)) ->
  exists t c,
    In t (map seg_name segs) /\
    count_of t seen <= c < count_of t (seen ++ map seg_name segs) /\
    k = numbered_key names t c.
Proof.
  revert seen. induction segs as [|x rest IH]; intros seen H;
    cbn [labelled map fst In] in H; [contradiction|].
  destruct H as [H|H].
  - exists (seg_name x), (count_of (seg_name x) seen).
    split; [left; reflexivity|]. split; [|symmetry; exact H].
    cbn [map]. rewrite count_of_app, count_of_cons, String.eqb_refl. lia.
  - apply IH in H. destruct H as (t & c & Hin & Hc & Hk).
    exists t, c. split; [right; exact Hin|]. split; [|exact Hk].
    rewrite <- app_assoc in Hc. cbn [app] in Hc.
    rewrite count_of_app in Hc. rewrite count_of_app in Hc.
    cbn [map]. rewrite count_of_app. lia.
Qed.

Lemma keys_fields_of (l : list (str * segment)) :
  map fst (fields_of l) = map fst l.
Proof. unfold fields_of. rewrite map_map. reflexivity. Qed.

Lemma keys_values_of (l : list (str * segment)) :
  map fst (values_of l) = map fst l.
Proof. unfold values_of. rewrite map_map. reflexivity. Qed.

(** The count of line 83 is the number of earlier segments of that name. *)
Lemma count_keys (names : list str) (s : str) :
  names_apart names = true -> (1 <? count_of s names) = true ->
  forall segs seen tail,
    names = seen ++ map seg_name segs ++ tail ->
    length (filter (str_in s) (map fst (labelled names seen segs))) =
    count_of s (map seg_name segs).
Proof.
  intros Ha D.
  assert (Hs : In s names).
  { apply count_of_pos_In. apply Nat.ltb_lt in D. lia. }
  induction segs as [|x rest IH]; intros seen tail E; [reflexivity|].
  cbn [labelled map fst filter]. rewrite count_of_cons.
  specialize (IH (seen ++ [seg_name x]) tail).
  rewrite <- app_assoc in IH. specialize (IH E).
  unfold expected_key.
  destruct (String.eqb s (seg_name x)) eqn:Eq.
  - apply String.eqb_eq in Eq. rewrite <- Eq, str_in_own_key.
    cbn [length]. rewrite <- Eq in IH. rewrite IH. reflexivity.
  - apply String.eqb_neq in Eq.
    assert (Hx : In (seg_name x) names).
    { rewrite E. apply in_or_app. right. left. reflexivity. }
    assert (Hc : count_of (seg_name x) seen < length names).
    { pose proof (count_of_le_length (seg_name x) seen) as Hle.
      rewrite E. rewrite length_app. cbn [map app length]. lia. }
    rewrite (str_in_other_key names s (seg_name x) _ Ha Hs Hx Hc Eq).
    rewrite IH. reflexivity.
Qed.

Lemma key_fresh (names : list str) :
  names_apart names = true ->
  forall pre x tail,
    names = map seg_name pre ++ seg_name x :: tail ->
    ~ In (expected_key names (map seg_name pre) (seg_name x))
         (map fst (labelled names [] pre)).
Proof.
  intros Ha pre x tail E Hin.
  apply keys_of_labelled in Hin. destruct Hin as (t & c & Ht & Hc & Hk).
  cbn [app] in Hc. unfold expected_key in Hk.
  assert (Hx : In (seg_name x) names).
  { rewrite E. apply in_or_app. right. left. reflexivity. }
  assert (Ht' : In t names).
  { rewrite E. apply in_or_app. left. exact Ht. }
  assert (Hlen : c < length names).
  { pose proof (count_of_le_length t (map seg_name pre)) as Hle.
    rewrite E, length_app. cbn [length]. lia. }
  destruct (numbered_key_eq _ _ _ _ _ Ha Hx Ht' Hlen Hk) as [Est Hd].
  subst t.
  assert (D : (1 <? count_of (seg_name x) names) = true).
  { apply Nat.ltb_lt. rewrite E, count_of_app, count_of_cons, String.eqb_refl.
    lia. }
  specialize (Hd D). lia.
Qed.

Lemma dict_set_fresh {V} (k : str) (v : V) (d : dict V) :
  ~ In k (map fst d) -> dict_set k v d = d ++ [(k, v)].
Proof.
  induction d as [|[k' v'] d IH]; cbn; intros H; [reflexivity|].
  destruct (String.eqb k' k) eqn:E.
  - apply String.eqb_eq in E. exfalso. apply H. left. exact E.
  - rewrite IH; [reflexivity|]. intros Hin. apply H. right. exact Hin.
Qed.

Lemma dict_get_absent {V} (k : str) (d : dict V) :
  ~ In k (map fst d) -> dict_get k d = None.
Proof.
  induction d as [|[k' v'] d IH]; cbn; intros H; [reflexivity|].
  destruct (String.eqb k' k) eqn:E.
  - apply String.eqb_eq in E. exfalso. apply H. left. exact E.
  - apply IH. intros Hin. apply H. right. exact Hin.
Qed.

Lemma dict_get_In {V} (k : str) (v : V) (d : dict V) :
  NoDup (map fst d) -> In (k, v) d -> dict_get k d = Some v.
Proof.
  induction d as [|[k' v'] d IH]; cbn; intros Hnd Hin; [contradiction|].
  inversion Hnd as [|? ? Hnotin Hnd']; subst.
  destruct Hin as [Hin|Hin].
  - injection Hin as -> ->. now rewrite String.eqb_refl.
  - destruct (String.eqb k' k) eqn:E.
    + apply String.eqb_eq in E. subst k'. exfalso. apply Hnotin.
      change k with (fst (k, v)). now apply in_map.
    + now apply IH.
Qed.

Lemma key_of_expected (names : list str) :
  names_apart names = true ->
  forall pre x tail,
    names = map seg_name pre ++ seg_name x :: tail ->
    key_of (seg_name x) (dup_segments names) (fields_of (labelled names [] pre)) =
    expected_key names (map seg_name pre) (seg_name x).
Proof.
  intros Ha pre x tail E.
  unfold key_of, expected_key, numbered_key. rewrite str_in_list_dup.
  destruct (1 <? count_of (seg_name x) names) eqn:D; [|reflexivity].
  unfold dict_keys. rewrite keys_fields_of.
  rewrite (count_keys names (seg_name x) Ha D pre [] (seg_name x :: tail) E).
  reflexivity.
Qed.

Lemma store_segment_step (names : list str) :
  names_apart names = true ->
  forall pre x tail,
    names = map seg_name pre ++ seg_name x :: tail ->
    store_segment (dup_segments names)
                  (fields_of (labelled names [] pre),
                   values_of (labelled names [] pre)) x =
    (fields_of (labelled names [] (pre ++ [x])),
     values_of (labelled names [] (pre ++ [x]))).
Proof.
  intros Ha pre x tail E.
  unfold store_segment. cbn [fst snd].
  rewrite (key_of_expected names Ha pre x tail E).
  pose proof (key_fresh names Ha pre x tail E) as Hfresh.
  rewrite !dict_set_fresh
    by (rewrite ?keys_fields_of, ?keys_values_of; exact Hfresh).
  rewrite labelled_app. cbn [labelled app].
  unfold fields_of, values_of. rewrite !map_app. reflexivity.
Qed.

Lemma fold_store_segment (names : list str) :
  names_apart names = true ->
  forall rest pre,
    names = map seg_name (pre ++ rest) ->
    fold_left (store_segment (dup_segments names)) rest
              (fields_of (labelled names [] pre),
               values_of (labelled names [] pre)) =
    (fields_of (labelled names [] (pre ++ rest)),
     values_of (labelled names [] (pre ++ rest))).
Proof.
  intros Ha. induction rest as [|x rest IH]; intros pre E.
  - now rewrite app_nil_r.
  - cbn [fold_left].
    rewrite (store_segment_step names Ha pre x (map seg_name rest))
      by (rewrite E, map_app; reflexivity).
    rewrite IH by (rewrite <- app_assoc; exact E).
    rewrite <- app_assoc. reflexivity.
Qed.

(** Under [names_apart] the two dictionaries hold one binding for each
    segment, in the order of the message. *)
Lemma msg_dicts_labelled (children : list segment) :
  names_apart (map seg_name children) = true ->
  msg_dicts children =
  (fields_of (labelled (map seg_name children) [] children),
   values_of (labelled (map seg_name children) [] children)).
Proof.
  intros Ha. unfold msg_dicts.
  exact (fold_store_segment _ Ha children [] eq_refl).
Qed.

Lemma labelled_keys_NoDup (names : list str) :
  names_apart names = true ->
  forall pre tail,
    names = map seg_name pre ++ tail ->
    NoDup (map fst (labelled names [] pre)).
Proof.
  intros Ha. induction pre as [|x pre IH] using rev_ind; intros tail E.
  - constructor.
  - rewrite map_app, <- app_assoc in E. cbn [map app] in E.
    rewrite labelled_app, map_app. cbn [labelled map fst app].
    apply NoDup_app.
    + exact (IH _ E).
    + constructor; [intros []|constructor].
    + intros k Hk [Hk'|[]]. subst k.
      exact (key_fresh names Ha pre x tail E Hk).
Qed.

Lemma labelled_In (names : list str) (pre post : list segment) (x : segment) :
  In (expected_key names (map seg_name pre) (seg_name x), x)
     (labelled names [] (pre ++ x :: post)).
Proof.
  rewrite labelled_app. apply in_or_app. right. left. reflexivity.
Qed.

Lemma lookup_segment (children pre post : list segment) (x : segment) :
  names_apart (map seg_name children) = true ->
  children = pre ++ x :: post ->
  let key := expected_key (map seg_name children) (map seg_name pre)
                          (seg_name x) in
  dict_get key (fst (msg_dicts children)) = Some (subset_of (seg_children x)) /\
  dict_get key (snd (msg_dicts children)) = Some (seg_value x).
Proof.
  intros Ha E key.
  rewrite (msg_dicts_labelled children Ha). cbn [fst snd].
  pose proof (labelled_keys_NoDup _ Ha children [] (eq_sym (app_nil_r _)))
    as Hnd.
  pose proof (labelled_In (map seg_name children) pre post x) as Hin.
  rewrite <- E in Hin. fold key in Hin.
  split.
  - apply dict_get_In; [now rewrite keys_fields_of|].
    unfold fields_of.
    change (key, subset_of (seg_children x))
      with ((fun kv : str * segment =>
               (fst kv, subset_of (seg_children (snd kv)))) (key, x)).
    now apply in_map.
  - apply dict_get_In; [now rewrite keys_values_of|].
    unfold values_of.
    change (key, seg_value x)
      with ((fun kv : str * segment => (fst kv, seg_value (snd kv))) (key, x)).
    now apply in_map.
Qed.

Lemma labelled_length (names seen : list str) (segs : list segment) :
  length (labelled names seen segs) = length segs.
Proof.
  revert seen. induction segs as [|x rest IH]; intros seen; [reflexivity|].
  cbn [labelled length]. now rewrite IH.
Qed.

Lemma nth_error_filter_split {A} (f : A -> bool) (l : list A) (i : nat) (x : A) :
  nth_error (filter f l) i = Some x ->
  exists pre post,
    l = pre ++ x :: post /\ length (filter f pre) = i /\ f x = true.
Proof.
  revert i. induction l as [|a l IH]; intros i H; cbn [filter] in H.
  - destruct i; discriminate.
  - destruct (f a) eqn:Fa.
    + destruct i as [|i]; cbn in H.
      * injection H as ->. exists [], l. auto.
      * apply IH in H. destruct H as (pre & post & -> & Hl & Hx).
        exists (a :: pre), post. cbn [filter]. rewrite Fa. cbn. auto.
    + apply IH in H. destruct H as (pre & post & -> & Hl & Hx).
      exists (a :: pre), post. cbn [filter]. rewrite Fa. auto.
Qed.

Lemma lookup_numbered (children : list segment) (t : str) (i : nat)
      (x : segment) :
  names_apart (map seg_name children) = true ->
  (1 <? count_of t (map seg_name children)) = true ->
  nth_error (filter (is_named t) children) i = Some x ->
  dict_get (String.append t (String.append "_" (str_of_nat (i + 1))))
           (fst (msg_dicts children))
  = Some (subset_of (seg_children x)).
Proof.
  intros Ha D H. apply nth_error_filter_split in H.
  destruct H as (pre & post & E & Hl & Hx).
  unfold is_named in Hx. apply String.eqb_eq in Hx.
  destruct (lookup_segment children pre post x Ha E) as [H1 _].
  unfold expected_key, numbered_key in H1.
  rewrite <- Hx, D, count_of_names, Hl in H1. exact H1.
Qed.

Lemma lookup_plain (children : list segment) (t : str) (i : nat)
      (x : segment) :
  names_apart (map seg_name children) = true ->
  (1 <? count_of t (map seg_name children)) = false ->
  nth_error (filter (is_named t) children) i = Some x ->
  dict_get t (fst (msg_dicts children)) = Some (subset_of (seg_children x)).
Proof.
  intros Ha D H. apply nth_error_filter_split in H.
  destruct H as (pre & post & E & Hl & Hx).
  unfold is_named in Hx. apply String.eqb_eq in Hx.
  destruct (lookup_segment children pre post x Ha E) as [H1 _].
  unfold expected_key, numbered_key in H1.
  rewrite <- Hx, D in H1. exact H1.
Qed.

Lemma numbered_absent (children : list segment) (t : str) (i : nat) :
  names_apart (map seg_name children) = true ->
  In t (map seg_name children) ->
  count_of t (map seg_name children) <= i ->
  ~ In (String.append t (String.append "_" (str_of_nat (i + 1))))
       (map fst (labelled (map seg_name children) [] children)).
Proof.
  intros Ha Ht Hi Hin. apply keys_of_labelled in Hin.
  destruct Hin as (u & c & Hu & Hc & Hk). cbn [app] in Hc.
  assert (Hlen : c < length (map seg_name children)).
  { pose proof (count_of_le_length u (map seg_name children)). lia. }
  destruct (String.string_dec t u) as [<-|Hne].
  - unfold numbered_key in Hk.
    destruct (1 <? count_of t (map seg_name children)).
    + apply append_inj_l, append_inj_l, str_of_nat_inj in Hk. lia.
    + exact (append_neq_self t _ _ Hk).
  - pose proof (str_in_append t (String.append "_" (str_of_nat (i + 1))))
      as H1.
    rewrite Hk, (str_in_other_key _ t u c Ha Ht Hu Hlen Hne) in H1.
    discriminate.
Qed.

Lemma plain_absent (children : list segment) (t : str) :
  names_apart (map seg_name children) = true ->
  (1 <? count_of t (map seg_name children)) = true ->
  ~ In t (map fst (labelled (map seg_name children) [] children)).
Proof.
  intros Ha D Hin.
  assert (Ht : In t (map seg_name children)).
  { apply count_of_pos_In. apply Nat.ltb_lt in D. lia. }
  apply keys_of_labelled in Hin.
  destruct Hin as (u & c & Hu & Hc & Hk). cbn [app] in Hc.
  assert (Hlen : c < length (map seg_name children)).
  { pose proof (count_of_le_length u (map seg_name children)). lia. }
  destruct (String.string_dec t u) as [<-|Hne].
  - unfold numbered_key in Hk. rewrite D in Hk. symmetry in Hk.
    exact (append_neq_self t _ _ Hk).
  - assert (H1 : str_in t (numbered_key (map seg_name children) u c) = true).
    { rewrite <- Hk. apply str_in_refl. }
    rewrite (str_in_other_key _ t u c Ha Ht Hu Hlen Hne) in H1.
    discriminate.
Qed.

Lemma all_some_None {A} (l : list (option A)) : In None l -> all_some l = None.
Proof.
  induction l as [|[a|] l IH]; cbn; intros H; [contradiction| |reflexivity].
  destruct H as [H|H]; [discriminate|]. now rewrite IH.
Qed.

Lemma map_seq_firstn {A B} (g : A -> B) (l : list A) :
  forall (f : nat -> B) (n : nat),
    n <= length l ->
    (forall i x, nth_error l i = Some x -> f i = g x) ->
    map f (seq 0 n) = map g (firstn n l).
Proof.
  induction l as [|a l IH]; intros f n Hn H.
  - cbn in Hn. replace n with 0 by lia. reflexivity.
  - destruct n as [|n]; [reflexivity|].
    cbn [seq map firstn]. rewrite <- seq_shift, map_map. f_equal.
    + apply (H 0). reflexivity.
    + apply IH; [cbn in Hn; lia|]. intros i x Hi. apply (H (S i)). exact Hi.
Qed.

(** The count of line 27 is the number of ORC segments. *)
Lemma howmany_orc (children : list segment) :
  names_apart (map seg_name children) = true ->
  (1 <? count_of "ORC" (map seg_name children)) = true ->
  length (filter (str_in "ORC") (dict_keys (fst (msg_dicts children))))
  = count_of "ORC" (map seg_name children).
Proof.
  intros Ha D. rewrite (msg_dicts_labelled children Ha). cbn [fst].
  unfold dict_keys. rewrite keys_fields_of.
  apply (count_keys _ "ORC" Ha D children [] []).
  cbn [app]. now rewrite app_nil_r.
Qed.

(** X17.  When no segment name occurs inside another name or inside
    another name's numbered key, every segment of the order message is
    found in both dictionaries under a key of its own: its name when the
    name occurs once in the message, and [NAME_i] for the [i]-th segment
    of a name that occurs several times. *)
Theorem segment_stored_under_own_key
        (children pre post : list segment) (x : segment) :
  names_apart (map seg_name children) = true ->
  children = pre ++ x :: post ->
  dict_get (expected_key (map seg_name children) (map seg_name pre)
                         (seg_name x))
           (fst (msg_dicts children))
  = Some (subset_of (seg_children x)) /\
  dict_get (expected_key (map seg_name children) (map seg_name pre)
                         (seg_name x))
           (snd (msg_dicts children))
  = Some (seg_value x).
Proof. intros Ha E. exact (lookup_segment children pre post x Ha E). Qed.

Lemma segment_stored_under_own_key_witness :
  names_apart (map seg_name two_slide_order) = true /\
  two_slide_order
  = firstn 5 two_slide_order
    ++ seg "OBR" "OBR|2" [("OBR_2", "B2"); ("OBR_13", "archive/s2.mrxs")]
    :: skipn 6 two_slide_order /\
  dict_get "OBR_2" (fst (msg_dicts two_slide_order))
  = Some [("OBR_2", "B2"); ("OBR_13", "archive/s2.mrxs")] /\
  dict_get "OBR_2" (snd (msg_dicts two_slide_order)) = Some "OBR|2".
Proof.
  split; [reflexivity|]. split; [reflexivity|].
  exact (segment_stored_under_own_key
           two_slide_order (firstn 5 two_slide_order)
           (skipn 6 two_slide_order)
           (seg "OBR" "OBR|2" [("OBR_2", "B2"); ("OBR_13", "archive/s2.mrxs")])
           eq_refl eq_refl).
Defined.

(** X18.  Under the same condition on the names, the two dictionaries
    have exactly one entry for each segment of the message, with the same
    keys in the same order: no segment overwrites another. *)
Theorem one_entry_per_segment (children : list segment) :
  names_apart (map seg_name children) = true ->
  length (fst (msg_dicts children)) = length children /\
  length (snd (msg_dicts children)) = length children /\
  dict_keys (fst (msg_dicts children)) = dict_keys (snd (msg_dicts children)) /\
  NoDup (dict_keys (fst (msg_dicts children))).
Proof.
  intros Ha. rewrite (msg_dicts_labelled children Ha). cbn [fst snd].
  unfold dict_keys. rewrite keys_fields_of, keys_values_of.
  unfold fields_of, values_of. rewrite !length_map, labelled_length.
  repeat split.
  exact (labelled_keys_NoDup _ Ha children [] (eq_sym (app_nil_r _))).
Qed.

Lemma one_entry_per_segment_witness :
  names_apart (map seg_name two_slide_order) = true /\
  length (fst (msg_dicts two_slide_order)) = length two_slide_order /\
  length (snd (msg_dicts two_slide_order)) = length two_slide_order /\
  dict_keys (fst (msg_dicts two_slide_order))
  = dict_keys (snd (msg_dicts two_slide_order)) /\
  NoDup (dict_keys (fst (msg_dicts two_slide_order))).
Proof.
  split; [reflexivity|]. apply one_entry_per_segment. reflexivity.
Defined.

(** X19.  In a message with [n >= 2] ORC segments and at least [n] OBR
    segments, the slide list is made of the file names in OBR-13 of the
    first [n] OBR segments, in the order of the message; OBR segments
    beyond the [n]-th are not looked at, and a missing OBR-13 among the
    first [n] raises. *)
Theorem slides_of_repeated_orders
        (path_name : str -> str) (children : list segment) :
  names_apart (map seg_name children) = true ->
  2 <= count_of "ORC" (map seg_name children) ->
  count_of "ORC" (map seg_name children)
  <= count_of "OBR" (map seg_name children) ->
  option_map snd (extract_msg_info path_name children)
  = option_map (map path_name)
      (all_some
         (map obr_13
              (firstn (count_of "ORC" (map seg_name children))
                      (filter (is_named "OBR") children)))).
Proof.
  intros Ha Hn Hm.
  assert (Dorc : (1 <? count_of "ORC" (map seg_name children)) = true)
    by (apply Nat.ltb_lt; lia).
  assert (Dobr : (1 <? count_of "OBR" (map seg_name children)) = true)
    by (apply Nat.ltb_lt; lia).
  unfold extract_msg_info, extract_slide_id.
  rewrite str_in_list_dup, Dorc, (howmany_orc children Ha Dorc).
  rewrite (map_seq_firstn obr_13 (filter (is_named "OBR") children)).
  - destruct (all_some _); reflexivity.
  - rewrite <- count_of_names. exact Hm.
  - intros i x Hi.
    pose proof (lookup_numbered children "OBR" i x Ha Dobr Hi) as Hl.
    cbn [String.append] in Hl |- *. rewrite Hl. reflexivity.
Qed.

Lemma slides_of_repeated_orders_witness :
  names_apart (map seg_name surplus_obr_order) = true /\
  2 <= count_of "ORC" (map seg_name surplus_obr_order) /\
  count_of "ORC" (map seg_name surplus_obr_order)
  <= count_of "OBR" (map seg_name surplus_obr_order) /\
  option_map snd (extract_msg_info posix_name surplus_obr_order)
  = Some ["s1.mrxs"; "s2.mrxs"].
Proof.
  split; [reflexivity|]. split; [cbn; lia|]. split; [cbn; lia|].
  exact (slides_of_repeated_orders posix_name surplus_obr_order
           eq_refl (le_n 2) (le_S 2 2 (le_n 2))).
Defined.

(** X20.  A message with [n >= 2] ORC segments and fewer OBR segments
    than that (but at least one) makes [extract_msg_info] raise: the key
    of an OBR segment that does not exist is looked up. *)
Theorem fewer_obr_than_orc_raises
        (path_name : str -> str) (children : list segment) :
  names_apart (map seg_name children) = true ->
  2 <= count_of "ORC" (map seg_name children) ->
  1 <= count_of "OBR" (map seg_name children) ->
  count_of "OBR" (map seg_name children)
  < count_of "ORC" (map seg_name children) ->
  extract_msg_info path_name children = None.
Proof.
  intros Ha Hn Hm1 Hm.
  assert (Dorc : (1 <? count_of "ORC" (map seg_name children)) = true)
    by (apply Nat.ltb_lt; lia).
  unfold extract_msg_info, extract_slide_id.
  rewrite str_in_list_dup, Dorc, (howmany_orc children Ha Dorc).
  rewrite all_some_None; [reflexivity|].
  apply in_map_iff. exists (count_of "OBR" (map seg_name children)).
  split; [|apply in_seq; lia].
  rewrite dict_get_absent; [reflexivity|].
  rewrite (msg_dicts_labelled children Ha). cbn [fst].
  rewrite keys_fields_of.
  apply (numbered_absent children "OBR" _ Ha); [|apply le_n].
  now apply count_of_pos_In.
Qed.

Lemma fewer_obr_than_orc_raises_witness :
  names_apart (map seg_name lopsided_order) = true /\
  2 <= count_of "ORC" (map seg_name lopsided_order) /\
  1 <= count_of "OBR" (map seg_name lopsided_order) /\
  count_of "OBR" (map seg_name lopsided_order)
  < count_of "ORC" (map seg_name lopsided_order) /\
  extract_msg_info posix_name lopsided_order = None.
Proof.
  split; [reflexivity|]. split; [cbn; lia|]. split; [cbn; lia|].
  split; [cbn; lia|].
  exact (fewer_obr_than_orc_raises posix_name lopsided_order
           eq_refl (le_n 2) (le_n 1) (le_n 2)).
Defined.

(** X21.  In a message with at most one ORC segment and exactly one OBR
    segment, the slide list is the one file name in OBR-13 of that
    segment, and a missing OBR-13 raises. *)
Theorem slide_of_single_order
        (path_name : str -> str) (children : list segment) (obr : segment) :
  names_apart (map seg_name children) = true ->
  count_of "ORC" (map seg_name children) <= 1 ->
  filter (is_named "OBR") children = [obr] ->
  option_map snd (extract_msg_info path_name children)
  = option_map (fun st => [path_name st]) (obr_13 obr).
Proof.
  intros Ha Hn Hobr.
  assert (Dorc : (1 <? count_of "ORC" (map seg_name children)) = false)
    by (apply Nat.ltb_ge; lia).
  assert (Dobr : (1 <? count_of "OBR" (map seg_name children)) = false)
    by (rewrite count_of_names, Hobr; reflexivity).
  unfold extract_msg_info, extract_slide_id.
  rewrite str_in_list_dup, Dorc.
  rewrite (lookup_plain children "OBR" 0 obr Ha Dobr)
    by (rewrite Hobr; reflexivity).
  unfold obr_13. destruct (dict_get "OBR_13" _); reflexivity.
Qed.

Lemma slide_of_single_order_witness :
  names_apart (map seg_name single_order) = true /\
  count_of "ORC" (map seg_name single_order) <= 1 /\
  filter (is_named "OBR") single_order
  = [seg "OBR" "OBR|1" [("OBR_13", "archive/s1.mrxs")]] /\
  option_map snd (extract_msg_info posix_name single_order)
  = Some ["s1.mrxs"].
Proof.
  split; [reflexivity|]. split; [cbn; lia|]. split; [reflexivity|].
  exact (slide_of_single_order posix_name single_order
           (seg "OBR" "OBR|1" [("OBR_13", "archive/s1.mrxs")])
           eq_refl (le_n 1) eq_refl).
Defined.

(** X22.  A message with at most one ORC segment and two or more OBR
    segments makes [extract_msg_info] raise: the OBR segments are stored
    as [OBR_1], [OBR_2], ... and the key [OBR] is looked up. *)
Theorem repeated_obr_without_repeated_orc_raises
        (path_name : str -> str) (children : list segment) :
  names_apart (map seg_name children) = true ->
  count_of "ORC" (map seg_name children) <= 1 ->
  2 <= count_of "OBR" (map seg_name children) ->
  extract_msg_info path_name children = None.
Proof.
  intros Ha Hn Hm.
  assert (Dorc : (1 <? count_of "ORC" (map seg_name children)) = false)
    by (apply Nat.ltb_ge; lia).
  assert (Dobr : (1 <? count_of "OBR" (map seg_name children)) = true)
    by (apply Nat.ltb_lt; lia).
  unfold extract_msg_info, extract_slide_id.
  rewrite str_in_list_dup, Dorc.
  rewrite dict_get_absent; [reflexivity|].
  rewrite (msg_dicts_labelled children Ha). cbn [fst].
  rewrite keys_fields_of.
  exact (plain_absent children "OBR" Ha Dobr).
Qed.

Lemma repeated_obr_without_repeated_orc_raises_witness :
  names_apart (map seg_name shared_orc_order) = true /\
  count_of "ORC" (map seg_name shared_orc_order) <= 1 /\
  2 <= count_of "OBR" (map seg_name shared_orc_order) /\
  extract_msg_info posix_name shared_orc_order = None.
Proof.
  split; [reflexivity|]. split; [cbn; lia|]. split; [cbn; lia|].
  exact (repeated_obr_without_repeated_orc_raises posix_name shared_orc_order
           eq_refl (le_n 1) (le_n 2)).
Defined.
